(** * Taekwondo competition manager: bracket construction and advancement

    A shallow embedding of [app.py] (Flask + Flask-SQLAlchemy on SQLite).

    - Tables are lists of rows in insertion order; [Model.query.get] is a
      look-up by primary key, an attribute assignment on a loaded object is
      an update of the row carrying that primary key (the session's identity
      map gives one object per key).
    - A view function works on the session (the pending copy of the
      database); [db.session.commit()] stores the pending copy.  When the
      request ends, the session is removed and whatever was not committed is
      rolled back.
    - Python truthiness of an optional integer ([if x:] / [if not x:]) is
      [truthy]: [None] and [0] are both falsy.
    - [random.shuffle] draws from the global generator; the generator is the
      explicit argument [rnd].
    - [math.ceil(math.log2(n))] is the exact integer [Nat.log2_up n].
    - Integers are unbounded, as in Python.  SQLite stores signed 64-bit
      integers, and the driver raises [OverflowError] when a larger one is
      bound to a statement; the model does not have this failure, and the
      statements that depend on it assume the submitted keys and numbers in
      range ([sqlite_int]). *)

From stdpp Require Import base list strings pretty sorting.
From Stdlib Require Import ZArith Lia.

(** ** Data model (the four [db.Model] classes) *)

Record Ring := mkRing {
  ring_pk : Z;
  ring_name : string
}.

Record Division := mkDivision {
  division_pk : Z;
  division_name : string
}.

Record Competitor := mkCompetitor {
  competitor_pk : Z;
  competitor_name : string;
  competitor_division_id : Z
}.

Record Match := mkMatch {
  id : Z;
  division_id : Z;
  ring_id : option Z;
  competitor1_id : option Z;
  competitor2_id : option Z;
  winner_id : option Z;
  next_match_id : option Z;
  match_number : option Z;
  status : option string;
  round_name : option string
}.

Record DB := mkDB {
  rings : list Ring;
  divisions : list Division;
  competitors : list Competitor;
  matches : list Match
}.

(** Python exceptions that escape a view (Flask answers 500). *)
Inductive exn :=
| IndexError
| ZeroDivisionError
| AttributeError
| ValueError
| IntegrityError
| NoResponse.   (* the view function fell off its end and returned None *)

(** JSON values, as [jsonify] serialises them. *)
#[local] Set Warnings "-register-all".
Inductive json :=
| JNull
| JInt (z : Z)
| JStr (s : string)
| JObj (fields : list (string * json))
| JArr (items : list json).

(** What the client receives.  HTML bodies are kept as tagged data. *)
Inductive body :=
| JsonMessage (msg : string)
| JsonError (msg : string)
| JsonValue (j : json)
| HtmlBracketGenerated (num_comp : nat) (div_id : Z)
| HtmlMatchStarted (number : option Z)
| HtmlMatchComplete (number : option Z) (winner : string)
| HtmlWinnerMissing
| HtmlEmpty.

Inductive response :=
| Ok200 (b : body)
| BadRequest400 (b : body)
| NotFound404 (b : option body)
| ServerError500 (e : exn).

(** ** Python truthiness *)

Definition truthy (x : option Z) : bool :=
  match x with
  | Some z => negb (z =? 0)%Z
  | None => false
  end.

(** [x in ["Completed", "Disqualification"]] *)
Definition is_decided_status (s : option string) : bool :=
  match s with
  | Some s => bool_decide (s = "Completed") || bool_decide (s = "Disqualification")
  | None => false
  end.

(** ** Rows and sessions *)

(** [Match.query.get(i)] *)
Fixpoint get_match (i : Z) (tbl : list Match) : option Match :=
  match tbl with
  | [] => None
  | m :: tbl' => if (id m =? i)%Z then Some m else get_match i tbl'
  end.

Fixpoint get_competitor (i : Z) (tbl : list Competitor) : option Competitor :=
  match tbl with
  | [] => None
  | c :: tbl' => if (competitor_pk c =? i)%Z then Some c else get_competitor i tbl'
  end.

Fixpoint get_division (i : Z) (tbl : list Division) : option Division :=
  match tbl with
  | [] => None
  | d :: tbl' => if (division_pk d =? i)%Z then Some d else get_division i tbl'
  end.

(** Attribute assignments on a [Match] object. *)
Definition set_status (s : option string) (m : Match) : Match :=
  mkMatch (id m) (division_id m) (ring_id m) (competitor1_id m) (competitor2_id m)
          (winner_id m) (next_match_id m) (match_number m) s (round_name m).

Definition set_winner_id (w : option Z) (m : Match) : Match :=
  mkMatch (id m) (division_id m) (ring_id m) (competitor1_id m) (competitor2_id m)
          w (next_match_id m) (match_number m) (status m) (round_name m).

Definition set_competitor1_id (c : option Z) (m : Match) : Match :=
  mkMatch (id m) (division_id m) (ring_id m) c (competitor2_id m)
          (winner_id m) (next_match_id m) (match_number m) (status m) (round_name m).

Definition set_competitor2_id (c : option Z) (m : Match) : Match :=
  mkMatch (id m) (division_id m) (ring_id m) (competitor1_id m) c
          (winner_id m) (next_match_id m) (match_number m) (status m) (round_name m).

Definition set_next_match_id (n : option Z) (m : Match) : Match :=
  mkMatch (id m) (division_id m) (ring_id m) (competitor1_id m) (competitor2_id m)
          (winner_id m) n (match_number m) (status m) (round_name m).

(** The object with primary key [i] gets [f] applied; every other row stays. *)
Definition update_match (i : Z) (f : Match → Match) (tbl : list Match) : list Match :=
  map (λ m, if (id m =? i)%Z then f m else m) tbl.

Definition with_matches (tbl : list Match) (d : DB) : DB :=
  mkDB (rings d) (divisions d) (competitors d) tbl.

(** A request's view of the database: what is stored, and the session's
    pending copy. *)
Record Txn := mkTxn {
  stored : DB;
  pending : DB
}.

Definition begin (d : DB) : Txn := mkTxn d d.

(** [db.session.commit()] *)
Definition commit (t : Txn) : Txn := mkTxn (pending t) (pending t).

Definition on_matches (f : list Match → list Match) (t : Txn) : Txn :=
  mkTxn (stored t) (with_matches (f (matches (pending t))) (pending t)).

(** Run a view as one request: the session starts from the stored database
    and is removed at the end, so only committed changes survive. *)
Definition request (view : Txn → response * Txn) (d : DB) : response * DB :=
  let '(r, t) := view (begin d) in (r, stored t).

(** ** Advancement engine: [record_result] and [ui_record_result] *)

(** The block under [# --- BRACKET ADVANCEMENT LOGIC ---], which both views
    contain verbatim.  [m] is the loaded match object, [w] the value just
    stored in [match.winner_id].  [Match.query.get] answers [None] for an
    unknown key, and reading an attribute of [None] raises. *)
Definition advance_winner (m : Match) (w : option Z) (t : Txn) : exn + Txn :=
  if truthy (next_match_id m) then
    match next_match_id m ≫= λ n, get_match n (matches (pending t)) with
    | None => inl AttributeError
    | Some next_match =>
      if negb (truthy (competitor1_id next_match)) then
        inr (on_matches (update_match (id next_match) (set_competitor1_id w)) t)
      else if negb (truthy (competitor2_id next_match)) then
        inr (on_matches (update_match (id next_match) (set_competitor2_id w)) t)
      else inr t
    end
  else inr t.

(** [POST /matches/<match_id>/result] with a JSON body; [status] and
    [winner_id] are [data.get(...)] of the two keys, for a body that gives
    a string or nothing as status and an integer or nothing as winner id. *)
Definition record_result_view (match_id : Z) (status : option string)
    (winner_id : option Z) (t : Txn) : response * Txn :=
  match get_match match_id (matches (pending t)) with
  | None => (NotFound404 None, t)
  | Some m =>
    let t := on_matches (update_match match_id (set_status status)) t in
    if is_decided_status status then
      if negb (truthy winner_id) then
        (BadRequest400 (JsonError "Winner ID required for Completed/DQ matches"), t)
      else
        let t := on_matches (update_match match_id (set_winner_id winner_id)) t in
        match advance_winner m winner_id t with
        | inl e => (ServerError500 e, t)
        | inr t =>
          (Ok200 (JsonMessage "Result recorded and bracket updated."), commit t)
        end
    else (ServerError500 NoResponse, t)
  end.

Definition record_result (match_id : Z) (status : option string)
    (winner_id : option Z) : DB → response * DB :=
  request (record_result_view match_id status winner_id).

(** A form field that the view tests with [not v] and converts with
    [int(v)]: missing, the empty string, a non-empty string that [int]
    rejects, or a non-empty string denoting an integer. *)
Inductive form_int :=
| FieldMissing
| FieldBlank
| FieldNotInt
| FieldInt (z : Z).

(** [POST /ui/matches/<match_id>/result] with form data. *)
Definition ui_record_result_view (match_id : Z) (status : option string)
    (winner_id : form_int) (t : Txn) : response * Txn :=
  match get_match match_id (matches (pending t)) with
  | None => (NotFound404 None, t)
  | Some m =>
    let t := on_matches (update_match match_id (set_status status)) t in
    if bool_decide (status = Some "In Progress") then
      (Ok200 (HtmlMatchStarted (match_number m)), commit t)
    else if is_decided_status status then
      match winner_id with
      | FieldMissing | FieldBlank => (BadRequest400 HtmlWinnerMissing, t)
      | FieldNotInt => (ServerError500 ValueError, t)
      | FieldInt w =>
        let t := on_matches (update_match match_id (set_winner_id (Some w))) t in
        match advance_winner m (Some w) t with
        | inl e => (ServerError500 e, t)
        | inr t =>
          let t := commit t in
          match get_competitor w (competitors (pending t)) with
          | None => (ServerError500 AttributeError, t)
          | Some winner =>
            (Ok200 (HtmlMatchComplete (match_number m) (competitor_name winner)), t)
          end
        end
      end
    else (ServerError500 NoResponse, t)
  end.

Definition ui_record_result (match_id : Z) (status : option string)
    (winner_id : form_int) : DB → response * DB :=
  request (ui_record_result_view match_id status winner_id).

(** ** Division deletion: [edit_division] (DELETE) and [ui_delete_division] *)

Definition competitors_of (div_id : Z) (tbl : list Competitor) : list Competitor :=
  filter (λ c, competitor_division_id c = div_id) tbl.

Definition matches_of (div_id : Z) (tbl : list Match) : list Match :=
  filter (λ m, division_id m = div_id) tbl.

(** [Model.query.filter_by(division_id=div_id).delete()] *)
Definition delete_competitors_of (div_id : Z) (tbl : list Competitor) : list Competitor :=
  filter (λ c, competitor_division_id c ≠ div_id) tbl.

Definition delete_matches_of (div_id : Z) (tbl : list Match) : list Match :=
  filter (λ m, division_id m ≠ div_id) tbl.

Definition delete_division_row (div_id : Z) (tbl : list Division) : list Division :=
  filter (λ d, division_pk d ≠ div_id) tbl.

(** [db.session.delete(division)] followed by the flush of [commit()].
    [Division.competitors] and [Division.matches] are declared with
    [db.relationship] and no delete cascade, so the unit of work detaches
    the children that still exist by writing NULL into their [division_id];
    both columns are [nullable=False], hence the flush raises as soon as one
    child row is left.  Without children the division row is deleted. *)
Definition session_delete_division (div_id : Z) (d : DB) : exn + DB :=
  match competitors_of div_id (competitors d), matches_of div_id (matches d) with
  | [], [] =>
    inr (mkDB (rings d) (delete_division_row div_id (divisions d))
              (competitors d) (matches d))
  | _, _ => inl IntegrityError
  end.

(** [DELETE /divisions/<div_id>] *)
Definition edit_division_delete_view (div_id : Z) (t : Txn) : response * Txn :=
  match get_division div_id (divisions (pending t)) with
  | None => (NotFound404 None, t)
  | Some division =>
    match session_delete_division div_id (pending t) with
    | inl e => (ServerError500 e, t)
    | inr d => (Ok200 (JsonMessage "Division deleted"), commit (mkTxn (stored t) d))
    end
  end.

Definition edit_division_delete (div_id : Z) : DB → response * DB :=
  request (edit_division_delete_view div_id).

(** [DELETE /ui/divisions/<div_id>] *)
Definition ui_delete_division_view (div_id : Z) (t : Txn) : response * Txn :=
  match get_division div_id (divisions (pending t)) with
  | None => (NotFound404 None, t)
  | Some div =>
    let d := pending t in
    let d := mkDB (rings d) (divisions d) (competitors d)
                  (delete_matches_of div_id (matches d)) in
    let d := mkDB (rings d) (divisions d)
                  (delete_competitors_of div_id (competitors d)) (matches d) in
    match session_delete_division div_id d with
    | inl e => (ServerError500 e, t)
    | inr d => (Ok200 HtmlEmpty, commit (mkTxn (stored t) d))
    end
  end.

Definition ui_delete_division (div_id : Z) : DB → response * DB :=
  request (ui_delete_division_view div_id).

(** ** Bracket read interface: [get_bracket] *)

Definition json_opt_int (x : option Z) : json :=
  match x with Some z => JInt z | None => JNull end.

Definition json_opt_str (x : option string) : json :=
  match x with Some s => JStr s | None => JNull end.

(** The inner helper [get_comp_data]. *)
Definition get_comp_data (tbl : list Competitor) (comp_id : option Z) : json :=
  if negb (truthy comp_id) then JNull
  else
    match comp_id ≫= λ i, get_competitor i tbl with
    | Some comp =>
      JObj [("id", JInt (competitor_pk comp)); ("name", JStr (competitor_name comp))]
    | None => JNull
    end.

Definition bracket_entry (tbl : list Competitor) (m : Match) : json :=
  JObj [ ("match_id", JInt (id m));
         ("round_name", json_opt_str (round_name m));
         ("status", json_opt_str (status m));
         ("ring_id", json_opt_int (ring_id m));
         ("next_match_id", json_opt_int (next_match_id m));
         ("competitor1", get_comp_data tbl (competitor1_id m));
         ("competitor2", get_comp_data tbl (competitor2_id m));
         ("winner_id", json_opt_int (winner_id m)) ].

(** [GET /divisions/<div_id>/bracket]; nothing is written, so the view is a
    function of the database alone. *)
Definition get_bracket (div_id : Z) (d : DB) : response :=
  match matches_of div_id (matches d) with
  | [] => NotFound404 (Some (JsonError "No bracket found for this division."))
  | ms => Ok200 (JsonValue (JArr (map (bracket_entry (competitors d)) ms)))
  end.

(** ** Bracket builder: [generate_bracket] *)

(** A computation that finishes, raises, or reaches the bound that the
    model puts on the [while] loop. *)
Inductive outcome (A : Type) :=
| Done (a : A)
| Raised (e : exn)
| Unfinished.
Arguments Done {A} a.
Arguments Raised {A} e.
Arguments Unfinished {A}.

Definition obind {A B} (x : outcome A) (k : A → outcome B) : outcome B :=
  match x with
  | Done a => k a
  | Raised e => Raised e
  | Unfinished => Unfinished
  end.

Notation "x ←! c ; k" := (obind c (λ x, k))
  (at level 20, c at level 100, k at level 200, right associativity, only parsing).
Notation "' p ←! c ; k" := (obind c (λ x, let 'p := x in k))
  (at level 20, p pattern, c at level 100, k at level 200, right associativity, only parsing).

(** [x[i], x[j] = x[j], x[i]] *)
Definition swap {A} (i j : nat) (x : list A) : list A :=
  match x !! i, x !! j with
  | Some a, Some b => <[j := a]> (<[i := b]> x)
  | _, _ => x
  end.

(** [random.shuffle]: for [i] from [len(x) - 1] down to [1], exchange [x[i]]
    with [x[randbelow(i + 1)]]; [rnd i] is the draw made at index [i]. *)
Fixpoint shuffle_down {A} (rnd : nat → nat) (i : nat) (x : list A) : list A :=
  match i with
  | O => x
  | S i' => shuffle_down rnd i' (swap i (rnd i mod (i + 1)) x)
  end.

Definition shuffle {A} (rnd : nat → nat) (x : list A) : list A :=
  shuffle_down rnd (length x - 1) x.

Definition pairing : Type := option Competitor * option Competitor.

(** One turn of the dealing loop: [match_pairings[i % n][i // n] = competitor]
    with [n = num_first_round_matches]; an inner list has two cells. *)
Definition deal_one (n : nat) (i : nat) (competitor : Competitor)
    (match_pairings : list pairing) : outcome (list pairing) :=
  if (n =? 0)%nat then Raised ZeroDivisionError
  else
    let slot := (i / n)%nat in
    let match_index := (i mod n)%nat in
    match match_pairings !! match_index with
    | None => Raised IndexError
    | Some (c1, c2) =>
      match slot with
      | 0%nat => Done (<[match_index := (Some competitor, c2)]> match_pairings)
      | 1%nat => Done (<[match_index := (c1, Some competitor)]> match_pairings)
      | _ => Raised IndexError
      end
    end.

(** [for i, competitor in enumerate(competitors)], from index [i] on. *)
Fixpoint deal (n : nat) (i : nat) (cs : list Competitor)
    (match_pairings : list pairing) : outcome (list pairing) :=
  match cs with
  | [] => Done match_pairings
  | competitor :: cs' =>
    ps ←! deal_one n i competitor match_pairings;
    deal n (S i) cs' ps
  end.

(** The key SQLite gives to a new row of a table whose primary key is an
    INTEGER column: one more than the largest key in use, [1] in an empty
    table. *)
Definition fresh_id (tbl : list Match) : Z :=
  (foldr (λ m acc, Z.max (id m) acc) 0 tbl + 1)%Z.

(** [Match(division_id=..., competitor1_id=..., competitor2_id=...,
    round_name=...)] before it has a key; the other columns are unset. *)
Definition new_match (div_id : Z) (c1 c2 : option Z) (r_name : string) (i : Z) : Match :=
  mkMatch i div_id None c1 c2 None None None None (Some r_name).

(** The column default [status = "Pending"], applied on INSERT when the
    attribute was never assigned. *)
Definition insert_defaults (m : Match) : Match :=
  match status m with
  | None => set_status (Some "Pending") m
  | Some _ => m
  end.

(** [db.session.add(m)] and the flush that gives the row its key; rows
    flushed together get their keys in the order in which they were added. *)
Definition add_match (m : Z → Match) (tbl : list Match) : Z * list Match :=
  let i := fresh_id tbl in (i, tbl ++ [insert_defaults (m i)]).

(** Step 3, the body of [for pair in match_pairings]. *)
Definition round1_match (div_id : Z) (pr : pairing) (i : Z) : Match :=
  let '(comp1, comp2) := pr in
  let m := new_match div_id (competitor_pk <$> comp1) (competitor_pk <$> comp2) "Round 1" i in
  match comp1, comp2 with
  | Some c1, None => set_status (Some "Completed (Bye)") (set_winner_id (Some (competitor_pk c1)) m)
  | None, Some c2 => set_status (Some "Completed (Bye)") (set_winner_id (Some (competitor_pk c2)) m)
  | _, _ => m
  end.

Fixpoint create_round1 (div_id : Z) (match_pairings : list pairing)
    (tbl : list Match) : list Z * list Match :=
  match match_pairings with
  | [] => ([], tbl)
  | pr :: rest =>
    let '(i, tbl) := add_match (round1_match div_id pr) tbl in
    let '(ids, tbl) := create_round1 div_id rest tbl in
    (i :: ids, tbl)
  end.

(** Round naming, from the size of the round that feeds the new one. *)
Definition r_name (len_current : nat) (round_num : nat) : string :=
  if (len_current =? 2)%nat then "Final"
  else if (len_current =? 4)%nat then "Semi-Final"
  else if (len_current =? 8)%nat then "Quarter-Final"
  else "Round " +:+ pretty round_num.

(** [prev_match.winner_id], read from the session object with key [p]. *)
Definition winner_of (p : Z) (tbl : list Match) : option Z :=
  get_match p tbl ≫= winner_id.

(** The body of [for i in range(0, len(current_round_matches), 2)] for the
    pair [prev_match1], [prev_match2]: create the next-round match, link both
    predecessors to it, and push the winners they already have. *)
Definition link_pair (div_id : Z) (name : string) (prev_match1 prev_match2 : Z)
    (tbl : list Match) : Z * list Match :=
  let '(new_id, tbl) := add_match (new_match div_id None None name) tbl in
  let tbl := update_match prev_match1 (set_next_match_id (Some new_id)) tbl in
  let tbl := update_match prev_match2 (set_next_match_id (Some new_id)) tbl in
  let tbl :=
    if truthy (winner_of prev_match1 tbl)
    then update_match new_id (set_competitor1_id (winner_of prev_match1 tbl)) tbl
    else tbl in
  let tbl :=
    if truthy (winner_of prev_match2 tbl)
    then update_match new_id (set_competitor2_id (winner_of prev_match2 tbl)) tbl
    else tbl in
  (new_id, tbl).

(** The [for] loop over what is left of the current round;
    [current_round_matches[i + 1]] raises when the round has an odd number
    of matches. *)
Fixpoint pair_round (div_id : Z) (len_current round_num : nat)
    (current : list Z) (tbl : list Match) : outcome (list Z * list Match) :=
  match current with
  | [] => Done ([], tbl)
  | [_] => Raised IndexError
  | prev_match1 :: prev_match2 :: rest =>
    let '(new_id, tbl) :=
      link_pair div_id (r_name len_current round_num) prev_match1 prev_match2 tbl in
    '(next, tbl) ←! pair_round div_id len_current round_num rest tbl;
    Done (new_id :: next, tbl)
  end.

(** Step 4, [while len(current_round_matches) > 1]; [bound] limits the
    number of turns the model takes. *)
Fixpoint build_rounds (bound : nat) (div_id : Z) (round_num : nat)
    (current : list Z) (tbl : list Match) : outcome (list Match) :=
  if (length current <=? 1)%nat then Done tbl
  else
    match bound with
    | O => Unfinished
    | S bound' =>
      '(next, tbl) ←! pair_round div_id (length current) round_num current tbl;
      build_rounds bound' div_id (S round_num) next tbl
    end.

(** The whole builder on the session's match table, given the shuffled
    competitors. *)
Definition build_bracket (div_id : Z) (shuffled : list Competitor)
    (tbl : list Match) : outcome (list Match) :=
  let num_comp := length shuffled in
  let next_power_of_2 := (2 ^ Nat.log2_up num_comp)%nat in
  let num_first_round_matches := (next_power_of_2 / 2)%nat in
  match_pairings ←! deal num_first_round_matches 0 shuffled
                         (replicate num_first_round_matches (None, None));
  let '(current, tbl) := create_round1 div_id match_pairings tbl in
  build_rounds (length current) div_id 2 current tbl.

(** [POST /divisions/<div_id>/generate_bracket]; [None] stands for a run
    cut off by the loop bound. *)
Definition generate_bracket_view (rnd : nat → nat) (div_id : Z)
    (t : Txn) : option (response * Txn) :=
  let competitors := competitors_of div_id (competitors (pending t)) in
  let num_comp := length competitors in
  if (num_comp <? 2)%nat then
    Some (BadRequest400 (JsonError "Need at least 2 competitors to generate a bracket."), t)
  else
    match build_bracket div_id (shuffle rnd competitors) (matches (pending t)) with
    | Done tbl =>
      Some (Ok200 (HtmlBracketGenerated num_comp div_id),
            commit (on_matches (λ _, tbl) t))
    | Raised e => Some (ServerError500 e, t)
    | Unfinished => None
    end.

Definition generate_bracket (rnd : nat → nat) (div_id : Z) (d : DB) : option (response * DB) :=
  '(r, t) ← generate_bracket_view rnd div_id (begin d); Some (r, stored t).


(** * The other routes

    The views below answer with HTML or with the context they hand to a
    template; the model gives the values that are interpolated (names,
    numbers, the rows listed), not the markup around them.  Strings are
    sequences of code points below 256. *)

(** What a view can raise: the exceptions above, and two more. *)
Inductive failure :=
| Known (e : exn)
| TypeError
| KeyError.

(** The answer of a view: a status code with what the body is made of, the
    404 of [get_or_404], or an exception that escapes (Flask answers 500). *)
Inductive reply (A : Type) :=
| Reply (code : Z) (a : A)
| Abort404
| Fails (f : failure).
Arguments Reply {A} code a.
Arguments Abort404 {A}.
Arguments Fails {A} f.

Definition request_as {A} (view : Txn → reply A * Txn) (d : DB) : reply A * DB :=
  let '(r, t) := view (begin d) in (r, stored t).

Fixpoint get_ring (i : Z) (tbl : list Ring) : option Ring :=
  match tbl with
  | [] => None
  | r :: tbl' => if (ring_pk r =? i)%Z then Some r else get_ring i tbl'
  end.

Definition set_ring_id (r : option Z) (m : Match) : Match :=
  mkMatch (id m) (division_id m) r (competitor1_id m) (competitor2_id m)
          (winner_id m) (next_match_id m) (match_number m) (status m) (round_name m).

Definition set_match_number (n : option Z) (m : Match) : Match :=
  mkMatch (id m) (division_id m) (ring_id m) (competitor1_id m) (competitor2_id m)
          (winner_id m) (next_match_id m) n (status m) (round_name m).

Definition with_rings (tbl : list Ring) (d : DB) : DB :=
  mkDB tbl (divisions d) (competitors d) (matches d).

Definition with_divisions (tbl : list Division) (d : DB) : DB :=
  mkDB (rings d) tbl (competitors d) (matches d).

Definition with_competitors (tbl : list Competitor) (d : DB) : DB :=
  mkDB (rings d) (divisions d) tbl (matches d).

Definition on_pending (f : DB → DB) (t : Txn) : Txn :=
  mkTxn (stored t) (f (pending t)).

(** The key of the next row of a table whose keys are [ks]. *)
Definition fresh_key (ks : list Z) : Z :=
  (foldr Z.max 0 ks + 1)%Z.

(** The relationships [Match.competitor1] and [Match.competitor2]: the row
    the foreign key names, [None] for NULL or for a key without a row. *)
Definition related_competitor (tbl : list Competitor) (c : option Z)
    : option Competitor :=
  c ≫= λ i, get_competitor i tbl.

(** [x.name if x else "TBD"] *)
Definition name_or_tbd (c : option Competitor) : string :=
  match c with
  | Some c => competitor_name c
  | None => "TBD"
  end.

(** ** Scheduling: [schedule_match_htmx] *)

(** Truthiness of [request.form.get(...)]: a missing field and the empty
    string are falsy. *)
Definition field_given (v : form_int) : bool :=
  match v with
  | FieldMissing | FieldBlank => false
  | FieldNotInt | FieldInt _ => true
  end.

(** [int(v)] *)
Definition int_of (v : form_int) : failure + Z :=
  match v with
  | FieldMissing => inl TypeError
  | FieldBlank | FieldNotInt => inl (Known ValueError)
  | FieldInt z => inr z
  end.

(** What the match card shows. *)
Record MatchCard := mkMatchCard {
  card_match : Z;
  card_chung : string;
  card_hong : string;
  card_scheduled : option Z;          (* [None]: "Unassigned" *)
  card_rings : list (Z * string * bool);  (* key, name, selected *)
  card_sequence : Z
}.

(** [PUT /matches/<match_id>/schedule] with form data. *)
Definition schedule_match_htmx_view (match_id : Z) (ring : form_int)
    (ring_sequence : form_int) (t : Txn) : reply MatchCard * Txn :=
  match get_match match_id (matches (pending t)) with
  | None => (Abort404, t)
  | Some m =>
    let assigned : failure * Txn + Match * Txn :=
      if field_given ring && field_given ring_sequence then
        match int_of ring with
        | inl e => inl (e, t)
        | inr r =>
          let m := set_ring_id (Some r) m in
          let t := on_matches (update_match match_id (set_ring_id (Some r))) t in
          match int_of ring_sequence with
          | inl e => inl (e, t)
          | inr q =>
            let n := (r * 100 + q)%Z in
            inr (set_match_number (Some n) m,
                 commit (on_matches
                           (update_match match_id (set_match_number (Some n))) t))
          end
        end
      else inr (m, t) in
    match assigned with
    | inl (e, t) => (Fails e, t)
    | inr (m, t) =>
      let d := pending t in
      let ring_options :=
        map (λ r, (ring_pk r, ring_name r,
                   bool_decide (Some (ring_pk r) = ring_id m))) (rings d) in
      match int_of ring_sequence with
      | inl e => (Fails e, t)
      | inr q =>
        (Reply 200
           (mkMatchCard (id m)
              (name_or_tbd (related_competitor (competitors d) (competitor1_id m)))
              (name_or_tbd (related_competitor (competitors d) (competitor2_id m)))
              (if truthy (match_number m) then match_number m else None)
              ring_options q), t)
      end
    end
  end.

Definition schedule_match_htmx (match_id : Z) (ring ring_sequence : form_int)
    : DB → reply MatchCard * DB :=
  request_as (schedule_match_htmx_view match_id ring ring_sequence).

(** ** Score keeping: [ring_scorekeeper] *)

(** [Match.status.in_(["Pending", "In Progress"])]; a NULL status is in no
    list. *)
Definition is_upcoming_status (s : option string) : bool :=
  match s with
  | Some s => bool_decide (s = "Pending") || bool_decide (s = "In Progress")
  | None => false
  end.

(** [ORDER BY match_number]: ascending, NULL before every number. *)
Definition number_le (a b : option Z) : Prop :=
  match a, b with
  | None, _ => True
  | Some _, None => False
  | Some x, Some y => (x ≤ y)%Z
  end.

#[global] Instance number_le_dec a b : Decision (number_le a b).
Proof. destruct a, b; simpl; apply _. Defined.

Definition by_match_number (m1 m2 : Match) : Prop :=
  number_le (match_number m1) (match_number m2).

#[global] Instance by_match_number_dec m1 m2 : Decision (by_match_number m1 m2).
Proof. unfold by_match_number. apply _. Defined.

(** The query of the score keeper's page.  SQL leaves the order of rows
    with equal match numbers open; the model keeps one of the orders. *)
Definition scorekeeper_matches (ring : Z) (tbl : list Match) : list Match :=
  merge_sort by_match_number
    (filter (λ m, ring_id m = Some ring
                  ∧ is_upcoming_status (status m) = true
                  ∧ competitor1_id m ≠ None ∧ competitor2_id m ≠ None) tbl).

(** [GET /ring/<ring_id>/scorekeeper]: the ring and the matches handed to
    the template. *)
Definition ring_scorekeeper (ring : Z) (d : DB) : reply (Ring * list Match) :=
  match get_ring ring (rings d) with
  | None => Abort404
  | Some r => Reply 200 (r, scorekeeper_matches (ring_pk r) (matches d))
  end.

(** ** Rings: [manage_rings], [ui_add_ring], [ui_rings_list], [ui_delete_ring] *)

(** A key of a JSON body: absent, [null], or a string. *)
Inductive json_field :=
| Absent
| Null
| Str (s : string).

(** [db.session.add(Ring(name=name))] and the flush of [commit()]: the new
    row gets the next key. *)
Definition add_ring (name : string) (d : DB) : Z * DB :=
  let i := fresh_key (map ring_pk (rings d)) in
  (i, with_rings (rings d ++ [mkRing i name]) d).

(** [POST /rings]: the key of the new ring, answered with 201.  Without the
    key ["name"] the subscript raises; with [null] the [nullable=False]
    column refuses the row at the flush. *)
Definition manage_rings_post_view (name : json_field) (t : Txn) : reply Z * Txn :=
  match name with
  | Absent => (Fails KeyError, t)
  | Null => (Fails (Known IntegrityError), t)
  | Str s =>
    let '(i, d) := add_ring s (pending t) in
    (Reply 201 i, commit (mkTxn (stored t) d))
  end.

Definition manage_rings_post (name : json_field) : DB → reply Z * DB :=
  request_as (manage_rings_post_view name).

(** [GET /rings] *)
Definition manage_rings_get (d : DB) : reply (list (Z * string)) :=
  Reply 200 (map (λ r, (ring_pk r, ring_name r)) (rings d)).

(** [POST /ui/rings]: name and key of the new ring, as the list item shows
    them; a form without the field gives [None] as name. *)
Definition ui_add_ring_view (name : option string) (t : Txn)
    : reply (string * Z) * Txn :=
  match name with
  | None => (Fails (Known IntegrityError), t)
  | Some s =>
    let '(i, d) := add_ring s (pending t) in
    (Reply 200 (s, i), commit (mkTxn (stored t) d))
  end.

Definition ui_add_ring (name : option string) : DB → reply (string * Z) * DB :=
  request_as (ui_add_ring_view name).

(** [GET /ui/rings_list]: one item per ring, with its name and key. *)
Definition ui_rings_list (d : DB) : reply (list (string * Z)) :=
  Reply 200 (map (λ r, (ring_name r, ring_pk r)) (rings d)).

(** [db.session.delete(ring)] and the flush of [commit()].  [Ring.matches]
    is declared without a delete cascade, so the unit of work writes NULL
    into [ring_id] of the ring's matches (the column is nullable) and then
    deletes the ring row. *)
Definition session_delete_ring (ring : Z) (d : DB) : DB :=
  mkDB (filter (λ r, ring_pk r ≠ ring) (rings d)) (divisions d) (competitors d)
       (map (λ m, if bool_decide (ring_id m = Some ring)
                  then set_ring_id None m else m) (matches d)).

(** [DELETE /ui/rings/<ring_id>] *)
Definition ui_delete_ring_view (ring : Z) (t : Txn) : reply unit * Txn :=
  match get_ring ring (rings (pending t)) with
  | None => (Abort404, t)
  | Some _ => (Reply 200 (), commit (on_pending (session_delete_ring ring) t))
  end.

Definition ui_delete_ring (ring : Z) : DB → reply unit * DB :=
  request_as (ui_delete_ring_view ring).

(** ** Renaming a division: [edit_division] (PUT) *)

Definition rename_division (div_id : Z) (name : string) (tbl : list Division)
    : list Division :=
  map (λ d, if (division_pk d =? div_id)%Z then mkDivision (division_pk d) name
            else d) tbl.

(** [PUT /divisions/<div_id>]: [data.get("name", division.name)] is the old
    name when the key is absent, so nothing changes; [null] is assigned and
    refused by the [nullable=False] column at the flush. *)
Definition edit_division_put_view (div_id : Z) (name : json_field) (t : Txn)
    : reply string * Txn :=
  match get_division div_id (divisions (pending t)) with
  | None => (Abort404, t)
  | Some division =>
    match name with
    | Null => (Fails (Known IntegrityError), t)
    | Absent => (Reply 200 "Division updated", commit t)
    | Str s =>
      (Reply 200 "Division updated",
       commit (on_pending (λ d, with_divisions
                 (rename_division div_id s (divisions d)) d) t))
    end
  end.

Definition edit_division_put (div_id : Z) (name : json_field)
    : DB → reply string * DB :=
  request_as (edit_division_put_view div_id name).

(** ** Competitors: [ui_add_competitors] *)

(** [str.isspace] of one character. *)
Definition is_space (a : Ascii.ascii) : bool :=
  let n := Ascii.nat_of_ascii a in
  ((9 <=? n) && (n <=? 13) || (28 <=? n) && (n <=? 32)
   || (n =? 133) || (n =? 160))%nat.

Definition newline : Ascii.ascii := Ascii.ascii_of_nat 10.

(** [s.split(sep)] for a separator of one character. *)
Fixpoint split_on (sep : Ascii.ascii) (s : list Ascii.ascii) : list (list Ascii.ascii) :=
  match s with
  | [] => [[]]
  | a :: s' =>
    if decide (a = sep) then [] :: split_on sep s'
    else
      match split_on sep s' with
      | cur :: rest => (a :: cur) :: rest
      | [] => [[a]]
      end
  end.

Fixpoint lstrip (s : list Ascii.ascii) : list Ascii.ascii :=
  match s with
  | [] => []
  | a :: s' => if is_space a then lstrip s' else s
  end.

(** [s.strip()] *)
Definition strip (s : list Ascii.ascii) : list Ascii.ascii :=
  reverse (lstrip (reverse (lstrip s))).

(** [[name.strip() for name in names_text.split("\n") if name.strip()]] *)
Definition name_list (names_text : string) : list string :=
  omap (λ name, match strip name with
                | [] => None
                | a :: s => Some (String.string_of_list_ascii (a :: s))
                end)
       (split_on newline (String.list_ascii_of_string names_text)).

(** [db.session.add(Competitor(name=name, division_id=div_id))] for each
    name, flushed together: keys in the order of the names. *)
Fixpoint add_competitors (div_id : Z) (names : list string)
    (tbl : list Competitor) : list Competitor :=
  match names with
  | [] => tbl
  | name :: names' =>
    add_competitors div_id names'
      (tbl ++ [mkCompetitor (fresh_key (map competitor_pk tbl)) name div_id])
  end.

(** [POST /ui/divisions/<div_id>/competitors]: the names in the list items
    of the answer. *)
Definition ui_add_competitors_view (div_id : Z) (names_text : option string)
    (t : Txn) : reply (list string) * Txn :=
  let t :=
    match names_text with
    | None | Some "" => t
    | Some text =>
      commit (on_pending (λ d, with_competitors
                (add_competitors div_id (name_list text) (competitors d)) d) t)
    end in
  (Reply 200 (map competitor_name
                (competitors_of div_id (competitors (pending t)))), t).

Definition ui_add_competitors (div_id : Z) (names_text : option string)
    : DB → reply (list string) * DB :=
  request_as (ui_add_competitors_view div_id names_text).

(** ** Rounds of a bracket: [get_bracket_ui] and [manage_bracket_page] *)

(** [grouped_matches[k].append(x)] on a [defaultdict(list)]: a new key goes
    to the end, an old key keeps its place. *)
Fixpoint group_append {A} (k : option string) (x : A)
    (g : list (option string * list A)) : list (option string * list A) :=
  match g with
  | [] => [(k, [x])]
  | (k', xs) :: g' =>
    if decide (k' = k) then (k', xs ++ [x]) :: g'
    else (k', xs) :: group_append k x g'
  end.

Definition group_by_round {A} (round : A → option string) (xs : list A)
    : list (option string * list A) :=
  foldl (λ g x, group_append (round x) x g) [] xs.

(** [Competitor.query.get(i).name if i else "TBD"] *)
Definition slot_name (tbl : list Competitor) (c : option Z) : failure + string :=
  if truthy c then
    match c ≫= λ i, get_competitor i tbl with
    | Some comp => inr (competitor_name comp)
    | None => inl (Known AttributeError)
    end
  else inr "TBD".

(** The loop of [get_bracket_ui] over the matches, up to the grouping. *)
Fixpoint named_matches (tbl : list Competitor) (ms : list Match)
    : failure + list (Match * string * string) :=
  match ms with
  | [] => inr []
  | m :: ms' =>
    match slot_name tbl (competitor1_id m) with
    | inl e => inl e
    | inr n1 =>
      match slot_name tbl (competitor2_id m) with
      | inl e => inl e
      | inr n2 =>
        match named_matches tbl ms' with
        | inl e => inl e
        | inr rest => inr ((m, n1, n2) :: rest)
        end
      end
    end
  end.

(** [GET /divisions/<div_id>/bracket_ui]: [None] with 404 for the paragraph
    "No bracket generated yet.", else the rounds handed to the template. *)
Definition get_bracket_ui (div_id : Z) (d : DB)
    : reply (option (list (option string * list (Match * string * string)))) :=
  match matches_of div_id (matches d) with
  | [] => Reply 404 None
  | ms =>
    match named_matches (competitors d) ms with
    | inl e => Fails e
    | inr named => Reply 200 (Some (group_by_round (λ x, round_name x.1.1) named))
    end
  end.

(** [GET /admin/divisions/<div_id>/bracket_manage]: division, rounds and
    rings handed to the template. *)
Definition manage_bracket_page (div_id : Z) (d : DB)
    : reply (Division * list (option string * list Match) * list Ring) :=
  match get_division div_id (divisions d) with
  | None => Abort404
  | Some division =>
    Reply 200 (division,
               group_by_round round_name (matches_of div_id (matches d)),
               rings d)
  end.

(** ** Public view of the rings: [ui_public_rings] *)

(** [s.split()]: the maximal runs of characters that are not spaces. *)
Fixpoint split_words (cur : list Ascii.ascii) (s : list Ascii.ascii) : list (list Ascii.ascii) :=
  match s with
  | [] => match cur with [] => [] | _ => [reverse cur] end
  | a :: s' =>
    if is_space a then
      match cur with
      | [] => split_words [] s'
      | _ => reverse cur :: split_words [] s'
      end
    else split_words (a :: cur) s'
  end.

(** [f"{name.split()[0][0]}. {name.split()[-1]}"] *)
Definition short_name (name : string) : failure + string :=
  let ws := split_words [] (String.list_ascii_of_string name) in
  match ws with
  | [] => inl (Known IndexError)
  | w :: _ =>
    match w, last ws with
    | a :: _, Some l =>
      inr (String.String a (". " +:+ String.string_of_list_ascii l))
    | _, _ => inl (Known IndexError)
    end
  end.

(** [short_name(x.name) if x else "TBD"] *)
Definition short_or_tbd (c : option Competitor) : failure + string :=
  match c with
  | Some c => short_name (competitor_name c)
  | None => inr "TBD"
  end.

Fixpoint public_matches (tbl : list Competitor) (ms : list Match)
    : failure + list (Match * string * string) :=
  match ms with
  | [] => inr []
  | m :: ms' =>
    match short_or_tbd (related_competitor tbl (competitor1_id m)) with
    | inl e => inl e
    | inr c1 =>
      match short_or_tbd (related_competitor tbl (competitor2_id m)) with
      | inl e => inl e
      | inr c2 =>
        match public_matches tbl ms' with
        | inl e => inl e
        | inr rest => inr ((m, c1, c2) :: rest)
        end
      end
    end
  end.

Fixpoint public_rings (d : DB) (rs : list Ring)
    : failure + list (string * list (Match * string * string)) :=
  match rs with
  | [] => inr []
  | r :: rs' =>
    match public_matches (competitors d)
            (filter (λ m, ring_id m = Some (ring_pk r)
                          ∧ is_upcoming_status (status m) = true) (matches d)) with
    | inl e => inl e
    | inr ms =>
      match public_rings d rs' with
      | inl e => inl e
      | inr rest => inr ((ring_name r, ms) :: rest)
      end
    end
  end.

(** [GET /ui/public_rings]: per ring, its name and its pending or running
    matches with the two short names. *)
Definition ui_public_rings (d : DB)
    : reply (list (string * list (Match * string * string))) :=
  match public_rings d (rings d) with
  | inl e => Fails e
  | inr rings => Reply 200 rings
  end.
(** * Vocabulary of the statements *)

(** The slots of the match with key [j], as the stored table has them. *)
Definition slots_at (j : Z) (d : DB) : option (option Z * option Z) :=
  (λ m, (competitor1_id m, competitor2_id m)) <$> get_match j (matches d).

(** What "the winner [w] advances into [next]" means between the database
    before and after a request. *)
Definition advanced_into (w : Z) (next : Match) (d d' : DB) : Prop :=
  (truthy (competitor1_id next) = false →
     slots_at (id next) d' = Some (Some w, competitor2_id next)) ∧
  (truthy (competitor1_id next) = true → truthy (competitor2_id next) = false →
     slots_at (id next) d' = Some (competitor1_id next, Some w)) ∧
  (truthy (competitor1_id next) = true → truthy (competitor2_id next) = true →
     ∀ j, slots_at j d' = slots_at j d).


(** Winner and status of the match with key [j]. *)
Definition result_at (j : Z) (d : DB) : option (option Z * option string) :=
  (λ m, (winner_id m, status m)) <$> get_match j (matches d).

(** The three states in which a match has its winner. *)
Definition is_terminal_status (s : option string) : bool :=
  is_decided_status s || bool_decide (s = Some "Completed (Bye)").

(** "Terminal states never revert" between two databases: a match that had
    a winner and a terminal status keeps that winner and a terminal status. *)
Definition never_reverts (d d' : DB) : Prop :=
  ∀ j m, get_match j (matches d) = Some m →
    truthy (winner_id m) = true → is_terminal_status (status m) = true →
    ∃ m', get_match j (matches d') = Some m' ∧
          winner_id m' = winner_id m ∧ is_terminal_status (status m') = true.

(** ** Integers that SQLite takes *)

(** A Python integer fits an INTEGER column, and can be bound to a query, when
    it is a signed 64-bit number; the driver refuses any other with
    [OverflowError], which no view handles and which the model leaves out.
    Statements about a key or a number that a request submits say that it
    is in this range. *)
Definition sqlite_int (z : Z) : Prop := (- 2 ^ 63 ≤ z < 2 ^ 63)%Z.

#[global] Instance sqlite_int_dec z : Decision (sqlite_int z).
Proof. unfold sqlite_int. apply _. Defined.

(** The same for a JSON value that may be absent. *)
Definition sqlite_opt (w : option Z) : Prop :=
  match w with
  | Some z => sqlite_int z
  | None => True
  end.

(** The next-match link of [m] can be followed: it is null or [0], or it
    names a stored match. *)
Definition next_reachable (m : Match) (d : DB) : Prop :=
  truthy (next_match_id m) = true →
  is_Some (next_match_id m ≫= λ n, get_match n (matches d)).

#[global] Instance next_reachable_dec m d : Decision (next_reachable m d).
Proof. unfold next_reachable. apply _. Defined.

(** ** Sample databases *)

Definition alice : Competitor := mkCompetitor 1 "Alice" 1.
Definition bob : Competitor := mkCompetitor 2 "Bob" 1.
Definition cara : Competitor := mkCompetitor 3 "Cara" 1.
Definition dee : Competitor := mkCompetitor 4 "Dee" 1.
Definition eve : Competitor := mkCompetitor 5 "Eve" 1.

(** One division with its competitors and no bracket yet. *)
Definition roster (cs : list Competitor) : DB :=
  mkDB [] [mkDivision 1 "Sparring"] cs [].

(** The bracket of a four-competitor division: two first-round matches
    feeding match 3. *)
Definition bracket_four : DB :=
  mkDB [] [mkDivision 1 "Sparring"] [alice; bob; cara; dee]
    [ mkMatch 1 1 None (Some 1%Z) (Some 3%Z) None (Some 3%Z) None (Some "Pending") (Some "Round 1");
      mkMatch 2 1 None (Some 2%Z) (Some 4%Z) None (Some 3%Z) None (Some "Pending") (Some "Round 1");
      mkMatch 3 1 None None None None None None (Some "Pending") (Some "Final") ].

(** The same bracket once both first-round results are in. *)
Definition bracket_four_final_set : DB :=
  mkDB [] [mkDivision 1 "Sparring"] [alice; bob; cara; dee]
    [ mkMatch 1 1 None (Some 1%Z) (Some 3%Z) (Some 1%Z) (Some 3%Z) None (Some "Completed") (Some "Round 1");
      mkMatch 2 1 None (Some 2%Z) (Some 4%Z) (Some 4%Z) (Some 3%Z) None (Some "Completed") (Some "Round 1");
      mkMatch 3 1 None (Some 1%Z) (Some 4%Z) None None None (Some "Pending") (Some "Final") ].

(** The four-competitor bracket with two rings: match 1 is number 25 of
    ring 5, match 2 is number 1 of ring 6, the final is not scheduled. *)
Definition bracket_four_scheduled : DB :=
  mkDB [mkRing 5 "Ring 5"; mkRing 6 "Ring 6"] [mkDivision 1 "Sparring"]
    [alice; bob; cara; dee]
    [ mkMatch 1 1 (Some 5%Z) (Some 1%Z) (Some 3%Z) None (Some 3%Z) (Some 525%Z)
        (Some "Pending") (Some "Round 1");
      mkMatch 2 1 (Some 6%Z) (Some 2%Z) (Some 4%Z) None (Some 3%Z) (Some 601%Z)
        (Some "Pending") (Some "Round 1");
      mkMatch 3 1 None None None None None None (Some "Pending") (Some "Final") ].

(** The scheduled bracket beside a second division with two competitors
    and their match. *)
Definition two_divisions : DB :=
  mkDB (rings bracket_four_scheduled)
    [mkDivision 1 "Sparring"; mkDivision 2 "Forms"]
    (competitors bracket_four_scheduled
     ++ [mkCompetitor 5 "Eve Moss" 2; mkCompetitor 6 "Fay" 2])
    (matches bracket_four_scheduled
     ++ [mkMatch 4 2 (Some 5%Z) (Some 5%Z) (Some 6%Z) None None (Some 502%Z)
           (Some "In Progress") (Some "Round 1")]).

(** ** Reading the JSON of the bracket *)

(** Display data of a competitor: its id and its name. *)
Definition display (c : Competitor) : json :=
  JObj [("id", JInt (competitor_pk c)); ("name", JStr (competitor_name c))].

Fixpoint assoc (k : string) (fs : list (string * json)) : option json :=
  match fs with
  | [] => None
  | (k', v) :: fs' => if bool_decide (k' = k) then Some v else assoc k fs'
  end.

(** The value an object holds under key [k]. *)
Definition field (k : string) (j : json) : option json :=
  match j with
  | JObj fs => assoc k fs
  | _ => None
  end.

(** [e] is the entry of match [m]: what each of its keys holds. *)
Definition entry_for (tbl : list Competitor) (m : Match) (e : json) : Prop :=
  field "match_id" e = Some (JInt (id m))
  ∧ field "round_name" e = Some (json_opt_str (round_name m))
  ∧ field "status" e = Some (json_opt_str (status m))
  ∧ field "ring_id" e = Some (json_opt_int (ring_id m))
  ∧ field "next_match_id" e = Some (json_opt_int (next_match_id m))
  ∧ (∀ i c, competitor1_id m = Some i → i ≠ 0%Z → get_competitor i tbl = Some c →
       field "competitor1" e = Some (display c))
  ∧ (∀ i c, competitor2_id m = Some i → i ≠ 0%Z → get_competitor i tbl = Some c →
       field "competitor2" e = Some (display c))
  ∧ field "winner_id" e = Some (json_opt_int (winner_id m)).

(** The entry [e] carries the display data of the winner [c] somewhere else
    than in the two slot fields. *)
Definition winner_displayed (c : Competitor) (e : json) : Prop :=
  ∃ k, k ≠ "competitor1" ∧ k ≠ "competitor2" ∧ field k e = Some (display c).

(** ** Shape of a generated bracket *)

(** The pairings once the competitors [x] have been dealt into [n] matches:
    pairing [j] holds [x[j]] and [x[n + j]]. *)
Definition dealt (n : nat) (x : list Competitor) : list pairing :=
  map (λ j, (x !! j, x !! (n + j)%nat)) (seq 0 n).

(** Two rows that differ at most in [next_match_id]. *)
Definition same_but_next (m m' : Match) : Prop :=
  set_next_match_id None m' = set_next_match_id None m.

(** A row of a round after the first, as the builder creates it. *)
Definition later_round_row (div_id : Z) (m : Match) : Prop :=
  division_id m = div_id ∧ status m = Some "Pending" ∧ winner_id m = None
  ∧ ∃ len rn, (2 ≤ rn)%nat ∧ round_name m = Some (r_name len rn).

(** [tbl'] is [tbl] with [k] later-round rows appended and next-match links
    rewritten. *)
Definition extends (div_id : Z) (k : nat) (tbl tbl' : list Match) : Prop :=
  ∃ pre later, tbl' = pre ++ later ∧ Forall2 same_but_next tbl pre
    ∧ Forall (later_round_row div_id) later ∧ length later = k.

(** The rows that a request added to the match table. *)
Definition created (d d' : DB) : list Match :=
  drop (length (matches d)) (matches d').

(** The competitor in the only occupied slot, if exactly one is occupied. *)
Definition lone_occupant (m : Match) : option Z :=
  match competitor1_id m, competitor2_id m with
  | Some c, None | None, Some c => Some c
  | _, _ => None
  end.

(** The row of a later round with key [n], whatever its slots and link. *)
Definition fresh_row (div_id : Z) (name : string) (n : Z) (m : Match) : Prop :=
  id m = n ∧ division_id m = div_id ∧ status m = Some "Pending"
  ∧ winner_id m = None ∧ round_name m = Some name.

(** [t] is [tbl], up to next-match links, followed by the new row [n]. *)
Definition linked (div_id : Z) (name : string) (n : Z) (tbl t : list Match) : Prop :=
  ∃ pre row, t = pre ++ [row] ∧ Forall2 same_but_next tbl pre
    ∧ Forall (λ m, id m ≠ n) pre ∧ fresh_row div_id name n row.

(** Row [m] is the first-round match of pairing [j] when the shuffled
    competitors [x] are dealt into [n] matches, up to its next-match link. *)
Definition round1_row (div_id : Z) (x : list Competitor) (n j : nat) (m : Match) : Prop :=
  same_but_next
    (insert_defaults (round1_match div_id (x !! j, x !! (n + j)%nat) (id m))) m.

(** The match table after the builder ran on the shuffled competitors [x]:
    the old rows, one first-round row per pairing, and the rows of the later
    rounds. *)
Definition bracket_shape (div_id : Z) (x : list Competitor)
    (tbl tbl' : list Match) : Prop :=
  let n := (2 ^ Nat.log2_up (length x) / 2)%nat in
  ∃ old rows later,
    tbl' = old ++ rows ++ later
    ∧ Forall2 same_but_next tbl old
    ∧ Forall2 (round1_row div_id x n) (seq 0 n) rows
    ∧ Forall (later_round_row div_id) later
    ∧ length later = (n - 1)%nat.

(** A bye of the first round. *)
Definition round1_bye (m : Match) : Prop :=
  round_name m = Some "Round 1" ∧ status m = Some "Completed (Bye)".

#[global] Instance round1_bye_dec m : Decision (round1_bye m).
Proof. unfold round1_bye. apply _. Defined.

(** ** The created rows in closed form *)

(** What [if prev_match.winner_id: new_match.competitorN_id = ...] leaves in
    the slot of a new row: the winner when there is one, else nothing. *)
Definition pushed (w : option Z) : option Z :=
  if truthy w then w else None.

(** The keys [f + a], ..., [f + a + k - 1]. *)
Definition keys (f : Z) (a k : nat) : list Z :=
  map (λ i, (f + Z.of_nat i)%Z) (seq a k).

(** The rows [C] created so far carry the keys [f], [f + 1], ... in order. *)
Definition consecutive (f : Z) (C : list Match) : Prop :=
  ∀ p m, C !! p = Some m → id m = (f + Z.of_nat p)%Z.

(** The row of a later round, with the winners its two feeders had when it
    was created. *)
Definition later_row (div_id : Z) (name : string) (i : Z) (w1 w2 : option Z) : Match :=
  mkMatch i div_id None (pushed w1) (pushed w2) None None None
          (Some "Pending") (Some name).

(** One turn of the pairing loop on the created rows: rows [a] and [a + 1]
    are linked to the new row, which is appended. *)
Definition link_step (div_id : Z) (name : string) (f : Z) (a : nat)
    (C : list Match) : list Match :=
  let new_id := (f + Z.of_nat (length C))%Z in
  alter (set_next_match_id (Some new_id)) (S a)
    (alter (set_next_match_id (Some new_id)) a C)
  ++ [later_row div_id name new_id (C !! a ≫= winner_id) (C !! S a ≫= winner_id)].

(** [r] turns of the pairing loop, starting with rows [a] and [a + 1]. *)
Fixpoint grow (div_id : Z) (name : string) (f : Z) (C : list Match)
    (a r : nat) : list Match :=
  match r with
  | O => C
  | S r' => grow div_id name f (link_step div_id name f a C) (a + 2) r'
  end.

(** The rounds that follow a round of [2 ^ j] rows starting at row [s]. *)
Fixpoint rounds (div_id : Z) (f : Z) (j rn : nat) (C : list Match)
    (s : nat) : list Match :=
  match j with
  | O => C
  | S j' =>
    rounds div_id f j' (S rn)
      (grow div_id (r_name (2 ^ S j') rn) f C s (2 ^ j')) (s + 2 ^ S j')
  end.

(** The first-round rows of the pairings [ps], keyed from [f] on. *)
Definition round1_rows (div_id : Z) (f : Z) (ps : list pairing) : list Match :=
  imap (λ j pr, insert_defaults (round1_match div_id pr (f + Z.of_nat j)%Z)) ps.

(** Follow [next_match_id] links [hops] times, starting from key [i]. *)
Fixpoint follow (tbl : list Match) (hops : nat) (i : Z) : option Z :=
  match hops with
  | O => Some i
  | S h => (get_match i tbl ≫= next_match_id) ≫= follow tbl h
  end.

(** The competitors seated in the slots of the rows [ms], row by row. *)
Definition seated (ms : list Match) : list Z :=
  ms ≫= λ m, option_list (competitor1_id m) ++ option_list (competitor2_id m).

(** ** What a result request leaves alone *)

(** The columns of a match that recording a result never writes. *)
Definition fixed_columns (m : Match)
    : Z * Z * option Z * option Z * option Z * option string :=
  (id m, division_id m, ring_id m, next_match_id m, match_number m, round_name m).

(** Two databases that differ at most in the result columns (status,
    winner, slots) of their matches. *)
Definition same_frame (d d' : DB) : Prop :=
  rings d' = rings d ∧ divisions d' = divisions d ∧ competitors d' = competitors d
  ∧ map fixed_columns (matches d') = map fixed_columns (matches d).

Definition txn_frame (d : DB) (t : Txn) : Prop :=
  same_frame d (stored t) ∧ same_frame d (pending t).

(** The JSON route's condition for answering 200. *)
Definition result_accepted (i : Z) (s : option string) (w : option Z) (d : DB) : Prop :=
  ∃ m, get_match i (matches d) = Some m
       ∧ is_decided_status s = true ∧ truthy w = true
       ∧ (truthy (next_match_id m) = true →
          is_Some (next_match_id m ≫= λ n, get_match n (matches d))).


(** ** Scheduling and score keeping *)

(** A match the score keeper of ring [r] is shown: on that ring, pending or
    running, with both competitors known. *)
Definition ready_on (r : Z) (m : Match) : Prop :=
  ring_id m = Some r ∧ is_upcoming_status (status m) = true
  ∧ competitor1_id m ≠ None ∧ competitor2_id m ≠ None.

(** The match as it is after scheduling it as number [q] of ring [r]. *)
Definition scheduled_as (r q : Z) (m : Match) : Match :=
  set_match_number (Some (r * 100 + q)%Z) (set_ring_id (Some r) m).

#[global] Instance ready_on_dec r m : Decision (ready_on r m).
Proof. unfold ready_on. apply _. Defined.

(** Every row with key [i] carries status [s]. *)
Definition status_of_key (i : Z) (s : option string) (tbl : list Match) : Prop :=
  Forall (λ m, id m = i → status m = s) tbl.

(** A row that was never scheduled. *)
Definition unscheduled (m : Match) : Prop :=
  ring_id m = None ∧ match_number m = None.

(** ** Names *)

(** A name as the text area yields it: not empty, without a line break, and
    with no space at either end. *)
Definition clean_name (s : string) : Prop :=
  let l := String.list_ascii_of_string s in
  l ≠ [] ∧ (newline ∉ l)
  ∧ (∀ a, head l = Some a → is_space a = false)
  ∧ (∀ a, last l = Some a → is_space a = false).

(** The names a request submits; a form without the field submits none. *)
Definition submitted_names (names_text : option string) : list string :=
  match names_text with
  | Some text => name_list text
  | None => []
  end.

(** ** Rounds *)

(** The distinct elements of [ks] in the order in which they first occur. *)
Definition first_seen {K} `{EqDecision K} (ks : list K) : list K :=
  reverse (remove_dups (reverse ks)).

(** A slot that names a competitor who is not stored. *)
Definition dangling (tbl : list Competitor) (c : option Z) : Prop :=
  truthy c = true ∧ related_competitor tbl c = None.

#[global] Instance dangling_dec tbl c : Decision (dangling tbl c).
Proof. unfold dangling. apply _. Defined.

(** Every stored competitor has a clean name. *)
Definition names_clean (d : DB) : Prop :=
  Forall (λ c, clean_name (competitor_name c)) (competitors d).

(** The matches the public view shows under ring [r]. *)
Definition shown_on (d : DB) (r : Ring) : list Match :=
  filter (λ m, ring_id m = Some (ring_pk r) ∧ is_upcoming_status (status m) = true)
         (matches d).
(** * Properties *)

(** ** Look-up and update of rows *)

Section rows.
Implicit Types (tbl : list Match) (m : Match) (i j : Z).

Lemma update_match_length i f tbl : length (update_match i f tbl) = length tbl.
Proof. apply length_map. Qed.

Lemma update_match_app i f tbl1 tbl2 :
  update_match i f (tbl1 ++ tbl2) = update_match i f tbl1 ++ update_match i f tbl2.
Proof. apply map_app. Qed.

Lemma get_match_update_match i j f tbl :
  (∀ m, id (f m) = id m) →
  get_match j (update_match i f tbl)
  = if (j =? i)%Z then f <$> get_match j tbl else get_match j tbl.
Proof.
  intros Hid. induction tbl as [|m tbl IH]; simpl.
  - by destruct (j =? i)%Z.
  - destruct (id m =? i)%Z eqn:Hi.
    + rewrite Hid. destruct (id m =? j)%Z eqn:Hj.
      * assert ((j =? i)%Z = true) as -> by lia. done.
      * done.
    + destruct (id m =? j)%Z eqn:Hj; [|done].
      by assert ((j =? i)%Z = false) as -> by lia.
Qed.

Lemma get_match_id i tbl m : get_match i tbl = Some m → id m = i.
Proof.
  induction tbl as [|m' tbl IH]; simpl; [done|].
  destruct (id m' =? i)%Z eqn:E; [|done]. intros [= <-]. lia.
Qed.

Lemma update_match_fresh i f tbl :
  Forall (λ m, id m ≠ i) tbl → update_match i f tbl = tbl.
Proof.
  induction 1 as [|m tbl Hm _ IH]; simpl; [done|].
  rewrite IH. by assert ((id m =? i)%Z = false) as -> by lia.
Qed.
End rows.

(** ** Advancement engine *)

Lemma truthy_Some w : w ≠ 0%Z → truthy (Some w) = true.
Proof. intros. simpl. apply negb_true_iff. lia. Qed.

Lemma slots_at_update_status_winner j i s w tbl d :
  slots_at j (with_matches
    (update_match i (set_winner_id w) (update_match i (set_status s) tbl)) d)
  = slots_at j (with_matches tbl d).
Proof.
  unfold slots_at. simpl. rewrite !get_match_update_match by done.
  destruct (j =? i)%Z; [|done]. by destruct (get_match j tbl).
Qed.

Lemma slots_at_fill1 n c tbl nx d :
  get_match n tbl = Some nx →
  slots_at n (with_matches (update_match n (set_competitor1_id c) tbl) d)
  = Some (c, competitor2_id nx).
Proof.
  intros H. unfold slots_at. simpl.
  by rewrite get_match_update_match, Z.eqb_refl, H.
Qed.

Lemma slots_at_fill2 n c tbl nx d :
  get_match n tbl = Some nx →
  slots_at n (with_matches (update_match n (set_competitor2_id c) tbl) d)
  = Some (competitor1_id nx, c).
Proof.
  intros H. unfold slots_at. simpl.
  by rewrite get_match_update_match, Z.eqb_refl, H.
Qed.

(** The effect of the advancement block on a session whose target match
    already carries the new status and winner. *)
Lemma advance_winner_spec (m next : Match) (i n w : Z) (s : option string) (d : DB) :
  next_match_id m = Some n → n ≠ 0%Z →
  get_match n (matches d) = Some next →
  let t := on_matches (update_match i (set_winner_id (Some w)))
             (on_matches (update_match i (set_status s)) (begin d)) in
  ∃ t', advance_winner m (Some w) t = inr t' ∧ stored t' = d ∧
        competitors (pending t') = competitors d ∧
        advanced_into w next d (pending t').
Proof.
  intros Hn Hn0 Hnext t.
  pose proof (get_match_id _ _ _ Hnext) as Hid.
  set (nx := if (n =? i)%Z then set_winner_id (Some w) (set_status s next) else next).
  assert (id nx = n ∧ competitor1_id nx = competitor1_id next
          ∧ competitor2_id nx = competitor2_id next) as (Hnx & Hc1 & Hc2).
  { unfold nx. by destruct (n =? i)%Z. }
  assert (get_match n (matches (pending t)) = Some nx) as Hget.
  { subst t. simpl. rewrite !get_match_update_match, Hnext by done. unfold nx.
    by destruct (n =? i)%Z. }
  assert (∀ j, slots_at j (pending t) = slots_at j d) as Hsame.
  { intros j. subst t. unfold on_matches. simpl.
    rewrite slots_at_update_status_winner. by destruct d. }
  unfold advance_winner. rewrite Hn, truthy_Some by done.
  cbn [mbind option_bind]. rewrite Hget, Hc1, Hc2, Hnx.
  destruct (truthy (competitor1_id next)) eqn:T1; simpl negb; cbv iota.
  - destruct (truthy (competitor2_id next)) eqn:T2; simpl negb; cbv iota.
    + eexists; split; [done|]. unfold advanced_into.
      split_and!; try done; intros; congruence.
    + eexists; split; [done|]. unfold advanced_into.
      split_and!; try done; intros; try congruence.
      rewrite Hid, <- Hc1. by apply slots_at_fill2.
  - eexists; split; [done|]. unfold advanced_into.
    split_and!; try done; intros; try congruence.
    rewrite Hid, <- Hc2. by apply slots_at_fill1.
Qed.

Lemma decided_not_in_progress s :
  is_decided_status s = true → bool_decide (s = Some "In Progress") = false.
Proof.
  destruct s as [s|]; [|done]. simpl. intros H.
  apply bool_decide_eq_false. intros [= ->]. done.
Qed.

Lemma request_pair view d r t : view (begin d) = (r, t) → request view d = (r, stored t).
Proof. unfold request. by intros ->. Qed.

(** The assignment [match.status = status] precedes the winner check, so the
    session's copy of the match carries the new status when the check
    fails; the stored database does not. *)
Lemma missing_winner_session (d : DB) (i : Z) (m : Match) (s : option string) :
  get_match i (matches d) = Some m → is_decided_status s = true →
  ∃ t, record_result_view i s None (begin d)
       = (BadRequest400 (JsonError "Winner ID required for Completed/DQ matches"), t)
     ∧ get_match i (matches (pending t)) = Some (set_status s m)
     ∧ stored t = d.
Proof.
  intros Hm Hs. unfold record_result_view. simpl. rewrite Hm, Hs.
  eexists; split; [done|]. simpl.
  by rewrite get_match_update_match, Z.eqb_refl, Hm.
Qed.

(** C5.  A Completed or Disqualification result without a winner id is
    answered with the missing-winner error (HTTP 400) by both routes, and
    nothing is committed: the database after the request is the database
    before it, so neither the targeted match (status, winner, slots) nor any
    other row is modified. *)
Theorem missing_winner_rejected (d : DB) (i : Z) (m : Match) (s : option string) :
  get_match i (matches d) = Some m →
  is_decided_status s = true →
  record_result i s None d
    = (BadRequest400 (JsonError "Winner ID required for Completed/DQ matches"), d)
  ∧ ui_record_result i s FieldMissing d = (BadRequest400 HtmlWinnerMissing, d)
  ∧ ui_record_result i s FieldBlank d = (BadRequest400 HtmlWinnerMissing, d).
Proof.
  intros Hm Hs. pose proof (decided_not_in_progress _ Hs) as Hp.
  unfold record_result, ui_record_result, request,
    record_result_view, ui_record_result_view.
  simpl. by rewrite Hm, Hs, Hp.
Qed.

Lemma missing_winner_rejected_witness :
  record_result 1 (Some "Completed") None bracket_four
    = (BadRequest400 (JsonError "Winner ID required for Completed/DQ matches"),
       bracket_four)
  ∧ ui_record_result 1 (Some "Completed") FieldMissing bracket_four
    = (BadRequest400 HtmlWinnerMissing, bracket_four)
  ∧ ui_record_result 1 (Some "Completed") FieldBlank bracket_four
    = (BadRequest400 HtmlWinnerMissing, bracket_four).
Proof.
  apply (missing_winner_rejected bracket_four 1
           (mkMatch 1 1 None (Some 1%Z) (Some 3%Z) None (Some 3%Z) None
                    (Some "Pending") (Some "Round 1")) (Some "Completed"));
    reflexivity.
Defined.

(** C2 as stated fails.  A winner id of [0] is not null, yet
    [if not winner_id] takes it for a missing one: the request is refused and
    the empty first slot of the next match stays empty. *)
Lemma advancement_zero_winner_refused :
  record_result 1 (Some "Completed") (Some 0%Z) bracket_four
    = (BadRequest400 (JsonError "Winner ID required for Completed/DQ matches"),
       bracket_four)
  ∧ slots_at 3 bracket_four = Some (None, None)
  ∧ slots_at 3 (record_result 1 (Some "Completed") (Some 0%Z) bracket_four).2
    ≠ Some (Some 0%Z, None).
Proof. by vm_compute. Qed.

(** C2 (amended).  On an existing match, with status Completed or
    Disqualification, a winner id in SQLite's integer range and a next match
    (a non-zero [next_match_id] naming an existing match): the winner goes
    into the next match's slot 1 when that is empty, else into slot 2 when
    that is empty, and when both are taken no slot of any match changes; in
    each case the request answers 200.  The JSON route does so for a winner
    id that is neither null nor [0], the UI route for every integer winner
    id that names a stored competitor. *)
Theorem winner_advances_to_first_empty_slot
    (d : DB) (i n w : Z) (m next : Match) (s : option string) :
  get_match i (matches d) = Some m →
  is_decided_status s = true →
  next_match_id m = Some n → n ≠ 0%Z →
  get_match n (matches d) = Some next →
  sqlite_int w →
  (w ≠ 0%Z →
   ∃ d', record_result i s (Some w) d
         = (Ok200 (JsonMessage "Result recorded and bracket updated."), d')
       ∧ advanced_into w next d d')
  ∧ (∀ c, get_competitor w (competitors d) = Some c →
     ∃ d', ui_record_result i s (FieldInt w) d
           = (Ok200 (HtmlMatchComplete (match_number m) (competitor_name c)), d')
         ∧ advanced_into w next d d').
Proof.
  intros Hm Hs Hn Hn0 Hnext _.
  destruct (advance_winner_spec m next i n w s d Hn Hn0 Hnext)
    as (t' & Hadv & Hst & Hcomp & Hinto).
  split.
  - intros Hw. exists (pending t'). split; [|done].
    apply (request_pair _ _ _ (commit t')).
    unfold record_result_view. cbn [begin pending].
    rewrite Hm, Hs, truthy_Some by done. cbn [negb]. by rewrite Hadv.
  - intros c Hc. exists (pending t'). split; [|done].
    apply (request_pair _ _ _ (commit t')).
    unfold ui_record_result_view. cbn [begin pending].
    rewrite Hm, Hs, (decided_not_in_progress _ Hs), Hadv.
    cbn [commit pending]. by rewrite Hcomp, Hc.
Qed.

Lemma winner_advances_to_first_empty_slot_witness :
  (∃ d', record_result 1 (Some "Completed") (Some 3%Z) bracket_four
         = (Ok200 (JsonMessage "Result recorded and bracket updated."), d')
       ∧ slots_at 3 d' = Some (Some 3%Z, None))
  ∧ (∃ d', ui_record_result 2 (Some "Disqualification") (FieldInt 2) bracket_four
           = (Ok200 (HtmlMatchComplete None "Bob"), d')
         ∧ slots_at 3 d' = Some (Some 2%Z, None)).
Proof.
  pose proof (winner_advances_to_first_empty_slot bracket_four 1 3 3
    (mkMatch 1 1 None (Some 1%Z) (Some 3%Z) None (Some 3%Z) None
             (Some "Pending") (Some "Round 1"))
    (mkMatch 3 1 None None None None None None (Some "Pending") (Some "Final"))
    (Some "Completed") eq_refl eq_refl eq_refl ltac:(lia) eq_refl
    ltac:(by vm_compute)) as [H1 _].
  pose proof (winner_advances_to_first_empty_slot bracket_four 2 3 2
    (mkMatch 2 1 None (Some 2%Z) (Some 4%Z) None (Some 3%Z) None
             (Some "Pending") (Some "Round 1"))
    (mkMatch 3 1 None None None None None None (Some "Pending") (Some "Final"))
    (Some "Disqualification") eq_refl eq_refl eq_refl ltac:(lia) eq_refl
    ltac:(by vm_compute)) as [_ H2].
  split.
  - destruct (H1 ltac:(lia)) as (d' & Hr & Hinto & _). exists d'. split; [done|].
    by apply Hinto.
  - destruct (H2 bob eq_refl) as (d' & Hr & Hinto & _). exists d'. split; [done|].
    by apply Hinto.
Defined.

(** The UI route has its own branch for In Progress: it commits the new
    status of the targeted match and nothing else. *)
Lemma ui_in_progress_sets_status_only (d : DB) (i : Z) (m : Match) (w : form_int) :
  get_match i (matches d) = Some m →
  ∃ d', ui_record_result i (Some "In Progress") w d
        = (Ok200 (HtmlMatchStarted (match_number m)), d')
      ∧ get_match i (matches d') = Some (set_status (Some "In Progress") m)
      ∧ (∀ j, j ≠ i → get_match j (matches d') = get_match j (matches d))
      ∧ rings d' = rings d ∧ divisions d' = divisions d
      ∧ competitors d' = competitors d.
Proof.
  intros Hm. eexists. split.
  - unfold ui_record_result, request, ui_record_result_view. simpl.
    by rewrite Hm.
  - simpl. split_and!; try done.
    + by rewrite get_match_update_match, Z.eqb_refl, Hm.
    + intros j Hj. rewrite get_match_update_match by done.
      by assert ((j =? i)%Z = false) as -> by lia.
Qed.

(** The JSON route has no such branch: for a status other than Completed and
    Disqualification it assigns the status to the session object, reaches the
    end of the function without committing and without a return value. *)
Lemma record_result_other_status (d : DB) (i : Z) (m : Match)
    (s : option string) (w : option Z) :
  get_match i (matches d) = Some m →
  is_decided_status s = false →
  record_result i s w d = (ServerError500 NoResponse, d).
Proof.
  intros Hm Hs. unfold record_result, request, record_result_view. simpl.
  by rewrite Hm, Hs.
Qed.

(** C9 at the failing input.  [POST /matches/1/result] with status In
    Progress and no winner on the four-competitor bracket: the JSON route
    answers 500 and stores nothing, where the UI route, given the same
    request, answers 200 and stores the status. *)
Theorem record_result_in_progress_not_stored :
  record_result 1 (Some "In Progress") None bracket_four
    = (ServerError500 NoResponse, bracket_four)
  ∧ result_at 1 (record_result 1 (Some "In Progress") None bracket_four).2
    = Some (None, Some "Pending")
  ∧ (ui_record_result 1 (Some "In Progress") FieldMissing bracket_four).1
    = Ok200 (HtmlMatchStarted None)
  ∧ result_at 1 (ui_record_result 1 (Some "In Progress") FieldMissing bracket_four).2
    = Some (None, Some "In Progress").
Proof.
  split.
  - by eapply record_result_other_status.
  - by vm_compute.
Qed.

(** ** No guard against re-recording *)

(** C6 as stated fails: on a bracket whose match 1 is Completed with winner
    1, a second Completed result replaces the winner, and an In Progress
    request on the UI route puts the match back to In Progress. *)
Lemma terminal_state_overwritten :
  result_at 1 bracket_four_final_set = Some (Some 1%Z, Some "Completed")
  ∧ result_at 1 (record_result 1 (Some "Completed") (Some 3%Z) bracket_four_final_set).2
    = Some (Some 3%Z, Some "Completed")
  ∧ result_at 1 (ui_record_result 1 (Some "In Progress") FieldMissing
                   bracket_four_final_set).2
    = Some (Some 1%Z, Some "In Progress")
  ∧ ¬ never_reverts bracket_four_final_set
        (record_result 1 (Some "Completed") (Some 3%Z) bracket_four_final_set).2
  ∧ ¬ never_reverts bracket_four_final_set
        (ui_record_result 1 (Some "In Progress") FieldMissing bracket_four_final_set).2.
Proof.
  split_and!; try by vm_compute.
  - intros H. destruct (H 1%Z _ eq_refl eq_refl eq_refl) as (m' & Hm' & Hw & _).
    vm_compute in Hm'. injection Hm' as <-. done.
  - intros H. destruct (H 1%Z _ eq_refl eq_refl eq_refl) as (m' & Hm' & _ & Ht).
    vm_compute in Hm'. injection Hm' as <-. done.
Qed.

Lemma result_at_update_slot j k c tbl d :
  result_at j (with_matches (update_match k (set_competitor1_id c) tbl) d)
  = result_at j (with_matches tbl d)
  ∧ result_at j (with_matches (update_match k (set_competitor2_id c) tbl) d)
  = result_at j (with_matches tbl d).
Proof.
  unfold result_at. simpl. rewrite !get_match_update_match by done.
  destruct (j =? k)%Z; [|done]. by destruct (get_match j tbl).
Qed.

(** The advancement block writes slots only. *)
Lemma advance_winner_result_at m w t t' :
  advance_winner m w t = inr t' →
  stored t' = stored t ∧ ∀ j, result_at j (pending t') = result_at j (pending t).
Proof.
  unfold advance_winner. intros H.
  assert (∀ j, result_at j (with_matches (matches (pending t)) (pending t))
               = result_at j (pending t)) as Hsame by by destruct t as [? []].
  repeat case_match; simplify_eq; try done; (split; [done|]); intros j;
    unfold on_matches; simpl;
    by rewrite <- Hsame, ?(proj1 (result_at_update_slot _ _ _ _ _)),
                        ?(proj2 (result_at_update_slot _ _ _ _ _)).
Qed.

Lemma result_at_recorded j i s w tbl d m :
  get_match j tbl = Some m →
  result_at j (with_matches
    (update_match i (set_winner_id w) (update_match i (set_status s) tbl)) d)
  = if (j =? i)%Z then Some (w, s) else Some (winner_id m, status m).
Proof.
  intros Hm. unfold result_at. simpl.
  rewrite !get_match_update_match, Hm by done. by destruct (j =? i)%Z.
Qed.

Lemma advance_winner_competitors m w t t' :
  advance_winner m w t = inr t' →
  competitors (pending t') = competitors (pending t).
Proof.
  unfold advance_winner. intros H. by repeat case_match; simplify_eq.
Qed.

(** C6 (amended).  No request is refused because the match is already
    decided: whether a result is taken depends on the request and on the
    next-match link alone, never on the status or winner the match has.
    For every stored match [j] and a result request aimed at match [i] (with
    winner ids in SQLite's integer range, and on the UI route naming a
    stored competitor): when [j] is not the target, or the request is
    rejected or fails, winner and status of [j] stay as they were; when [j]
    is the target and the request is taken, they are overwritten, by the
    submitted status and winner id for Completed and Disqualification, and
    on the UI route by the status In Progress with the winner kept; a
    request that is taken is answered 200. *)
Theorem result_overwritten_only_on_target
    (d : DB) (i j : Z) (m : Match) (s : option string) (w : option Z) (wf : form_int) :
  get_match j (matches d) = Some m →
  sqlite_opt w →
  (∀ z, wf = FieldInt z →
        sqlite_int z ∧ is_Some (get_competitor z (competitors d))) →
  let taken := j = i ∧ is_decided_status s = true ∧ next_reachable m d in
  result_at j (record_result i s w d).2
  = (if decide (taken ∧ truthy w = true) then Some (w, s)
     else Some (winner_id m, status m))
  ∧ (taken ∧ truthy w = true →
     (record_result i s w d).1
     = Ok200 (JsonMessage "Result recorded and bracket updated."))
  ∧ result_at j (ui_record_result i s wf d).2
    = (if decide (j = i ∧ s = Some "In Progress") then Some (winner_id m, s)
       else if decide taken then
         match wf with
         | FieldInt z => Some (Some z, s)
         | _ => Some (winner_id m, status m)
         end
       else Some (winner_id m, status m))
  ∧ (j = i ∧ s = Some "In Progress" →
     (ui_record_result i s wf d).1 = Ok200 (HtmlMatchStarted (match_number m)))
  ∧ (∀ z c, taken → wf = FieldInt z →
       get_competitor z (competitors d) = Some c →
       (ui_record_result i s wf d).1
       = Ok200 (HtmlMatchComplete (match_number m) (competitor_name c))).
Proof.
  intros Hm _ Hwf taken. subst taken.
  assert (result_at j d = Some (winner_id m, status m)) as Hold
    by (unfold result_at; by rewrite Hm).
  assert (∀ w0 (t : Txn),
            t = on_matches (update_match i (set_winner_id w0))
                  (on_matches (update_match i (set_status s)) (begin d)) →
            j = i →
            match advance_winner m w0 t with
            | inl _ => ¬ next_reachable m d
            | inr t' =>
              next_reachable m d ∧ stored t' = d
              ∧ competitors (pending t') = competitors d
              ∧ result_at j (pending t') = Some (w0, s)
            end) as Hadv.
  { intros w0 t -> ->.
    destruct (advance_winner m w0 _) as [e|t'] eqn:Hadv.
    - unfold advance_winner in Hadv. unfold next_reachable.
      destruct (truthy (next_match_id m)); [|done]. intros Hn.
      destruct (Hn eq_refl) as [x Hx].
      destruct (next_match_id m) as [n|]; [|done]. cbn [mbind option_bind] in *.
      cbn [on_matches pending matches with_matches begin] in Hadv.
      rewrite !get_match_update_match, Hx in Hadv by done.
      repeat case_match; simplify_eq.
    - pose proof (advance_winner_result_at _ _ _ _ Hadv) as [Hst Hres].
      pose proof (advance_winner_competitors _ _ _ _ Hadv) as Hcs.
      split_and!; try done.
      + unfold advance_winner in Hadv. unfold next_reachable. intros Hn.
        rewrite Hn in Hadv.
        destruct (next_match_id m) as [n|]; [|done]. cbn [mbind option_bind] in *.
        cbn [on_matches pending matches with_matches begin] in Hadv.
        rewrite !get_match_update_match in Hadv by done.
        destruct (get_match n (matches d)); [by eexists|].
        repeat case_match; simplify_eq.
      + rewrite Hres. cbn [on_matches pending stored begin matches with_matches].
        rewrite (result_at_recorded i i s w0 (matches d) _ m Hm).
        by rewrite Z.eqb_refl. }
  assert (∀ w0, j ≠ i →
            result_at j (with_matches
              (update_match i (set_winner_id w0)
                 (update_match i (set_status s) (matches d))) d)
            = Some (winner_id m, status m)) as Hother.
  { intros w0 Hji. rewrite (result_at_recorded _ _ _ _ _ _ _ Hm).
    by assert ((j =? i)%Z = false) as -> by lia. }
  split_and!.
  - unfold record_result, request, record_result_view. cbn [begin pending].
    destruct (decide (j = i)) as [->|Hji].
    + rewrite Hm.
      destruct (is_decided_status s) eqn:Hs;
        [|rewrite decide_False by (intuition congruence); done].
      destruct (truthy w) eqn:Hw; cbn [negb];
        [|rewrite decide_False by (intuition congruence); done].
      specialize (Hadv w _ eq_refl eq_refl).
      destruct (advance_winner m w _) as [e|t'].
      * rewrite decide_False by (intuition congruence). done.
      * destruct Hadv as (Hn & Hst & _ & Hres).
        rewrite decide_True by done. done.
    + rewrite decide_False by (intuition congruence).
      destruct (get_match i (matches d)) as [mi|]; [|done].
      destruct (is_decided_status s); [|done].
      destruct (truthy w); cbn [negb]; [|done].
      destruct (advance_winner mi w _) as [e|t'] eqn:Ha; [done|].
      apply advance_winner_result_at in Ha as [_ Hres].
      cbn [snd commit stored]. rewrite Hres.
      cbn [on_matches pending stored begin matches with_matches]. by apply Hother.
  - intros [(-> & Hs & Hn) Hw].
    unfold record_result, request, record_result_view. cbn [begin pending].
    rewrite Hm, Hs, Hw. cbn [negb].
    specialize (Hadv w _ eq_refl eq_refl).
    destruct (advance_winner m w _) as [e|t']; [done|]. done.
  - unfold ui_record_result, request, ui_record_result_view. cbn [begin pending].
    destruct (decide (j = i)) as [->|Hji].
    + rewrite Hm. case_bool_decide as Hp.
      { rewrite decide_True by done.
        cbn [snd commit stored on_matches pending]. unfold result_at.
        cbn [matches with_matches begin pending].
        by rewrite get_match_update_match, Hm, Z.eqb_refl by done. }
      rewrite decide_False by (intuition congruence).
      destruct (is_decided_status s) eqn:Hs;
        [|rewrite decide_False by (intuition congruence); by destruct wf].
      destruct wf as [| | |z]; try (by case_decide).
      specialize (Hadv (Some z) _ eq_refl eq_refl).
      destruct (advance_winner m (Some z) _) as [e|t'].
      * rewrite decide_False by (intuition congruence). done.
      * destruct Hadv as (Hn & Hst & Hcs & Hres).
        rewrite decide_True by done. cbn zeta. cbn [commit pending].
        by destruct (get_competitor z _).
    + rewrite decide_False by (intuition congruence).
      rewrite decide_False by (intuition congruence).
      destruct (get_match i (matches d)) as [mi|]; [|done].
      case_bool_decide.
      { cbn [snd commit stored on_matches pending]. unfold result_at.
        cbn [matches with_matches begin pending].
        rewrite get_match_update_match, Hm by done.
        by assert ((j =? i)%Z = false) as -> by lia. }
      destruct (is_decided_status s); [|done].
      destruct wf as [| | |z]; try done.
      destruct (advance_winner mi (Some z) _) as [e|t'] eqn:Ha; [done|].
      apply advance_winner_result_at in Ha as [_ Hres].
      cbn zeta. cbn [commit pending].
      assert (result_at j (pending t') = Some (winner_id m, status m)) as Hj.
      { rewrite Hres. cbn [on_matches pending stored begin matches with_matches].
        by apply Hother. }
      by destruct (get_competitor z _).
  - intros [-> ->].
    unfold ui_record_result, request, ui_record_result_view. cbn [begin pending].
    by rewrite Hm.
  - intros z c (-> & Hs & Hn) -> Hc.
    unfold ui_record_result, request, ui_record_result_view. cbn [begin pending].
    rewrite Hm, decided_not_in_progress, Hs by done.
    specialize (Hadv (Some z) _ eq_refl eq_refl).
    destruct (advance_winner m (Some z) _) as [e|t']; [done|].
    destruct Hadv as (_ & _ & Hcs & _).
    cbn zeta. cbn [commit pending]. by rewrite Hcs, Hc.
Qed.

Lemma result_overwritten_only_on_target_witness :
  result_at 1 bracket_four_final_set = Some (Some 1%Z, Some "Completed")
  ∧ result_at 2 (record_result 1 (Some "Completed") (Some 3%Z) bracket_four_final_set).2
    = Some (Some 4%Z, Some "Completed")
  ∧ result_at 1 (record_result 1 (Some "Completed") (Some 3%Z) bracket_four_final_set).2
    = Some (Some 3%Z, Some "Completed")
  ∧ (record_result 1 (Some "Completed") (Some 3%Z) bracket_four_final_set).1
    = Ok200 (JsonMessage "Result recorded and bracket updated.")
  ∧ result_at 1 (ui_record_result 1 (Some "Disqualification") (FieldInt 3)
                   bracket_four_final_set).2
    = Some (Some 3%Z, Some "Disqualification").
Proof.
  assert (∀ z, FieldInt 3 = FieldInt z →
               sqlite_int z
               ∧ is_Some (get_competitor z (competitors bracket_four_final_set)))
    as Hwf by (intros z [= <-]; split; [by vm_compute|by eexists]).
  pose proof (result_overwritten_only_on_target bracket_four_final_set 1 2 _
    (Some "Completed") (Some 3%Z) (FieldInt 3) eq_refl ltac:(by vm_compute) Hwf)
    as (H2 & _).
  pose proof (result_overwritten_only_on_target bracket_four_final_set 1 1 _
    (Some "Completed") (Some 3%Z) (FieldInt 3) eq_refl ltac:(by vm_compute) Hwf)
    as (H1 & H1r & _).
  pose proof (result_overwritten_only_on_target bracket_four_final_set 1 1 _
    (Some "Disqualification") (Some 3%Z) (FieldInt 3) eq_refl ltac:(by vm_compute) Hwf)
    as (_ & _ & H3 & _).
  assert (next_reachable
            (mkMatch 1 1 None (Some 1%Z) (Some 3%Z) (Some 1%Z) (Some 3%Z) None
               (Some "Completed") (Some "Round 1")) bracket_four_final_set) as Hn
    by (intros _; by eexists).
  split_and!.
  - reflexivity.
  - rewrite H2. by rewrite decide_False by (intros [[? _] _]; lia).
  - rewrite H1. by rewrite decide_True.
  - apply H1r. by split_and!.
  - rewrite H3. rewrite decide_False by (by intros [_ ?]).
    by rewrite decide_True.
Defined.

(** ** Division deletion *)

Lemma competitors_of_deleted div_id tbl :
  competitors_of div_id (delete_competitors_of div_id tbl) = [].
Proof.
  unfold competitors_of, delete_competitors_of.
  induction tbl as [|c tbl IH]; [done|].
  rewrite (filter_cons _ c tbl). case_decide as Hc; [|done].
  rewrite filter_cons. by case_decide.
Qed.

Lemma matches_of_deleted div_id tbl :
  matches_of div_id (delete_matches_of div_id tbl) = [].
Proof.
  unfold matches_of, delete_matches_of.
  induction tbl as [|c tbl IH]; [done|].
  rewrite (filter_cons _ c tbl). case_decide as Hc; [|done].
  rewrite filter_cons. by case_decide.
Qed.

Lemma get_division_deleted div_id tbl :
  get_division div_id (delete_division_row div_id tbl) = None.
Proof.
  unfold delete_division_row. induction tbl as [|x tbl IH]; [done|].
  rewrite filter_cons. case_decide as Hx; [|done]. simpl.
  by assert ((division_pk x =? div_id)%Z = false) as -> by lia.
Qed.

(** The UI route deletes the division's matches, then its competitors, then
    the division, and commits: nothing that refers to the division is left,
    and rows of other divisions are kept. *)
Lemma ui_delete_division_cascades (d : DB) (div_id : Z) (dv : Division) :
  get_division div_id (divisions d) = Some dv →
  ∃ d', ui_delete_division div_id d = (Ok200 HtmlEmpty, d')
      ∧ matches_of div_id (matches d') = []
      ∧ competitors_of div_id (competitors d') = []
      ∧ get_division div_id (divisions d') = None
      ∧ matches d' = delete_matches_of div_id (matches d)
      ∧ competitors d' = delete_competitors_of div_id (competitors d).
Proof.
  intros Hd. eexists. split.
  - unfold ui_delete_division, request, ui_delete_division_view.
    cbn [begin pending]. rewrite Hd. unfold session_delete_division.
    cbn [competitors matches].
    by rewrite competitors_of_deleted, matches_of_deleted.
  - cbn [stored commit pending matches competitors divisions].
    split_and!; auto using competitors_of_deleted, matches_of_deleted,
      get_division_deleted.
Qed.

(** The JSON route deletes the division row only; with a competitor or a
    match still attached the flush fails and nothing is deleted. *)
Lemma edit_division_delete_with_children (d : DB) (div_id : Z) (dv : Division) :
  get_division div_id (divisions d) = Some dv →
  competitors_of div_id (competitors d) ≠ [] ∨ matches_of div_id (matches d) ≠ [] →
  edit_division_delete div_id d = (ServerError500 IntegrityError, d).
Proof.
  intros Hd Hc. unfold edit_division_delete, request, edit_division_delete_view.
  cbn [begin pending]. rewrite Hd. unfold session_delete_division.
  destruct (competitors_of _ _), (matches_of _ _); try done.
  by destruct Hc.
Qed.

(** C7 at the failing input.  [DELETE /divisions/1] on the four-competitor
    bracket: the JSON route removes neither matches nor competitors (the
    request fails and the division with its three matches and four
    competitors is still stored), where [DELETE /ui/divisions/1] empties all
    three tables. *)
Theorem edit_division_delete_keeps_children :
  edit_division_delete 1 bracket_four = (ServerError500 IntegrityError, bracket_four)
  ∧ length (matches_of 1 (matches (edit_division_delete 1 bracket_four).2)) = 3
  ∧ length (competitors_of 1 (competitors (edit_division_delete 1 bracket_four).2)) = 4
  ∧ ui_delete_division 1 bracket_four = (Ok200 HtmlEmpty, mkDB [] [] [] []).
Proof. by vm_compute. Qed.

(** ** Bracket read interface *)

(** C8 as stated fails: the entry of a decided match gives the winner as a
    bare id under [winner_id]; the winner's name is resolved nowhere outside
    the two slot fields. *)
Lemma bracket_winner_not_resolved :
  ∃ e1 e2 e3,
    get_bracket 1 bracket_four_final_set = Ok200 (JsonValue (JArr [e1; e2; e3]))
    ∧ get_match 1 (matches bracket_four_final_set) ≫= winner_id = Some 1%Z
    ∧ get_competitor 1 (competitors bracket_four_final_set) = Some alice
    ∧ field "winner_id" e1 = Some (JInt 1)
    ∧ ¬ winner_displayed alice e1.
Proof.
  eexists _, _, _. split; [by vm_compute|]. split_and!; try by vm_compute.
  intros (k & Hk1 & Hk2 & Hf). cbn in Hf.
  repeat (case_bool_decide; [by simplify_eq|]). done.
Qed.

Lemma bracket_entry_for tbl m : entry_for tbl m (bracket_entry tbl m).
Proof.
  unfold entry_for, bracket_entry. split_and!; try done.
  - intros i c Hi Hi0 Hc. cbn. unfold get_comp_data.
    rewrite Hi, truthy_Some by done. cbn. by rewrite Hc.
  - intros i c Hi Hi0 Hc. cbn. unfold get_comp_data.
    rewrite Hi, truthy_Some by done. cbn. by rewrite Hc.
Qed.

(** C8 (amended).  For a division that has matches, the read operation
    answers 200 with one entry per match of the division, in table order;
    each entry holds the match id, round name, status, ring id and
    [next_match_id], the resolved display data (id and name) of the
    competitors in slot 1 and slot 2, and the winner as a bare id. *)
Theorem get_bracket_entries (d : DB) (div_id : Z) :
  matches_of div_id (matches d) ≠ [] →
  ∃ entries,
    get_bracket div_id d = Ok200 (JsonValue (JArr entries))
    ∧ length entries = length (matches_of div_id (matches d))
    ∧ Forall2 (entry_for (competitors d)) (matches_of div_id (matches d)) entries.
Proof.
  intros Hne. exists (map (bracket_entry (competitors d)) (matches_of div_id (matches d))).
  split_and!.
  - unfold get_bracket. by destruct (matches_of _ _).
  - by rewrite length_map.
  - apply Forall2_fmap_r, Forall_Forall2_diag, Forall_forall.
    intros m _. apply bracket_entry_for.
Qed.

Lemma get_bracket_entries_witness :
  ∃ entries,
    get_bracket 1 bracket_four = Ok200 (JsonValue (JArr entries))
    ∧ length entries = 3.
Proof.
  destruct (get_bracket_entries bracket_four 1) as (entries & H & Hlen & _).
  - vm_compute. discriminate.
  - exists entries. split; [exact H|exact Hlen].
Defined.

(** ** Bracket builder: shuffling and dealing *)

Section shuffle.
Context {A : Type}.
Implicit Types (x : list A) (i j : nat).

Lemma swap_length i j x : length (swap i j x) = length x.
Proof.
  unfold swap. destruct (x !! i), (x !! j); try done.
  by rewrite !length_insert.
Qed.

Lemma swap_Permutation i j x : swap i j x ≡ₚ x.
Proof.
  unfold swap. destruct (x !! i) as [a|] eqn:Hi; [|done].
  destruct (x !! j) as [b|] eqn:Hj; [|done].
  destruct (decide (i = j)) as [->|Hij].
  - simplify_eq. rewrite list_insert_insert_eq. by rewrite list_insert_id.
  - pose proof (lookup_lt_Some _ _ _ Hi). pose proof (lookup_lt_Some _ _ _ Hj).
    apply Permutation_inj. split; [by rewrite !length_insert|].
    exists (λ k, if decide (k = i) then j else if decide (k = j) then i else k).
    split.
    + intros k1 k2. repeat case_decide; lia.
    + intros k. cbv beta. destruct (decide (k = j)) as [->|Hkj].
      { rewrite list_lookup_insert_eq by (rewrite length_insert; lia).
        by rewrite decide_False by done. }
      rewrite list_lookup_insert_ne by done.
      destruct (decide (k = i)) as [->|Hki].
      { by rewrite list_lookup_insert_eq by lia. }
      by rewrite list_lookup_insert_ne by done.
Qed.

Lemma shuffle_down_Permutation rnd i x : shuffle_down rnd i x ≡ₚ x.
Proof.
  revert x. induction i as [|i IH]; intros x; simpl; [done|].
  by rewrite IH, swap_Permutation.
Qed.

(** [random.shuffle] rearranges and neither loses nor invents elements. *)
Lemma shuffle_Permutation rnd x : shuffle rnd x ≡ₚ x.
Proof. apply shuffle_down_Permutation. Qed.

Lemma shuffle_length rnd x : length (shuffle rnd x) = length x.
Proof. by rewrite shuffle_Permutation. Qed.
End shuffle.

Section dealing.
Implicit Types (n i j : nat) (x : list Competitor).

Lemma dealt_length n x : length (dealt n x) = n.
Proof. unfold dealt. by rewrite length_map, length_seq. Qed.

Lemma dealt_lookup n x j :
  (j < n)%nat → dealt n x !! j = Some (x !! j, x !! (n + j)%nat).
Proof.
  intros Hj. unfold dealt. rewrite list_lookup_fmap, lookup_seq_lt by done.
  done.
Qed.

Lemma dealt_nil n : dealt n [] = replicate n (None, None).
Proof.
  apply list_eq. intros j. destruct (decide (j < n)%nat) as [Hj|Hj].
  - by rewrite dealt_lookup, lookup_replicate_2 by done.
  - rewrite !lookup_ge_None_2; [done|..].
    + rewrite length_replicate. lia.
    + rewrite dealt_length. lia.
Qed.

(** One card: the competitor at flat index [length x] lands in pairing
    [index mod n], slot [index / n]. *)
Lemma deal_one_dealt n x c :
  (0 < n)%nat → (length x < 2 * n)%nat →
  deal_one n (length x) c (dealt n x) = Done (dealt n (x ++ [c])).
Proof.
  intros Hn Hx. unfold deal_one.
  assert ((n =? 0)%nat = false) as -> by (apply Nat.eqb_neq; lia).
  assert (length x mod n < n)%nat as Hidx by (apply Nat.mod_upper_bound; lia).
  rewrite dealt_lookup by done.
  destruct (decide (length x < n)%nat) as [Hlt|Hge].
  - rewrite Nat.div_small, Nat.mod_small by done. f_equal.
    apply list_eq. intros j. destruct (decide (j < n)%nat) as [Hj|Hj].
    + rewrite dealt_lookup by done.
      destruct (decide (j = length x)) as [->|Hne].
      * rewrite list_lookup_insert_eq by (rewrite dealt_length; lia).
        rewrite lookup_app_r, Nat.sub_diag by lia. simpl.
        by rewrite !lookup_ge_None_2 by (rewrite ?length_app; simpl; lia).
      * rewrite list_lookup_insert_ne, dealt_lookup by done.
        f_equal. f_equal.
        -- destruct (decide (j < length x)%nat).
           ++ by rewrite lookup_app_l.
           ++ rewrite !lookup_ge_None_2; [done|rewrite length_app; simpl; lia|lia].
        -- rewrite !lookup_ge_None_2; [done|rewrite length_app; simpl; lia|lia].
    + rewrite !lookup_ge_None_2; [done|..];
        rewrite ?length_insert, dealt_length; lia.
  - assert (length x / n = 1)%nat as ->.
    { symmetry. apply (Nat.div_unique _ _ _ (length x - n)); lia. }
    assert (length x mod n = length x - n)%nat as ->.
    { symmetry. apply (Nat.mod_unique _ _ 1); lia. }
    f_equal. apply list_eq. intros j. destruct (decide (j < n)%nat) as [Hj|Hj].
    + rewrite dealt_lookup by done.
      destruct (decide (j = length x - n)%nat) as [->|Hne].
      * rewrite list_lookup_insert_eq by (rewrite dealt_length; lia).
        rewrite lookup_app_l by lia.
        replace (n + (length x - n))%nat with (length x) by lia.
        rewrite (lookup_app_r x) by lia. by rewrite Nat.sub_diag.
      * rewrite list_lookup_insert_ne, dealt_lookup by done.
        rewrite lookup_app_l by lia. f_equal. f_equal.
        destruct (decide (n + j < length x)%nat).
        -- by rewrite lookup_app_l.
        -- rewrite !lookup_ge_None_2; [done|rewrite length_app; simpl; lia|lia].
    + rewrite !lookup_ge_None_2; [done|..];
        rewrite ?length_insert, dealt_length; lia.
Qed.

Lemma deal_dealt n cs x :
  (0 < n)%nat → (length x + length cs ≤ 2 * n)%nat →
  deal n (length x) cs (dealt n x) = Done (dealt n (x ++ cs)).
Proof.
  intros Hn. revert x. induction cs as [|c cs IH]; intros x Hlen; simpl in *.
  - by rewrite app_nil_r.
  - rewrite deal_one_dealt by lia. simpl.
    replace (S (length x)) with (length (x ++ [c]))
      by (rewrite length_app; simpl; lia).
    rewrite IH by (rewrite length_app; simpl; lia).
    by rewrite <- app_assoc.
Qed.

(** The dealing loop of step 2 never raises when there are at most [2 n]
    competitors, and leaves pairing [j] holding [x[j]] and [x[n + j]]. *)
Lemma deal_all n x :
  (0 < n)%nat → (length x ≤ 2 * n)%nat →
  deal n 0 x (replicate n (None, None)) = Done (dealt n x).
Proof.
  intros Hn Hx. rewrite <- dealt_nil. by apply (deal_dealt n x []).
Qed.
End dealing.

(** ** Bracket builder: rows *)

Lemma same_but_next_fields m m' :
  same_but_next m m' →
  id m' = id m ∧ division_id m' = division_id m ∧ ring_id m' = ring_id m
  ∧ competitor1_id m' = competitor1_id m ∧ competitor2_id m' = competitor2_id m
  ∧ winner_id m' = winner_id m ∧ match_number m' = match_number m
  ∧ status m' = status m ∧ round_name m' = round_name m.
Proof.
  unfold same_but_next, set_next_match_id. intros [=].
  repeat split; assumption.
Qed.

#[local] Instance same_but_next_equiv : Equivalence same_but_next.
Proof.
  unfold same_but_next. split.
  - by intros m.
  - by intros m m'.
  - intros m1 m2 m3 H1 H2. by rewrite H2.
Qed.

Lemma same_but_next_set n m : same_but_next m (set_next_match_id n m).
Proof. done. Qed.

Lemma same_but_next_update p n tbl :
  Forall2 same_but_next tbl (update_match p (set_next_match_id n) tbl).
Proof.
  unfold update_match. apply Forall2_fmap_r, Forall_Forall2_diag, Forall_forall.
  intros m _. simpl.
  destruct (id m =? p)%Z; [apply same_but_next_set|reflexivity].
Qed.

Lemma later_round_row_proper div_id m m' :
  same_but_next m m' → later_round_row div_id m → later_round_row div_id m'.
Proof.
  intros H (Hd & Hs & Hw & Hr).
  apply same_but_next_fields in H as (_ & E1 & _ & _ & _ & E2 & _ & E3 & E4).
  unfold later_round_row. by rewrite E1, E2, E3, E4.
Qed.

Lemma extends_refl div_id tbl : extends div_id 0 tbl tbl.
Proof.
  exists tbl, []. rewrite app_nil_r. by split_and!.
Qed.

Lemma extends_trans div_id k1 k2 t1 t2 t3 :
  extends div_id k1 t1 t2 → extends div_id k2 t2 t3 →
  extends div_id (k1 + k2) t1 t3.
Proof.
  intros (pre1 & later1 & -> & Hpre1 & Hlater1 & <-)
         (pre2 & later2 & -> & Hpre2 & Hlater2 & <-).
  apply Forall2_app_inv_l in Hpre2 as (pre & mid & Hpre & Hmid & ->).
  exists pre, (mid ++ later2). split_and!.
  - by rewrite app_assoc.
  - etrans; [exact Hpre1|exact Hpre].
  - apply Forall_app. split; [|done].
    apply Forall_forall. intros m' Hm'.
    apply list_elem_of_lookup in Hm' as [k Hk].
    destruct (Forall2_lookup_r _ _ _ _ _ Hmid Hk) as (m & Hm & Hmm').
    eapply later_round_row_proper; [exact Hmm'|].
    eapply Forall_lookup_1; [exact Hlater1|exact Hm].
  - rewrite length_app. by rewrite (Forall2_length _ _ _ Hmid).
Qed.

Lemma fresh_id_above tbl : Forall (λ m, (id m < fresh_id tbl)%Z) tbl.
Proof.
  unfold fresh_id. induction tbl as [|m tbl IH]; [done|]. simpl.
  constructor; [lia|]. eapply Forall_impl; [exact IH|]. simpl. lia.
Qed.

Lemma insert_defaults_new div_id c1 c2 name n :
  insert_defaults (new_match div_id c1 c2 name n)
  = set_status (Some "Pending") (new_match div_id c1 c2 name n).
Proof. done. Qed.

Section link.
Variables (div_id : Z) (name : string) (tbl : list Match).

Lemma linked_add :
  linked div_id name (fresh_id tbl) tbl
    (add_match (new_match div_id None None name) tbl).2.
Proof.
  eexists tbl, _. split; [reflexivity|]. split_and!; try done.
  eapply Forall_impl; [apply fresh_id_above|]. simpl. lia.
Qed.

Lemma linked_set_next n p x t :
  linked div_id name n tbl t →
  linked div_id name n tbl (update_match p (set_next_match_id x) t).
Proof.
  intros (pre & row & -> & Hpre & Hids & Hrow).
  rewrite update_match_app. eexists _, _. split; [reflexivity|]. split_and!.
  - etrans; [exact Hpre|apply same_but_next_update].
  - unfold update_match. apply Forall_fmap. eapply Forall_impl; [exact Hids|].
    intros m Hm. simpl. by destruct (id m =? p)%Z.
  - simpl. by destruct (id row =? p)%Z.
Qed.

Lemma linked_set_slot n f t :
  (∀ m, fresh_row div_id name n m → fresh_row div_id name n (f m)) →
  linked div_id name n tbl t → linked div_id name n tbl (update_match n f t).
Proof.
  intros Hf (pre & row & -> & Hpre & Hids & Hrow).
  rewrite update_match_app, update_match_fresh by done.
  eexists _, _. split; [reflexivity|]. split_and!; try done.
  simpl. destruct (id row =? n)%Z; [by apply Hf|done].
Qed.

(** The loop body appends exactly one later-round row and otherwise only
    rewrites next-match links. *)
Lemma link_pair_linked p1 p2 :
  (link_pair div_id name p1 p2 tbl).1 = fresh_id tbl
  ∧ linked div_id name (fresh_id tbl) tbl (link_pair div_id name p1 p2 tbl).2.
Proof.
  unfold link_pair.
  pose proof linked_add as H0.
  destruct (add_match _ tbl) as [n' t0] eqn:Hadd.
  assert (n' = fresh_id tbl) as -> by (by injection Hadd).
  cbn [snd] in H0. set (n := fresh_id tbl) in *.
  apply (linked_set_next n p1 (Some n)), (linked_set_next n p2 (Some n)) in H0.
  set (t2 := update_match p2 _ _) in *.
  assert (linked div_id name n tbl
            (if truthy (winner_of p1 t2)
             then update_match n (set_competitor1_id (winner_of p1 t2)) t2
             else t2)) as H1.
  { destruct (truthy _); [|done]. by apply linked_set_slot. }
  set (t3 := if truthy (winner_of p1 t2) then _ else _) in *.
  split; [done|]. cbn [snd].
  destruct (truthy (winner_of p2 t3)); [|done]. by apply linked_set_slot.
Qed.
End link.

Lemma linked_extends div_id len rn n tbl t :
  (2 ≤ rn)%nat → linked div_id (r_name len rn) n tbl t → extends div_id 1 tbl t.
Proof.
  intros Hrn (pre & row & -> & Hpre & _ & (_ & Hd & Hs & Hw & Hr)).
  exists pre, [row]. split_and!; try done.
  constructor; [|done]. split_and!; try done. by exists len, rn.
Qed.

(** One pass over a round of [2 k] matches creates [k] rows. *)
Lemma pair_round_extends div_id len rn k :
  (2 ≤ rn)%nat → ∀ current tbl, length current = (2 * k)%nat →
  ∃ next tbl', pair_round div_id len rn current tbl = Done (next, tbl')
             ∧ length next = k ∧ extends div_id k tbl tbl'.
Proof.
  intros Hrn. induction k as [|k IH]; intros current tbl Hlen.
  - destruct current; [|done]. exists [], tbl. split_and!; try done.
    apply extends_refl.
  - destruct current as [|p1 [|p2 rest]]; try (simpl in Hlen; lia).
    cbn [pair_round].
    destruct (link_pair_linked div_id (r_name len rn) tbl p1 p2) as [Hn Hl].
    destruct (link_pair _ _ p1 p2 tbl) as [n t1]. cbn [fst snd] in *.
    destruct (IH rest t1) as (next & tbl' & -> & Hnext & Hext);
      [simpl in Hlen; lia|].
    exists (n :: next), tbl'. split_and!; [done|simpl; lia|].
    apply (extends_trans _ 1 k _ t1); [|done].
    by eapply linked_extends.
Qed.

(** The [while] loop on a round of [2 ^ j] matches finishes within [j]
    turns and creates [2 ^ j - 1] rows. *)
Lemma build_rounds_extends div_id j :
  ∀ bound rn current tbl,
  (2 ≤ rn)%nat → length current = (2 ^ j)%nat → (j ≤ bound)%nat →
  ∃ tbl', build_rounds bound div_id rn current tbl = Done tbl'
        ∧ extends div_id (2 ^ j - 1) tbl tbl'.
Proof.
  induction j as [|j IH]; intros bound rn current tbl Hrn Hlen Hb.
  - exists tbl. simpl in Hlen. split; [|apply extends_refl].
    destruct bound; simpl; by rewrite Hlen.
  - destruct bound as [|bound]; [lia|]. cbn [build_rounds].
    assert (2 ^ S j = 2 * 2 ^ j)%nat as Hpow by (simpl; lia).
    assert (0 < 2 ^ j)%nat as Hpos by (apply Nat.neq_0_lt_0, Nat.pow_nonzero; lia).
    assert ((length current <=? 1)%nat = false) as ->
      by (apply Nat.leb_gt; lia).
    destruct (pair_round_extends div_id (length current) rn (2 ^ j) Hrn current tbl)
      as (next & t1 & -> & Hnext & Hext1); [lia|].
    cbn [obind].
    destruct (IH bound (S rn) next t1) as (tbl' & -> & Hext2); [lia|done|lia|].
    exists tbl'. split; [done|].
    replace (2 ^ S j - 1)%nat with (2 ^ j + (2 ^ j - 1))%nat by lia.
    by eapply extends_trans.
Qed.

Lemma round1_match_id div_id p i : id (insert_defaults (round1_match div_id p i)) = i.
Proof. by destruct p as [[c1|] [c2|]]. Qed.

(** Step 3 appends one row per pairing, in order. *)
Lemma create_round1_rows div_id ps :
  ∀ tbl, ∃ rows,
    create_round1 div_id ps tbl = (map id rows, tbl ++ rows)
    ∧ Forall2 (λ p m, m = insert_defaults (round1_match div_id p (id m))) ps rows.
Proof.
  induction ps as [|p ps IH]; intros tbl.
  - exists []. by rewrite app_nil_r.
  - cbn [create_round1]. unfold add_match.
    set (r := insert_defaults (round1_match div_id p (fresh_id tbl))).
    assert (id r = fresh_id tbl) as Hr by apply round1_match_id.
    destruct (IH (tbl ++ [r])) as (rows & -> & Hrows).
    exists (r :: rows). split.
    + cbn [map]. by rewrite Hr, <- app_assoc.
    + constructor; [|done]. by rewrite Hr.
Qed.

Lemma first_round_size N :
  (2 ≤ N)%nat →
  let n := (2 ^ Nat.log2_up N / 2)%nat in
  (0 < n ∧ n < N ∧ N ≤ 2 * n ∧ 2 * n = 2 ^ Nat.log2_up N
   ∧ n = 2 ^ (Nat.log2_up N - 1))%nat.
Proof.
  intros HN n.
  destruct (Nat.log2_up_spec N) as [Hlo Hhi]; [lia|].
  assert (0 < Nat.log2_up N)%nat as Hk by (apply Nat.log2_up_pos; lia).
  destruct (Nat.log2_up N) as [|k] eqn:Ek; [lia|].
  assert (n = 2 ^ k)%nat as Hn.
  { unfold n. rewrite Nat.pow_succ_r', Nat.mul_comm. by apply Nat.div_mul. }
  assert (0 < 2 ^ k)%nat by (apply Nat.neq_0_lt_0, Nat.pow_nonzero; lia).
  simpl in Hlo. rewrite Nat.pow_succ_r' in *.
  replace (S k - 1)%nat with k by lia. lia.
Qed.

(** ** Bracket builder: the whole table *)

Lemma build_bracket_shape div_id x tbl :
  (2 ≤ length x)%nat →
  ∃ tbl', build_bracket div_id x tbl = Done tbl' ∧ bracket_shape div_id x tbl tbl'.
Proof.
  intros HN. unfold build_bracket, bracket_shape.
  destruct (first_round_size _ HN) as (Hn0 & HnN & HN2 & Hpow & Hn).
  set (n := (2 ^ Nat.log2_up (length x) / 2)%nat) in *.
  rewrite deal_all by lia. cbn [obind].
  destruct (create_round1_rows div_id (dealt n x) tbl) as (rows0 & -> & Hrows0).
  assert (length rows0 = n) as Hlen0.
  { by rewrite <- (Forall2_length _ _ _ Hrows0), dealt_length. }
  destruct (build_rounds_extends div_id (Nat.log2_up (length x) - 1)
              (length (map id rows0)) 2 (map id rows0) (tbl ++ rows0))
    as (tbl' & -> & pre & later & -> & Hpre & Hlater & Hlenl).
  { done. }
  { by rewrite length_map, Hlen0. }
  { rewrite length_map, Hlen0, Hn. apply Nat.lt_le_incl, Nat.pow_gt_lin_r. lia. }
  apply Forall2_app_inv_l in Hpre as (old & rows & Hold & Hrows & ->).
  exists (old ++ rows ++ later). split; [by rewrite app_assoc|].
  exists old, rows, later. split_and!; try done.
  - unfold dealt in Hrows0. apply Forall2_fmap_l in Hrows0.
    eapply Forall2_trans; [|exact Hrows0|exact Hrows].
    intros j m0 m Hm0 Hm. unfold compose in Hm0. unfold round1_row.
    apply same_but_next_fields in Hm as Hf. destruct Hf as (Hid & _).
    by rewrite Hid, <- Hm0.
  - by rewrite Hlenl, Hn.
Qed.

(** With at least two competitors the builder finishes, answers 200 and
    commits a table of the shape above; nothing but the match table
    changes. *)
Lemma generate_bracket_shape rnd div_id d :
  let cs := competitors_of div_id (competitors d) in
  (2 ≤ length cs)%nat →
  ∃ tbl', generate_bracket rnd div_id d
          = Some (Ok200 (HtmlBracketGenerated (length cs) div_id), with_matches tbl' d)
        ∧ bracket_shape div_id (shuffle rnd cs) (matches d) tbl'.
Proof.
  intros cs HN.
  destruct (build_bracket_shape div_id (shuffle rnd cs) (matches d))
    as (tbl' & Hb & Hshape); [by rewrite shuffle_length|].
  exists tbl'. split; [|done].
  unfold generate_bracket, generate_bracket_view. cbn [begin pending].
  fold cs. assert ((length cs <? 2)%nat = false) as -> by (apply Nat.ltb_ge; lia).
  by rewrite Hb.
Qed.

Lemma created_shape div_id x d tbl' :
  bracket_shape div_id x (matches d) tbl' →
  let n := (2 ^ Nat.log2_up (length x) / 2)%nat in
  ∃ rows later,
    created d (with_matches tbl' d) = rows ++ later
    ∧ Forall2 (round1_row div_id x n) (seq 0 n) rows
    ∧ Forall (later_round_row div_id) later
    ∧ length later = (n - 1)%nat.
Proof.
  intros (old & rows & later & -> & Hold & Hrows & Hlater & Hlen) n.
  exists rows, later. split_and!; try done.
  unfold created. cbn [matches with_matches].
  apply drop_app_length'. by apply Forall2_length in Hold.
Qed.

(** ** Bracket builder: the rows that were already there *)

Lemma fresh_id_avoids tbl0 k :
  Forall (λ m, id m ≠ fresh_id (tbl0 ++ k)) tbl0.
Proof.
  pose proof (fresh_id_above (tbl0 ++ k)) as H.
  apply Forall_app in H as [H _].
  eapply Forall_impl; [exact H|]. simpl. lia.
Qed.

Lemma update_match_prefix tbl0 t p f :
  tbl0 `prefix_of` t → Forall (λ m, id m ≠ p) tbl0 →
  tbl0 `prefix_of` update_match p f t.
Proof.
  intros [k ->] Hp. rewrite update_match_app, update_match_fresh by done.
  by eexists.
Qed.

Lemma link_pair_prefix tbl0 div_id name p1 p2 t :
  tbl0 `prefix_of` t →
  Forall (λ m, id m ≠ p1) tbl0 → Forall (λ m, id m ≠ p2) tbl0 →
  tbl0 `prefix_of` (link_pair div_id name p1 p2 t).2
  ∧ Forall (λ m, id m ≠ (link_pair div_id name p1 p2 t).1) tbl0.
Proof.
  intros Ht H1 H2. unfold link_pair, add_match.
  assert (Forall (λ m, id m ≠ fresh_id t) tbl0) as Hn
    by (destruct Ht as [k ->]; apply fresh_id_avoids).
  assert (tbl0 `prefix_of` t ++ [insert_defaults
            (new_match div_id None None name (fresh_id t))]) as H0
    by by apply prefix_app_r.
  apply (update_match_prefix _ _ p1 (set_next_match_id (Some (fresh_id t)))) in H0;
    [|done].
  apply (update_match_prefix _ _ p2 (set_next_match_id (Some (fresh_id t)))) in H0;
    [|done].
  set (t2 := update_match p2 _ _) in *.
  assert (tbl0 `prefix_of`
            (if truthy (winner_of p1 t2)
             then update_match (fresh_id t) (set_competitor1_id (winner_of p1 t2)) t2
             else t2)) as H3
    by (destruct (truthy _); [by apply update_match_prefix|done]).
  set (t3 := if truthy (winner_of p1 t2) then _ else _) in *.
  cbn [fst snd]. split; [|done].
  destruct (truthy (winner_of p2 t3)); [by apply update_match_prefix|done].
Qed.

Lemma pair_round_prefix tbl0 div_id len rn :
  ∀ k current t next t',
  length current = (2 * k)%nat →
  pair_round div_id len rn current t = Done (next, t') →
  tbl0 `prefix_of` t → Forall (λ p, Forall (λ m, id m ≠ p) tbl0) current →
  tbl0 `prefix_of` t' ∧ Forall (λ p, Forall (λ m, id m ≠ p) tbl0) next.
Proof.
  induction k as [|k IH]; intros current t next t' Hlen Hrun Ht Hcur.
  - destruct current; [|done]. by injection Hrun as <- <-.
  - destruct current as [|p1 [|p2 rest]]; try (simpl in Hlen; lia).
    cbn [pair_round] in Hrun.
    apply Forall_cons in Hcur as [H1 Hcur]. apply Forall_cons in Hcur as [H2 Hcur].
    destruct (link_pair_prefix tbl0 div_id (r_name len rn) p1 p2 t Ht H1 H2)
      as [Ht1 Hn].
    destruct (link_pair _ _ p1 p2 t) as [n t1]. cbn [fst snd] in *.
    destruct (pair_round div_id len rn rest t1) as [[next1 t1']| |] eqn:Hrest;
      try done.
    cbn [obind] in Hrun. injection Hrun as <- <-.
    destruct (IH rest t1 next1 t1') as [Hp Hnext]; try done.
    { simpl in Hlen. lia. }
    split; [done|]. by constructor.
Qed.

Lemma pair_round_halves div_id len rn :
  ∀ current t next t',
  pair_round div_id len rn current t = Done (next, t') →
  length current = (2 * length next)%nat.
Proof.
  fix IH 1. intros [|p1 [|p2 rest]] t next t' Hrun; cbn [pair_round] in Hrun.
  - by injection Hrun as <- <-.
  - done.
  - destruct (link_pair _ _ p1 p2 t) as [n t1].
    destruct (pair_round div_id len rn rest t1) as [[next1 t1']| |] eqn:Hrest;
      try done.
    cbn [obind] in Hrun. injection Hrun as <- <-.
    apply IH in Hrest. simpl. lia.
Qed.

Lemma build_rounds_prefix tbl0 div_id :
  ∀ bound rn current t t',
  build_rounds bound div_id rn current t = Done t' →
  tbl0 `prefix_of` t → Forall (λ p, Forall (λ m, id m ≠ p) tbl0) current →
  tbl0 `prefix_of` t'.
Proof.
  induction bound as [|bound IH]; intros rn current t t' Hrun Ht Hcur;
    cbn [build_rounds] in Hrun;
    destruct (length current <=? 1)%nat; try (by injection Hrun as <-); try done.
  destruct (pair_round _ _ _ current t) as [[next t1]| |] eqn:Hpair; try done.
  cbn [obind] in Hrun.
  pose proof (pair_round_halves _ _ _ _ _ _ _ Hpair) as Hlen.
  destruct (pair_round_prefix tbl0 _ _ _ _ _ _ _ _ Hlen Hpair Ht Hcur) as [Ht1 Hnext].
  by eapply IH.
Qed.

Lemma create_round1_prefix tbl0 div_id ps :
  ∀ t, tbl0 `prefix_of` t →
  tbl0 `prefix_of` (create_round1 div_id ps t).2
  ∧ Forall (λ p, Forall (λ m, id m ≠ p) tbl0) (create_round1 div_id ps t).1.
Proof.
  induction ps as [|p ps IH]; intros t Ht; [done|].
  cbn [create_round1]. unfold add_match.
  set (r := insert_defaults (round1_match div_id p (fresh_id t))).
  destruct (IH (t ++ [r])) as [H1 H2]; [by apply prefix_app_r|].
  destruct (create_round1 div_id ps (t ++ [r])) as [ids t1]. cbn [fst snd] in *.
  split; [done|]. constructor; [|done].
  destruct Ht as [k ->]. apply fresh_id_avoids.
Qed.

(** Whatever the builder answers, the matches stored before are still
    stored, unchanged and in front of the rows it created, and the other
    tables are as they were. *)
Lemma generate_bracket_keeps_old rnd div_id d r d' :
  generate_bracket rnd div_id d = Some (r, d') →
  matches d' = matches d ++ created d d'
  ∧ rings d' = rings d ∧ divisions d' = divisions d
  ∧ competitors d' = competitors d.
Proof.
  unfold generate_bracket, generate_bracket_view. cbn [begin pending].
  destruct (_ <? 2)%nat.
  { intros [= <- <-]. unfold created. by rewrite drop_all, app_nil_r. }
  destruct (build_bracket _ _ _) as [tbl'| |] eqn:Hb; cbn; try done.
  2:{ intros [= <- <-]. unfold created. by rewrite drop_all, app_nil_r. }
  intros [= <- <-]. cbn. split; [|done].
  assert (matches d `prefix_of` tbl') as [k ->]; [|unfold created; cbn;
    by rewrite drop_app_length].
  unfold build_bracket in Hb.
  destruct (deal _ _ _ _) as [ps| |]; try done. cbn [obind] in Hb.
  destruct (create_round1_prefix (matches d) div_id ps (matches d)) as [H1 H2];
    [done|].
  destruct (create_round1 div_id ps (matches d)) as [current t1].
  by eapply build_rounds_prefix.
Qed.

(** The model's loop bound is never reached: the builder always answers. *)
Lemma generate_bracket_total rnd div_id d : is_Some (generate_bracket rnd div_id d).
Proof.
  destruct (decide (2 ≤ length (competitors_of div_id (competitors d)))%nat)
    as [HN|HN].
  - destruct (generate_bracket_shape rnd div_id d HN) as (tbl' & -> & _).
    by eexists.
  - unfold generate_bracket, generate_bracket_view. cbn [begin pending].
    assert ((length (competitors_of div_id (competitors d)) <? 2)%nat = true) as ->
      by (apply Nat.ltb_lt; lia).
    by eexists.
Qed.

(** With fewer than two competitors the builder refuses and stores
    nothing. *)
Lemma generate_bracket_too_few rnd div_id d :
  (length (competitors_of div_id (competitors d)) < 2)%nat →
  generate_bracket rnd div_id d
  = Some (BadRequest400
            (JsonError "Need at least 2 competitors to generate a bracket."), d).
Proof.
  intros HN. unfold generate_bracket, generate_bracket_view. cbn [begin pending].
  by assert ((length (competitors_of div_id (competitors d)) <? 2)%nat = true) as ->
    by (apply Nat.ltb_lt; lia).
Qed.

(** ** Bracket builder: counting *)

Section filters.
Context {A B : Type} (P : A → Prop) (Q : B → Prop).
Context `{!∀ a, Decision (P a)} `{!∀ b, Decision (Q b)}.

Lemma filter_all_of l : Forall P l → filter P l = l.
Proof.
  induction 1 as [|a l Ha _ IH]; [done|]. by rewrite filter_cons_True, IH.
Qed.

Lemma filter_none_of l : Forall (λ a, ¬ P a) l → filter P l = [].
Proof.
  induction 1 as [|a l Ha _ IH]; [done|]. by rewrite filter_cons_False.
Qed.

(** Related lists with equivalent predicates have as many hits. *)
Lemma filter_length_related (R : A → B → Prop) l k :
  Forall2 R l k →
  (∀ a b, a ∈ l → R a b → (P a ↔ Q b)) →
  length (filter P l) = length (filter Q k).
Proof.
  induction 1 as [|a b l k Hab _ IH]; intros HPQ; [done|].
  rewrite !filter_cons.
  assert (P a ↔ Q b) as Hiff by (apply HPQ; [left|done]).
  assert (length (filter P l) = length (filter Q k)) as Hlen
    by (apply IH; intros ????; apply HPQ; [by right|done]).
  repeat case_decide; simpl; try tauto; by rewrite Hlen.
Qed.
End filters.

Lemma count_seq_from a n :
  (a ≤ n)%nat → length (filter (λ j, a ≤ j)%nat (seq 0 n)) = (n - a)%nat.
Proof.
  intros Ha. replace n with (a + (n - a))%nat at 1 by lia.
  rewrite seq_app, filter_app, filter_none_of, filter_all_of.
  - simpl. by rewrite length_seq.
  - apply Forall_forall. intros j Hj%elem_of_seq. lia.
  - apply Forall_forall. intros j Hj%elem_of_seq. lia.
Qed.

(** ** Bracket builder: first-round rows *)

Lemma r_name_not_round1 len rn : (2 ≤ rn)%nat → r_name len rn ≠ "Round 1".
Proof.
  intros Hrn. unfold r_name. repeat case_match; try done.
  intros [= Heq]. change (pretty rn = pretty 1%nat) in Heq.
  apply (inj pretty) in Heq. lia.
Qed.

Lemma later_round_row_not_round1 div_id m :
  later_round_row div_id m →
  round_name m ≠ Some "Round 1" ∧ status m ≠ Some "Completed (Bye)".
Proof.
  intros (_ & -> & _ & len & rn & Hrn & ->). split; [|done].
  intros [= H]. by apply r_name_not_round1 in H.
Qed.

(** What a first-round row looks like when slot 1 of its pairing is taken. *)
Lemma round1_row_fields div_id x n j m c :
  round1_row div_id x n j m → x !! j = Some c →
  round_name m = Some "Round 1"
  ∧ division_id m = div_id
  ∧ competitor1_id m = Some (competitor_pk c)
  ∧ competitor2_id m = competitor_pk <$> x !! (n + j)%nat
  ∧ (is_Some (x !! (n + j)%nat) → status m = Some "Pending" ∧ winner_id m = None)
  ∧ (x !! (n + j)%nat = None →
       status m = Some "Completed (Bye)" ∧ winner_id m = Some (competitor_pk c)).
Proof.
  unfold round1_row. intros H Hc. rewrite Hc in H.
  apply same_but_next_fields in H
    as (_ & Hd & _ & H1 & H2 & Hw & _ & Hs & Hr).
  rewrite Hr, Hd, H1, H2, Hw, Hs. clear.
  destruct (x !! (n + j)%nat) as [c2|]; cbn; by split_and!.
Qed.

(** ** Bracket builder: size, labels and byes of a generated bracket *)

(** C1 as stated fails: three competitors give three match records (two
    first-round matches, one of them a bye, and the final), not two. *)
Lemma three_competitors_three_matches :
  ∃ d', generate_bracket (λ _, 0%nat) 1 (roster [alice; bob; cara])
        = Some (Ok200 (HtmlBracketGenerated 3 1), d')
      ∧ length (created (roster [alice; bob; cara]) d') = 3%nat
      ∧ length (created (roster [alice; bob; cara]) d') ≠ (3 - 1)%nat.
Proof. eexists. split; [by vm_compute|]. by vm_compute. Qed.

(** C1 (amended).  For a division with [N ≥ 2] competitors the builder
    answers 200 and creates exactly [bracketSize - 1] match records, all
    rounds together, where [bracketSize = 2 ^ ceil(log2 N)]; that is [N - 1]
    only when [N] is a power of two.  Concretely 1 record for 2
    competitors, 3 for 3, 3 for 4 and 7 for 5. *)
Theorem bracket_match_count (rnd : nat → nat) (div_id : Z) (d : DB) :
  let N := length (competitors_of div_id (competitors d)) in
  (2 ≤ N)%nat →
  ∃ d', generate_bracket rnd div_id d
        = Some (Ok200 (HtmlBracketGenerated N div_id), d')
      ∧ length (created d d') = (2 ^ Nat.log2_up N - 1)%nat
      ∧ length (matches d') = (length (matches d) + (2 ^ Nat.log2_up N - 1))%nat
      ∧ (N = 2%nat → length (created d d') = 1%nat)
      ∧ (N = 3%nat → length (created d d') = 3%nat)
      ∧ (N = 4%nat → length (created d d') = 3%nat)
      ∧ (N = 5%nat → length (created d d') = 7%nat).
Proof.
  intros N HN.
  destruct (generate_bracket_shape rnd div_id d HN) as (tbl' & Hgen & Hshape).
  fold N in Hgen. exists (with_matches tbl' d). split; [done|].
  pose proof Hshape as (old & rows0 & later0 & Htbl & Hold & _).
  destruct (created_shape _ _ _ _ Hshape) as (rows & later & Hc & Hrows & _ & Hlater).
  rewrite shuffle_length in Hrows, Hlater. fold N in Hrows, Hlater.
  destruct (first_round_size N HN) as (Hn0 & _ & _ & Hpow & _).
  set (n := (2 ^ Nat.log2_up N / 2)%nat) in *.
  apply Forall2_length in Hrows. rewrite length_seq in Hrows.
  assert (length (created d (with_matches tbl' d)) = (2 ^ Nat.log2_up N - 1)%nat)
    as Hcount by (rewrite Hc, length_app; lia).
  split_and!; try done.
  - unfold created in Hcount. rewrite length_drop in Hcount.
    cbn [matches with_matches] in *. apply Forall2_length in Hold.
    rewrite Htbl, !length_app in *. lia.
  - intros E. by rewrite Hcount, E.
  - intros E. by rewrite Hcount, E.
  - intros E. by rewrite Hcount, E.
  - intros E. by rewrite Hcount, E.
Qed.

Lemma bracket_match_count_witness :
  ∃ d', generate_bracket (λ i, i) 1 (roster [alice; bob; cara; dee; eve])
        = Some (Ok200 (HtmlBracketGenerated 5 1), d')
      ∧ length (created (roster [alice; bob; cara; dee; eve]) d') = 7%nat.
Proof.
  destruct (bracket_match_count (λ i, i) 1 (roster [alice; bob; cara; dee; eve]))
    as (d' & Hgen & _ & _ & _ & _ & _ & H5).
  - vm_compute. lia.
  - exists d'. split; [exact Hgen|]. by apply H5.
Defined.

(** C3 as stated fails: the only match of a two-competitor bracket is
    labelled Round 1, not Final. *)
Lemma two_competitors_round1_not_final :
  ∃ d' m, generate_bracket (λ _, 0%nat) 1 (roster [alice; bob])
          = Some (Ok200 (HtmlBracketGenerated 2 1), d')
        ∧ created (roster [alice; bob]) d' = [m]
        ∧ round_name m = Some "Round 1"
        ∧ round_name m ≠ Some "Final".
Proof. eexists _, _. split; [by vm_compute|]. by vm_compute. Qed.

(** C3 (amended).  For a division with exactly two competitors the builder
    creates a single match, between the two of them, pending, without a next
    match, and labelled Round 1; no match of that bracket is labelled
    Final. *)
Theorem two_competitor_bracket (rnd : nat → nat) (div_id : Z) (d : DB) :
  length (competitors_of div_id (competitors d)) = 2%nat →
  ∃ d' a b,
    shuffle rnd (competitors_of div_id (competitors d)) = [a; b]
    ∧ generate_bracket rnd div_id d = Some (Ok200 (HtmlBracketGenerated 2 div_id), d')
    ∧ created d d'
      = [mkMatch (fresh_id (matches d)) div_id None
                 (Some (competitor_pk a)) (Some (competitor_pk b))
                 None None None (Some "Pending") (Some "Round 1")]
    ∧ Forall (λ m, round_name m = Some "Round 1" ∧ round_name m ≠ Some "Final")
             (created d d').
Proof.
  intros HN.
  pose proof (shuffle_length rnd (competitors_of div_id (competitors d))) as Hlen.
  rewrite HN in Hlen.
  destruct (shuffle rnd _) as [|a [|b [|??]]] eqn:Hsh; try done.
  eexists _, a, b. split; [done|].
  unfold generate_bracket, generate_bracket_view. cbn [begin pending].
  rewrite HN, Hsh. cbn -[fresh_id]. split; [reflexivity|].
  unfold created. cbn [matches with_matches]. rewrite drop_app_length.
  split; [done|]. by repeat constructor.
Qed.

Lemma two_competitor_bracket_witness :
  ∃ d', generate_bracket (λ _, 0%nat) 1 (roster [alice; bob])
        = Some (Ok200 (HtmlBracketGenerated 2 1), d')
      ∧ map round_name (created (roster [alice; bob]) d') = [Some "Round 1"].
Proof.
  destruct (two_competitor_bracket (λ _, 0%nat) 1 (roster [alice; bob]))
    as (d' & a & b & _ & Hgen & Hc & _).
  - reflexivity.
  - exists d'. split; [exact Hgen|]. rewrite Hc. reflexivity.
Defined.

(** Every pairing index [j < n] has its first slot dealt, and its second
    slot exactly when [n + j] is still an index of the competitor list. *)
Lemma dealt_slots n (x : list Competitor) j :
  (n < length x)%nat → (j < n)%nat →
  is_Some (x !! j)
  ∧ (is_Some (x !! (n + j)%nat) ↔ (n + j < length x)%nat).
Proof.
  intros Hn Hj. split.
  - apply lookup_lt_is_Some. lia.
  - apply lookup_lt_is_Some.
Qed.

(** C4.  For [N ≥ 2] competitors the builder answers 200, the number of
    created first-round matches with status Completed (Bye) is
    [bracketSize - N] with [bracketSize = 2 ^ ceil(log2 N)], and every
    created match with that status has exactly one occupied slot, whose
    competitor is its winner. *)
Theorem bye_count_and_winner (rnd : nat → nat) (div_id : Z) (d : DB) :
  let N := length (competitors_of div_id (competitors d)) in
  (2 ≤ N)%nat →
  ∃ d', generate_bracket rnd div_id d
        = Some (Ok200 (HtmlBracketGenerated N div_id), d')
      ∧ length (filter round1_bye (created d d')) = (2 ^ Nat.log2_up N - N)%nat
      ∧ Forall (λ m, status m = Some "Completed (Bye)" →
                     is_Some (lone_occupant m) ∧ winner_id m = lone_occupant m)
               (created d d').
Proof.
  intros N HN.
  destruct (generate_bracket_shape rnd div_id d HN) as (tbl' & Hgen & Hshape).
  fold N in Hgen. exists (with_matches tbl' d). split; [done|].
  destruct (created_shape _ _ _ _ Hshape) as (rows & later & -> & Hrows & Hlater & _).
  set (x := shuffle rnd (competitors_of div_id (competitors d))) in *.
  assert (length x = N) as Hx by apply shuffle_length.
  rewrite Hx in Hrows.
  destruct (first_round_size N HN) as (Hn0 & HnN & HN2 & Hpow & _).
  set (n := (2 ^ Nat.log2_up N / 2)%nat) in *.
  split.
  - rewrite filter_app, length_app, (filter_none_of _ later), Nat.add_0_r.
    + rewrite <- (filter_length_related (λ j, N - n ≤ j)%nat round1_bye
                    _ _ _ Hrows).
      * rewrite count_seq_from by lia. lia.
      * intros j m Hj%elem_of_seq Hrow.
        destruct (dealt_slots n x j) as [[c Hc] Hsnd]; [lia..|].
        destruct (round1_row_fields _ _ _ _ _ _ Hrow Hc)
          as (Hr & _ & _ & _ & Hfull & Hbye).
        unfold round1_bye. destruct (x !! (n + j)%nat) as [c2|] eqn:E.
        -- destruct Hfull as [Hs _]; [done|]. rewrite Hs.
           assert (n + j < length x)%nat by (apply Hsnd; by eexists).
           split; [lia|]. by intros [_ [=]].
        -- destruct Hbye as [Hs _]; [done|].
           apply lookup_ge_None_1 in E. split; [done|lia].
    + eapply Forall_impl; [exact Hlater|]. intros m Hm [_ Hs].
      by apply later_round_row_not_round1 in Hm as [_ Hm].
  - apply Forall_app. split.
    + apply Forall_forall. intros m Hm. apply list_elem_of_lookup in Hm as [k Hk].
      destruct (Forall2_lookup_r _ _ _ _ _ Hrows Hk) as (j & Hj & Hrow).
      apply lookup_seq in Hj as [-> Hj]. simpl in Hrow.
      destruct (dealt_slots n x k) as [[c Hc] _]; [lia..|].
      destruct (round1_row_fields _ _ _ _ _ _ Hrow Hc)
        as (_ & _ & H1 & H2 & Hfull & Hbye).
      unfold lone_occupant. rewrite H1, H2.
      destruct (x !! (n + k)%nat) as [c2|]; cbn.
      * destruct Hfull as [-> _]; done.
      * destruct Hbye as [_ ->]; done.
    + eapply Forall_impl; [exact Hlater|]. intros m Hm Hs.
      by apply later_round_row_not_round1 in Hm as [_ Hm].
Qed.

Lemma bye_count_and_winner_witness :
  ∃ d', generate_bracket (λ i, i) 1 (roster [alice; bob; cara; dee; eve])
        = Some (Ok200 (HtmlBracketGenerated 5 1), d')
      ∧ length (filter round1_bye (created (roster [alice; bob; cara; dee; eve]) d'))
        = 3%nat.
Proof.
  destruct (bye_count_and_winner (λ i, i) 1 (roster [alice; bob; cara; dee; eve]))
    as (d' & Hgen & Hbyes & _).
  - vm_compute. lia.
  - exists d'. split; [exact Hgen|exact Hbyes].
Defined.

(** C10.  For [N ≥ 2] competitors the dealing loop returns pairings whose
    first slot is taken in every one of them, so the branch for a pairing
    with only its second slot taken is never entered; every created match
    labelled Round 1 has a competitor of the division in slot 1, and a bye
    has slot 2 empty and the slot-1 competitor as its winner. *)
Theorem round1_slot1_occupied (rnd : nat → nat) (div_id : Z) (d : DB) :
  let cs := competitors_of div_id (competitors d) in
  let n := (2 ^ Nat.log2_up (length cs) / 2)%nat in
  (2 ≤ length cs)%nat →
  ∃ d' match_pairings,
    generate_bracket rnd div_id d
      = Some (Ok200 (HtmlBracketGenerated (length cs) div_id), d')
    ∧ deal n 0 (shuffle rnd cs) (replicate n (None, None)) = Done match_pairings
    ∧ Forall (λ p : pairing, is_Some p.1) match_pairings
    ∧ Forall (λ m, round_name m = Some "Round 1" →
                (∃ c, c ∈ cs ∧ competitor1_id m = Some (competitor_pk c))
                ∧ (status m = Some "Completed (Bye)" →
                     competitor2_id m = None ∧ winner_id m = competitor1_id m))
             (created d d').
Proof.
  intros cs n HN.
  destruct (generate_bracket_shape rnd div_id d HN) as (tbl' & Hgen & Hshape).
  fold cs in Hgen. exists (with_matches tbl' d).
  destruct (created_shape _ _ _ _ Hshape) as (rows & later & -> & Hrows & Hlater & _).
  fold cs in Hrows. set (x := shuffle rnd cs) in *.
  assert (length x = length cs) as Hx by apply shuffle_length.
  rewrite Hx in Hrows. fold n in Hrows.
  destruct (first_round_size _ HN) as (Hn0 & HnN & HN2 & _). fold n in Hn0, HnN, HN2.
  exists (dealt n x). split_and!; try done.
  - apply deal_all; lia.
  - apply Forall_forall. intros p Hp. unfold dealt in Hp.
    apply list_elem_of_fmap in Hp as (j & -> & Hj%elem_of_seq). simpl.
    apply (dealt_slots n x j); lia.
  - apply Forall_app. split.
    + apply Forall_forall. intros m Hm. apply list_elem_of_lookup in Hm as [k Hk].
      destruct (Forall2_lookup_r _ _ _ _ _ Hrows Hk) as (j & Hj & Hrow).
      apply lookup_seq in Hj as [-> Hj]. simpl in Hrow.
      destruct (dealt_slots n x k) as [[c Hc] _]; [lia..|].
      destruct (round1_row_fields _ _ _ _ _ _ Hrow Hc)
        as (_ & _ & H1 & H2 & Hfull & Hbye).
      intros _. split.
      * exists c. split; [|done].
        rewrite <- (shuffle_Permutation rnd cs). fold x.
        by eapply list_elem_of_lookup_2.
      * intros Hs. rewrite H1, H2.
        destruct (x !! (n + k)%nat) as [c2|]; cbn.
        -- destruct Hfull as [Hs' _]; [done|]. congruence.
        -- by destruct Hbye as [_ ->].
    + eapply Forall_impl; [exact Hlater|]. intros m Hm Hr.
      by apply later_round_row_not_round1 in Hm as [Hm _].
Qed.

Lemma round1_slot1_occupied_witness :
  ∃ d', generate_bracket (λ i, i) 1 (roster [alice; bob; cara]) 
        = Some (Ok200 (HtmlBracketGenerated 3 1), d')
      ∧ Forall (λ m, round_name m = Some "Round 1" → is_Some (competitor1_id m))
               (created (roster [alice; bob; cara]) d').
Proof.
  destruct (round1_slot1_occupied (λ i, i) 1 (roster [alice; bob; cara]))
    as (d' & ps & Hgen & _ & _ & Hall).
  - vm_compute. lia.
  - exists d'. split; [exact Hgen|].
    eapply Forall_impl; [exact Hall|]. intros m Hm Hr.
    destruct (Hm Hr) as [(c & _ & ->) _]. by eexists.
Defined.

(** ** The sample databases are states the application reaches *)

Lemma bracket_four_generated :
  generate_bracket (λ i, i) 1 (roster [alice; bob; cara; dee])
  = Some (Ok200 (HtmlBracketGenerated 4 1), bracket_four).
Proof. by vm_compute. Qed.

Lemma bracket_four_final_set_recorded :
  (record_result 2 (Some "Completed") (Some 4%Z)
     (record_result 1 (Some "Completed") (Some 1%Z) bracket_four).2).2
  = bracket_four_final_set.
Proof. by vm_compute. Qed.

(** The scenario of three competitors: one bye is resolved by the builder,
    and the result of the other first-round match fills the final. *)
Lemma three_competitors_scenario :
  ∃ d1 d2,
    generate_bracket (λ i, i) 1 (roster [alice; bob; cara])
      = Some (Ok200 (HtmlBracketGenerated 3 1), d1)
    ∧ length (filter round1_bye (matches d1)) = 1%nat
    ∧ slots_at 3 d1 = Some (None, Some 2%Z)
    ∧ record_result 1 (Some "Completed") (Some 3%Z) d1
      = (Ok200 (JsonMessage "Result recorded and bracket updated."), d2)
    ∧ slots_at 3 d2 = Some (Some 3%Z, Some 2%Z).
Proof. eexists _, _. split_and!; by vm_compute. Qed.

(** The scheduled bracket is what scheduling the two first-round matches of
    the four-competitor bracket gives. *)
Lemma bracket_four_scheduled_reached :
  (schedule_match_htmx 2 (FieldInt 6) (FieldInt 1)
     (schedule_match_htmx 1 (FieldInt 5) (FieldInt 25)
        (with_rings [mkRing 5 "Ring 5"; mkRing 6 "Ring 6"] bracket_four)).2).2
  = bracket_four_scheduled.
Proof. by vm_compute. Qed.

(** ** Bracket builder: keys and links of the created rows *)

Lemma fresh_id_app tbl1 tbl2 :
  fresh_id (tbl1 ++ tbl2) = Z.max (fresh_id tbl1) (fresh_id tbl2).
Proof.
  unfold fresh_id. induction tbl1 as [|m tbl1 IH]; simpl.
  - assert (0 ≤ foldr (λ m acc, Z.max (id m) acc) 0 tbl2)%Z; [|lia].
    induction tbl2; simpl; lia.
  - lia.
Qed.

Lemma fresh_id_pos tbl : (1 ≤ fresh_id tbl)%Z.
Proof. unfold fresh_id. induction tbl; simpl; lia. Qed.

Lemma fresh_id_snoc tbl r :
  id r = fresh_id tbl → fresh_id (tbl ++ [r]) = (fresh_id tbl + 1)%Z.
Proof.
  intros Hr. rewrite fresh_id_app. pose proof (fresh_id_pos tbl).
  unfold fresh_id at 2. simpl. lia.
Qed.

Lemma consecutive_snoc f C r :
  consecutive f C → id r = (f + Z.of_nat (length C))%Z → consecutive f (C ++ [r]).
Proof.
  intros HC Hr p m Hp. apply lookup_app_Some in Hp as [Hp|[Hlen Hp]].
  - by apply HC.
  - apply list_lookup_singleton_Some in Hp as [Hp <-]. rewrite Hr. f_equal. lia.
Qed.

Lemma consecutive_alter f C g p :
  (∀ m, id (g m) = id m) → consecutive f C → consecutive f (alter g p C).
Proof.
  intros Hg HC q m Hq. destruct (decide (p = q)) as [->|Hne].
  - rewrite list_lookup_alter_eq in Hq.
    destruct (C !! q) as [m0|] eqn:E; simplify_eq/=. rewrite Hg. by apply HC.
  - rewrite list_lookup_alter_ne in Hq by done. by apply HC.
Qed.

Lemma fresh_id_created tbl0 C :
  consecutive (fresh_id tbl0) C →
  fresh_id (tbl0 ++ C) = (fresh_id tbl0 + Z.of_nat (length C))%Z.
Proof.
  induction C as [|r C IH] using rev_ind; intros HC.
  - rewrite app_nil_r. simpl. lia.
  - assert (consecutive (fresh_id tbl0) C) as HC'.
    { intros p m Hp. apply HC. by apply lookup_app_l_Some. }
    rewrite app_assoc, fresh_id_snoc, IH, length_app by
      (try done; rewrite IH by done; apply HC;
       by rewrite lookup_app_r, Nat.sub_diag by lia).
    simpl. lia.
Qed.

Lemma get_match_keyed f C p :
  consecutive f C → get_match (f + Z.of_nat p) C = C !! p.
Proof.
  revert f p. induction C as [|m C IH]; intros f p HC; [done|].
  simpl. pose proof (HC 0%nat m eq_refl) as Hm.
  destruct p as [|p].
  - by assert ((id m =? f + Z.of_nat 0)%Z = true) as -> by (apply Z.eqb_eq; lia).
  - assert ((id m =? f + Z.of_nat (S p))%Z = false) as -> by (apply Z.eqb_neq; lia). simpl.
    replace (f + Z.of_nat (S p))%Z with ((f + 1) + Z.of_nat p)%Z by lia.
    apply IH. intros q m' Hq. rewrite (HC (S q) m' Hq). lia.
Qed.

Lemma get_match_app_above key tbl0 C :
  Forall (λ m, id m ≠ key) tbl0 → get_match key (tbl0 ++ C) = get_match key C.
Proof.
  induction 1 as [|m tbl0 Hm _ IH]; [done|]. simpl.
  by assert ((id m =? key)%Z = false) as -> by lia.
Qed.

(** The session object with key [fresh + p] is the [p]-th created row. *)
Lemma get_match_created tbl0 C p :
  consecutive (fresh_id tbl0) C →
  get_match (fresh_id tbl0 + Z.of_nat p) (tbl0 ++ C) = C !! p.
Proof.
  intros HC. rewrite get_match_app_above.
  - by apply get_match_keyed.
  - eapply Forall_impl; [apply fresh_id_above|]. simpl. lia.
Qed.

Lemma update_match_keyed f C p g :
  consecutive f C →
  update_match (f + Z.of_nat p) g C = alter g p C.
Proof.
  revert f p. induction C as [|m C IH]; intros f p HC; [done|].
  pose proof (HC 0%nat m eq_refl) as Hm. simpl.
  assert (consecutive (f + 1) C) as HC'.
  { intros q m' Hq. rewrite (HC (S q) m' Hq). lia. }
  destruct p as [|p].
  - assert ((id m =? f + Z.of_nat 0)%Z = true) as -> by (apply Z.eqb_eq; lia). simpl. f_equal.
    apply update_match_fresh, Forall_forall. intros m' Hm'.
    apply list_elem_of_lookup in Hm' as [q Hq]. rewrite (HC' _ _ Hq). lia.
  - assert ((id m =? f + Z.of_nat (S p))%Z = false) as -> by (apply Z.eqb_neq; lia). simpl. f_equal.
    replace (f + Z.of_nat (S p))%Z with ((f + 1) + Z.of_nat p)%Z by lia. by apply IH.
Qed.

(** Assigning to the object with key [fresh + p] changes the [p]-th created
    row and nothing else. *)
Lemma update_match_created tbl0 C p g :
  consecutive (fresh_id tbl0) C →
  update_match (fresh_id tbl0 + Z.of_nat p) g (tbl0 ++ C) = tbl0 ++ alter g p C.
Proof.
  intros HC. rewrite update_match_app, (update_match_keyed _ C) by done.
  rewrite update_match_fresh; [done|].
  eapply Forall_impl; [apply fresh_id_above|]. simpl. lia.
Qed.

Lemma alter_keeps_winner (g : Match → Match) (l : list Match) (i p : nat) :
  (∀ m, winner_id (g m) = winner_id m) →
  alter g i l !! p ≫= winner_id = l !! p ≫= winner_id.
Proof.
  intros Hg. destruct (decide (i = p)) as [->|Hne].
  - rewrite list_lookup_alter_eq. destruct (l !! p); simpl; [apply Hg|done].
  - by rewrite list_lookup_alter_ne.
Qed.

(** The loop body, with the objects addressed by their position among the
    created rows. *)
Lemma link_pair_closed div_id name tbl0 C a :
  consecutive (fresh_id tbl0) C → (S a < length C)%nat →
  link_pair div_id name (fresh_id tbl0 + Z.of_nat a) (fresh_id tbl0 + Z.of_nat (S a))
    (tbl0 ++ C)
  = ((fresh_id tbl0 + Z.of_nat (length C))%Z,
     tbl0 ++ link_step div_id name (fresh_id tbl0) a C).
Proof.
  intros HC Ha. unfold link_pair, add_match, link_step.
  rewrite fresh_id_created by done.
  set (n := (fresh_id tbl0 + Z.of_nat (length C))%Z).
  set (r0 := insert_defaults (new_match div_id None None name n)).
  set (nx := set_next_match_id (Some n)).
  assert (consecutive (fresh_id tbl0) (C ++ [r0])) as HC0 by by apply consecutive_snoc.
  rewrite <- app_assoc.
  rewrite (update_match_created tbl0 (C ++ [r0]) a) by done.
  assert (consecutive (fresh_id tbl0) (alter nx a (C ++ [r0]))) as HC1
    by by apply consecutive_alter.
  rewrite (update_match_created tbl0 _ (S a)) by done.
  set (C2 := alter nx (S a) (alter nx a (C ++ [r0]))).
  assert (consecutive (fresh_id tbl0) C2) as HC2 by by apply consecutive_alter.
  assert (∀ p, C2 !! p ≫= winner_id = (C ++ [r0]) !! p ≫= winner_id) as Hw.
  { intros p. unfold C2. by rewrite !alter_keeps_winner. }
  unfold winner_of.
  rewrite (get_match_created tbl0 C2 a) by done.
  rewrite Hw, (lookup_app_l C) by lia.
  set (w1 := C !! a ≫= winner_id).
  assert (length C2 = S (length C)) as Hlen2.
  { unfold C2. rewrite !length_alter, length_app. simpl. lia. }
  assert (C2 = alter nx (S a) (alter nx a C) ++ [r0]) as HC2eq.
  { unfold C2. rewrite !alter_app_l by (rewrite ?length_alter; lia). done. }
  assert ((if truthy w1
           then update_match n (set_competitor1_id w1) (tbl0 ++ C2)
           else tbl0 ++ C2)
          = tbl0 ++ alter nx (S a) (alter nx a C)
                 ++ [set_competitor1_id (pushed w1) r0]) as ->.
  { unfold pushed. destruct (truthy w1); [|by rewrite HC2eq].
    unfold n. rewrite (update_match_created tbl0 C2 (length C)) by done.
    rewrite HC2eq. f_equal.
    rewrite alter_app_r_alt by (rewrite !length_alter; lia).
    by rewrite !length_alter, Nat.sub_diag. }
  set (C3 := alter nx (S a) (alter nx a C) ++ [set_competitor1_id (pushed w1) r0]).
  assert (consecutive (fresh_id tbl0) C3) as HC3.
  { unfold C3. apply (consecutive_snoc _ (alter nx (S a) (alter nx a C)));
      [|by rewrite !length_alter].
    apply (consecutive_alter _ _ nx); [done|].
    by apply (consecutive_alter _ _ nx). }
  rewrite (get_match_created tbl0 C3 (S a)) by done.
  assert (C3 !! S a ≫= winner_id = C !! S a ≫= winner_id) as ->.
  { unfold C3. rewrite lookup_app_l by (rewrite !length_alter; lia).
    by rewrite !alter_keeps_winner. }
  set (w2 := C !! S a ≫= winner_id).
  assert (set_competitor2_id (pushed w2) (set_competitor1_id (pushed w1) r0)
          = later_row div_id name n w1 w2) as Hrow by done.
  f_equal. destruct (truthy w2) eqn:Hw2.
  - unfold n at 1. rewrite (update_match_created tbl0 C3 (length C)) by done.
    f_equal. unfold C3.
    rewrite alter_app_r_alt by (rewrite !length_alter; lia).
    rewrite !length_alter, Nat.sub_diag. simpl.
    assert (pushed w2 = w2) as Hp by (unfold pushed; by rewrite Hw2).
    by rewrite <- Hrow, Hp.
  - assert (pushed w2 = None) as Hp by (unfold pushed; by rewrite Hw2).
    unfold C3. by rewrite <- Hrow, Hp.
Qed.

Lemma link_step_length div_id name f a C :
  length (link_step div_id name f a C) = S (length C).
Proof. unfold link_step. rewrite length_app, !length_alter. simpl. lia. Qed.

Lemma link_step_consecutive div_id name f a C :
  consecutive f C → consecutive f (link_step div_id name f a C).
Proof.
  intros HC. unfold link_step.
  set (nx := set_next_match_id _).
  apply (consecutive_snoc _ (alter nx (S a) (alter nx a C)));
    [|by rewrite !length_alter].
  apply (consecutive_alter _ _ nx); [done|].
  by apply (consecutive_alter _ _ nx).
Qed.

Lemma grow_length div_id name f r : ∀ C a,
  length (grow div_id name f C a r) = (length C + r)%nat.
Proof.
  induction r as [|r IH]; intros C a; simpl; [lia|].
  rewrite IH, link_step_length. lia.
Qed.

Lemma grow_consecutive div_id name f r : ∀ C a,
  consecutive f C → consecutive f (grow div_id name f C a r).
Proof.
  induction r as [|r IH]; intros C a HC; simpl; [done|].
  by apply IH, link_step_consecutive.
Qed.

Lemma keys_cons f a k : keys f a (S k) = (f + Z.of_nat a)%Z :: keys f (S a) k.
Proof. done. Qed.

Lemma keys_length f a k : length (keys f a k) = k.
Proof. unfold keys. by rewrite length_map, length_seq. Qed.

(** One pass of the pairing loop over the rows [a], ..., [a + 2 r - 1]. *)
Lemma pair_round_closed div_id len rn tbl0 r : ∀ C a,
  consecutive (fresh_id tbl0) C → (a + 2 * r ≤ length C)%nat →
  pair_round div_id len rn (keys (fresh_id tbl0) a (2 * r)) (tbl0 ++ C)
  = Done (keys (fresh_id tbl0) (length C) r,
          tbl0 ++ grow div_id (r_name len rn) (fresh_id tbl0) C a r).
Proof.
  induction r as [|r IH]; intros C a HC Ha; [done|].
  replace (2 * S r)%nat with (S (S (2 * r))) by lia.
  rewrite !keys_cons. cbn [pair_round].
  rewrite link_pair_closed by (try done; lia).
  rewrite IH by (rewrite ?link_step_length; try lia; by apply link_step_consecutive).
  cbn [obind grow]. rewrite link_step_length.
  by replace (a + 2)%nat with (S (S a)) by lia.
Qed.

(** The [while] loop on the round of [2 ^ j] rows that starts at row [s]. *)
Lemma build_rounds_closed div_id tbl0 j : ∀ bound rn C s,
  consecutive (fresh_id tbl0) C → length C = (s + 2 ^ j)%nat → (j ≤ bound)%nat →
  build_rounds bound div_id rn (keys (fresh_id tbl0) s (2 ^ j)) (tbl0 ++ C)
  = Done (tbl0 ++ rounds div_id (fresh_id tbl0) j rn C s).
Proof.
  induction j as [|j IH]; intros bound rn C s HC Hlen Hb.
  - by destruct bound.
  - destruct bound as [|bound]; [lia|]. cbn [build_rounds rounds].
    assert (0 < 2 ^ j)%nat as Hpos by (apply Nat.neq_0_lt_0, Nat.pow_nonzero; lia).
    assert (2 ^ S j = 2 * 2 ^ j)%nat as Hpow by (simpl; lia).
    rewrite keys_length.
    assert ((2 ^ S j <=? 1)%nat = false) as -> by (apply Nat.leb_gt; lia).
    rewrite Hpow at 2. rewrite pair_round_closed by (try done; lia).
    cbn [obind]. rewrite Hlen.
    apply IH; [by apply grow_consecutive|rewrite grow_length; lia|lia].
Qed.

Lemma round1_rows_snoc div_id f ps pr :
  round1_rows div_id f (ps ++ [pr])
  = round1_rows div_id f ps
    ++ [insert_defaults (round1_match div_id pr (f + Z.of_nat (length ps))%Z)].
Proof.
  unfold round1_rows. rewrite imap_app. simpl. by rewrite Nat.add_0_r.
Qed.

Lemma round1_rows_length div_id f ps : length (round1_rows div_id f ps) = length ps.
Proof. apply length_imap. Qed.

Lemma round1_rows_lookup div_id f ps p :
  round1_rows div_id f ps !! p
  = (λ pr, insert_defaults (round1_match div_id pr (f + Z.of_nat p)%Z)) <$> ps !! p.
Proof. apply list_lookup_imap. Qed.

Lemma round1_rows_consecutive div_id f ps : consecutive f (round1_rows div_id f ps).
Proof.
  intros p m. rewrite round1_rows_lookup. destruct (ps !! p); [|done].
  intros [= <-]. apply round1_match_id.
Qed.

(** Step 3, with the keys the rows get. *)
Lemma create_round1_closed div_id tbl0 ps : ∀ done_ps,
  create_round1 div_id ps (tbl0 ++ round1_rows div_id (fresh_id tbl0) done_ps)
  = (keys (fresh_id tbl0) (length done_ps) (length ps),
     tbl0 ++ round1_rows div_id (fresh_id tbl0) (done_ps ++ ps)).
Proof.
  induction ps as [|pr ps IH]; intros done_ps.
  - by rewrite app_nil_r.
  - cbn [create_round1]. unfold add_match.
    rewrite fresh_id_created, round1_rows_length by apply round1_rows_consecutive.
    rewrite <- app_assoc, <- round1_rows_snoc, IH.
    rewrite <- app_assoc, length_app. simpl.
    by rewrite Nat.add_1_r.
Qed.

(** The match table the builder leaves, in closed form. *)
Lemma build_bracket_closed div_id x tbl0 :
  (2 ≤ length x)%nat →
  let n := (2 ^ Nat.log2_up (length x) / 2)%nat in
  build_bracket div_id x tbl0
  = Done (tbl0 ++ rounds div_id (fresh_id tbl0) (Nat.log2_up (length x) - 1) 2
                    (round1_rows div_id (fresh_id tbl0) (dealt n x)) 0).
Proof.
  intros HN n. unfold build_bracket.
  destruct (first_round_size _ HN) as (Hn0 & HnN & HN2 & Hpow & Hn). fold n in Hn0, HnN, HN2, Hpow, Hn.
  fold n. rewrite deal_all by lia. cbn [obind].
  pose proof (create_round1_closed div_id tbl0 (dealt n x) []) as Hc.
  simpl in Hc. rewrite app_nil_r in Hc. rewrite Hc, dealt_length, keys_length.
  pose proof (build_rounds_closed div_id tbl0 (Nat.log2_up (length x) - 1) n 2
                (round1_rows div_id (fresh_id tbl0) (dealt n x)) 0) as Hb.
  rewrite <- Hn in Hb. apply Hb.
  - apply round1_rows_consecutive.
  - by rewrite round1_rows_length, dealt_length.
  - rewrite Hn. apply Nat.lt_le_incl, Nat.pow_gt_lin_r. lia.
Qed.

Lemma half_step (p a : nat) :
  (a + 2 ≤ p)%nat → ((p - a) / 2 = S ((p - (a + 2)) / 2))%nat.
Proof.
  intros. replace (p - a)%nat with (1 * 2 + (p - (a + 2)))%nat by lia.
  rewrite Nat.div_add_l by lia. lia.
Qed.

Lemma half_add (k q : nat) : ((2 * k + q) / 2 = k + q / 2)%nat.
Proof. rewrite Nat.mul_comm, Nat.div_add_l by lia. lia. Qed.

Lemma link_step_lookup_old div_id name f a C p :
  (p < length C)%nat →
  link_step div_id name f a C !! p
  = if decide (p = a ∨ p = S a)
    then set_next_match_id (Some (f + Z.of_nat (length C))%Z) <$> C !! p
    else C !! p.
Proof.
  intros Hp. unfold link_step. rewrite lookup_app_l by (rewrite !length_alter; lia).
  destruct (decide (p = S a)) as [->|H1].
  - rewrite list_lookup_alter_eq, list_lookup_alter_ne by lia.
    by rewrite decide_True by auto.
  - rewrite list_lookup_alter_ne by done.
    destruct (decide (p = a)) as [->|H2].
    + rewrite list_lookup_alter_eq. by rewrite decide_True by auto.
    + rewrite list_lookup_alter_ne by done. by rewrite decide_False by lia.
Qed.

Lemma link_step_lookup_new div_id name f a C :
  link_step div_id name f a C !! length C
  = Some (later_row div_id name (f + Z.of_nat (length C))%Z
            (C !! a ≫= winner_id) (C !! S a ≫= winner_id)).
Proof.
  unfold link_step. rewrite lookup_app_r by (rewrite !length_alter; lia).
  by rewrite !length_alter, Nat.sub_diag.
Qed.

(** The rows that were there before a pass: those of the round being paired
    get their link, the others stay. *)
Lemma grow_lookup_old div_id name f r : ∀ C a p,
  (a + 2 * r ≤ length C)%nat → (p < length C)%nat →
  grow div_id name f C a r !! p
  = if decide (a ≤ p < a + 2 * r)%nat
    then set_next_match_id
           (Some (f + Z.of_nat (length C + (p - a) / 2))%Z) <$> C !! p
    else C !! p.
Proof.
  induction r as [|r IH]; intros C a p Ha Hp.
  - simpl. by rewrite decide_False by lia.
  - cbn [grow]. rewrite IH by (rewrite link_step_length; lia).
    rewrite link_step_length, link_step_lookup_old by done.
    destruct (decide (p = a ∨ p = S a)) as [Hpa|Hpa].
    + rewrite decide_False, decide_True by lia.
      assert ((p - a) / 2 = 0)%nat as ->
        by (apply Nat.div_small; lia).
      by rewrite Nat.add_0_r.
    + destruct (decide (a + 2 ≤ p < a + 2 + 2 * r)%nat) as [Hr|Hr].
      * rewrite decide_True by lia. rewrite (half_step p a) by lia.
        do 3 f_equal. lia.
      * by rewrite decide_False by lia.
Qed.

(** The rows a pass appends: row [q] of the new round is fed by rows
    [a + 2 q] and [a + 2 q + 1]. *)
Lemma grow_lookup_new div_id name f r : ∀ C a q,
  (a + 2 * r ≤ length C)%nat → (q < r)%nat →
  grow div_id name f C a r !! (length C + q)%nat
  = Some (later_row div_id name (f + Z.of_nat (length C + q))%Z
            (C !! (a + 2 * q)%nat ≫= winner_id)
            (C !! (a + 2 * q + 1)%nat ≫= winner_id)).
Proof.
  induction r as [|r IH]; intros C a q Ha Hq; [lia|].
  cbn [grow]. destruct q as [|q].
  - rewrite grow_lookup_old by (rewrite link_step_length; lia).
    rewrite decide_False by lia.
    rewrite !Nat.add_0_r, link_step_lookup_new.
    by replace (a + 1)%nat with (S a) by lia.
  - pose proof (IH (link_step div_id name f a C) (a + 2)%nat q) as H.
    rewrite link_step_length in H.
    replace (length C + S q)%nat with (S (length C) + q)%nat by lia.
    rewrite H by lia.
    assert (∀ i, (a + 2 ≤ i < length C)%nat →
              link_step div_id name f a C !! i ≫= winner_id = C !! i ≫= winner_id)
      as Hw.
    { intros i Hi. rewrite link_step_lookup_old by lia.
      by rewrite decide_False by lia. }
    rewrite !Hw by lia. do 3 f_equal; f_equal; lia.
Qed.

Lemma half_double (k : nat) : (2 * k / 2 = k)%nat.
Proof. rewrite Nat.mul_comm. apply Nat.div_mul. lia. Qed.

Lemma set_next_keeps_winner x (o : option Match) :
  (set_next_match_id x <$> o) ≫= winner_id = o ≫= winner_id.
Proof. by destruct o. Qed.

(** All rounds after the one of [2 ^ j] rows starting at row [s], where
    [T - 1 = s + 2 ^ (j + 1) - 1] rows exist in the end: the parent of row
    [p] is row [T / 2 + p / 2], and the feeders of a later row [p] are rows
    [2 p - T] and [2 p - T + 1]. *)
Lemma rounds_spec div_id f j : ∀ rn C s,
  length C = (s + 2 ^ j)%nat → Nat.Even s →
  let R := rounds div_id f j rn C s in
  let T := (s + 2 ^ S j)%nat in
  length R = (T - 1)%nat
  ∧ (∀ p, (p < s)%nat → R !! p = C !! p)
  ∧ (∀ p, (s ≤ p < s + 2 ^ j)%nat →
       R !! p = if decide (j = 0%nat) then C !! p
                else set_next_match_id
                       (Some (f + Z.of_nat (T / 2 + p / 2))%Z) <$> C !! p)
  ∧ (∀ p, (s + 2 ^ j ≤ p < T - 1)%nat →
       ∃ name, R !! p
         = Some (set_next_match_id
                   (if decide (p < T - 2)%nat
                    then Some (f + Z.of_nat (T / 2 + p / 2))%Z else None)
                   (later_row div_id name (f + Z.of_nat p)%Z
                      (R !! (2 * p - T)%nat ≫= winner_id)
                      (R !! (2 * p - T + 1)%nat ≫= winner_id)))).
Proof.
  induction j as [|j IH]; intros rn C s Hlen Hs R T.
  - subst R T. simpl in *. split_and!; try done; [lia|intros p Hp; lia].
  - assert (0 < 2 ^ j)%nat as Hpos by (apply Nat.neq_0_lt_0, Nat.pow_nonzero; lia).
    assert (2 ^ S j = 2 * 2 ^ j)%nat as Hpow by (simpl; lia).
    assert (2 ^ S (S j) = 4 * 2 ^ j)%nat as Hpow2 by (simpl; lia).
    set (name := r_name (2 ^ S j) rn).
    set (C1 := grow div_id name f C s (2 ^ j)).
    set (s' := (s + 2 ^ S j)%nat).
    assert (length C1 = (s' + 2 ^ j)%nat) as Hlen1
      by (unfold C1, s'; rewrite grow_length; lia).
    assert (Nat.Even s') as Hs'.
    { destruct Hs as [h ->]. exists (h + 2 ^ j)%nat. unfold s'. lia. }
    destruct (IH (S rn) C1 s' Hlen1 Hs') as (IHlen & IHold & IHcur & IHnew).
    change (rounds div_id f j (S rn) C1 s') with R in IHlen, IHold, IHcur, IHnew.
    assert (s' + 2 ^ S j = T)%nat as HT by (unfold s', T; lia).
    rewrite HT in IHlen, IHcur, IHnew.
    assert (T / 2 = s / 2 + 2 ^ S j)%nat as HT2.
    { unfold T. rewrite Hpow2, Hpow. destruct Hs as [h ->].
      replace (2 * h + 4 * 2 ^ j)%nat with (2 * (h + 2 * 2 ^ j))%nat by lia.
      rewrite !half_double. lia. }
    assert (∀ p, (s ≤ p)%nat → (p / 2 = s / 2 + (p - s) / 2)%nat) as Hhalf.
    { intros p Hp. destruct Hs as [h ->].
      replace p with (2 * h + (p - 2 * h))%nat at 1 by lia.
      by rewrite half_add, half_double. }
    assert (s / 2 + s / 2 = s)%nat as Hss.
    { destruct Hs as [h ->]. rewrite half_double. lia. }
    assert (∀ p, (s ≤ p < s')%nat →
              R !! p = set_next_match_id
                         (Some (f + Z.of_nat (T / 2 + p / 2))%Z) <$> C !! p) as Hcur.
    { intros p Hp. rewrite IHold by lia. unfold C1.
      rewrite grow_lookup_old by (unfold s' in *; lia).
      rewrite decide_True by (unfold s' in *; lia).
      do 3 f_equal. rewrite HT2, (Hhalf p) by lia. lia. }
    split_and!.
    + done.
    + intros p Hp. rewrite IHold by (unfold s'; lia). unfold C1.
      rewrite grow_lookup_old by lia. by rewrite decide_False by lia.
    + intros p Hp. rewrite decide_False by lia. apply Hcur. unfold s'. lia.
    + intros p Hp. destruct (decide (p < s' + 2 ^ j)%nat) as [Hnew|Hold].
      * exists name. rewrite IHcur by (unfold s' in *; lia).
        assert (C1 !! p = Some (later_row div_id name (f + Z.of_nat p)%Z
                  (C !! (s + 2 * (p - s'))%nat ≫= winner_id)
                  (C !! (s + 2 * (p - s') + 1)%nat ≫= winner_id))) as ->.
        { pose proof (grow_lookup_new div_id name f (2 ^ j) C s (p - s')%nat) as H.
          replace (length C + (p - s'))%nat with p in H by (unfold s' in *; lia).
          apply H; unfold s' in *; lia. }
        assert (2 * p - T = s + 2 * (p - s'))%nat as -> by (unfold s', T in *; lia).
        rewrite !Hcur by (unfold s' in *; lia).
        rewrite !set_next_keeps_winner.
        destruct (decide (j = 0%nat)) as [->|Hj].
        -- rewrite decide_False by (unfold s', T in *; simpl in *; lia). done.
        -- assert (2 ≤ 2 ^ j)%nat.
           { destruct j; [done|]. simpl.
             assert (0 < 2 ^ j)%nat by (apply Nat.neq_0_lt_0, Nat.pow_nonzero; lia).
             lia. }
           rewrite decide_True by (unfold s', T in *; lia). done.
      * apply IHnew. lia.
Qed.

Lemma rounds_consecutive div_id f j : ∀ rn C s,
  consecutive f C → consecutive f (rounds div_id f j rn C s).
Proof.
  induction j as [|j IH]; intros rn C s HC; simpl; [done|].
  by apply IH, grow_consecutive.
Qed.

(** With at least two competitors, what the request stores and what it
    created, in closed form. *)
Lemma generate_bracket_closed rnd div_id d :
  let cs := competitors_of div_id (competitors d) in
  let n := (2 ^ Nat.log2_up (length cs) / 2)%nat in
  let R := rounds div_id (fresh_id (matches d)) (Nat.log2_up (length cs) - 1) 2
             (round1_rows div_id (fresh_id (matches d)) (dealt n (shuffle rnd cs))) 0 in
  (2 ≤ length cs)%nat →
  generate_bracket rnd div_id d
  = Some (Ok200 (HtmlBracketGenerated (length cs) div_id),
          with_matches (matches d ++ R) d)
  ∧ created d (with_matches (matches d ++ R) d) = R.
Proof.
  intros cs n R HN. split.
  - unfold generate_bracket, generate_bracket_view. cbn [begin pending].
    fold cs. assert ((length cs <? 2)%nat = false) as -> by (apply Nat.ltb_ge; lia).
    rewrite build_bracket_closed by (by rewrite shuffle_length).
    rewrite shuffle_length. done.
  - unfold created. cbn [matches with_matches]. apply drop_app_length.
Qed.

(** The created rows: row [p] has key [fresh + p]; its parent is row
    [n + p / 2]; the last row, [2 n - 2], is the final. *)
Lemma created_rows_spec div_id f x :
  (2 ≤ length x)%nat →
  let n := (2 ^ Nat.log2_up (length x) / 2)%nat in
  let R := rounds div_id f (Nat.log2_up (length x) - 1) 2
             (round1_rows div_id f (dealt n x)) 0 in
  length R = (2 * n - 1)%nat
  ∧ consecutive f R
  ∧ (∀ p m, R !! p = Some m →
       next_match_id m = if decide (p < 2 * n - 2)%nat
                         then Some (f + Z.of_nat (n + p / 2))%Z else None)
  ∧ (∀ p m, (n ≤ p)%nat → R !! p = Some m →
       competitor1_id m = pushed (R !! (2 * p - 2 * n)%nat ≫= winner_id)
       ∧ competitor2_id m = pushed (R !! (2 * p - 2 * n + 1)%nat ≫= winner_id)
       ∧ winner_id m = None).
Proof.
  intros HN n R.
  destruct (first_round_size _ HN) as (Hn0 & HnN & HN2 & Hpow & Hn).
  fold n in Hn0, HnN, HN2, Hpow, Hn.
  set (j := (Nat.log2_up (length x) - 1)%nat) in *.
  set (C := round1_rows div_id f (dealt n x)) in *.
  assert (length C = (0 + 2 ^ j)%nat) as HlenC
    by (unfold C; rewrite round1_rows_length, dealt_length; lia).
  destruct (rounds_spec div_id f j 2 C 0 HlenC) as (Hlen & _ & Hcur & Hnew);
    [by exists 0%nat|].
  change (rounds div_id f j 2 C 0) with R in Hlen, Hcur, Hnew.
  assert (0 + 2 ^ S j = 2 * n)%nat as HT by (simpl; lia).
  rewrite HT in Hlen, Hcur, Hnew. rewrite half_double in Hcur, Hnew.
  rewrite Nat.add_0_l, <- Hn in Hcur, Hnew.
  split_and!.
  - done.
  - apply rounds_consecutive, round1_rows_consecutive.
  - intros p m Hp. assert (p < 2 * n - 1)%nat as Hlt
      by (rewrite <- Hlen; by eapply lookup_lt_Some).
    destruct (decide (p < n)%nat) as [Hr1|Hlater].
    + rewrite Hcur in Hp by lia. destruct (decide (j = 0%nat)) as [Hj|Hj].
      * rewrite Hj in Hn. simpl in Hn. rewrite decide_False by lia.
        unfold C in Hp. rewrite round1_rows_lookup in Hp.
        destruct (dealt n x !! p) as [[[c1|] [c2|]]|]; by simplify_eq/=.
      * assert (2 ≤ 2 ^ j)%nat.
        { destruct j as [|j']; [done|]. simpl.
          assert (0 < 2 ^ j')%nat by (apply Nat.neq_0_lt_0, Nat.pow_nonzero; lia).
          lia. }
        rewrite decide_True by lia.
        destruct (C !! p) as [m0|]; by simplify_eq/=.
    + destruct (Hnew p) as [name Hrow]; [lia|].
      rewrite Hp in Hrow. injection Hrow as ->. done.
  - intros p m Hge Hp. assert (p < 2 * n - 1)%nat as Hlt
      by (rewrite <- Hlen; by eapply lookup_lt_Some).
    destruct (Hnew p) as [name Hrow]; [lia|].
    rewrite Hp in Hrow. injection Hrow as ->. done.
Qed.

(** * Further properties *)

(** ** Bracket builder: the tree *)

Lemma generate_bracket_rows (rnd : nat → nat) (div_id : Z) (d : DB) :
  let cs := competitors_of div_id (competitors d) in
  let n := (2 ^ Nat.log2_up (length cs) / 2)%nat in
  let f := fresh_id (matches d) in
  (2 ≤ length cs)%nat →
  ∃ d', generate_bracket rnd div_id d
        = Some (Ok200 (HtmlBracketGenerated (length cs) div_id), d')
      ∧ length (created d d') = (2 * n - 1)%nat
      ∧ ∀ p m, created d d' !! p = Some m →
          id m = (f + Z.of_nat p)%Z
          ∧ get_match (f + Z.of_nat p) (matches d') = Some m
          ∧ next_match_id m = if decide (p < 2 * n - 2)%nat
                              then Some (f + Z.of_nat (n + p / 2))%Z else None.
Proof.
  intros cs n f HN.
  destruct (generate_bracket_closed rnd div_id d HN) as [Hgen Hc].
  eexists. split; [exact Hgen|]. rewrite Hc.
  destruct (created_rows_spec div_id f (shuffle rnd cs))
    as (Hlen & Hcons & Hnext & _); [by rewrite shuffle_length|].
  rewrite shuffle_length in Hlen, Hcons, Hnext. fold cs n in Hlen, Hcons, Hnext.
  split; [done|]. intros p m Hp. split_and!.
  - by apply Hcons.
  - cbn [matches with_matches]. unfold f.
    rewrite get_match_created by done. done.
  - by apply Hnext.
Qed.

(** X1.  For [N ≥ 2] competitors the created matches get consecutive fresh
    keys in creation order, each can be fetched by its key, and the links
    form a perfect tree: with [n] first-round matches, the match created as
    number [p] feeds the match created as number [n + p / 2], and the last
    one (number [2 n - 2], the final) has no next match. *)
Theorem bracket_keys_and_links (rnd : nat → nat) (div_id : Z) (d : DB) :
  let cs := competitors_of div_id (competitors d) in
  let n := (2 ^ Nat.log2_up (length cs) / 2)%nat in
  let f := fresh_id (matches d) in
  (2 ≤ length cs)%nat →
  ∃ d', generate_bracket rnd div_id d
        = Some (Ok200 (HtmlBracketGenerated (length cs) div_id), d')
      ∧ length (created d d') = (2 * n - 1)%nat
      ∧ ∀ p m, created d d' !! p = Some m →
          id m = (f + Z.of_nat p)%Z
          ∧ get_match (f + Z.of_nat p) (matches d') = Some m
          ∧ next_match_id m = if decide (p < 2 * n - 2)%nat
                              then Some (f + Z.of_nat (n + p / 2))%Z else None.
Proof. apply generate_bracket_rows. Qed.

Lemma bracket_keys_and_links_witness :
  ∃ d', generate_bracket (λ i, i) 1 (roster [alice; bob; cara; dee; eve])
        = Some (Ok200 (HtmlBracketGenerated 5 1), d')
      ∧ map next_match_id (created (roster [alice; bob; cara; dee; eve]) d')
        = [Some 5; Some 5; Some 6; Some 6; Some 7; Some 7; None]%Z.
Proof.
  destruct (bracket_keys_and_links (λ i, i) 1 (roster [alice; bob; cara; dee; eve]))
    as (d' & Hgen & _ & _).
  - vm_compute. lia.
  - exists d'. split; [exact Hgen|].
    vm_compute in Hgen. injection Hgen as <-. reflexivity.
Defined.

Lemma follow_to_final n f (tbl : list Match) (R : list Match) :
  (∀ p m, R !! p = Some m → get_match (f + Z.of_nat p) tbl = Some m) →
  (∀ p m, R !! p = Some m →
     next_match_id m = if decide (p < 2 * n - 2)%nat
                       then Some (f + Z.of_nat (n + p / 2))%Z else None) →
  length R = (2 * n - 1)%nat →
  ∀ e p, (2 ^ e ≤ n)%nat → (2 * n - 2 * 2 ^ e ≤ p < 2 * n - 2 ^ e)%nat →
  follow tbl e (f + Z.of_nat p) = Some (f + Z.of_nat (2 * n - 2))%Z.
Proof.
  intros Hget Hnext Hlen. induction e as [|e IH]; intros p He Hp.
  - simpl in *. do 2 f_equal. lia.
  - assert (0 < 2 ^ e)%nat by (apply Nat.neq_0_lt_0, Nat.pow_nonzero; lia).
    assert (2 ^ S e = 2 * 2 ^ e)%nat as Hpow by (simpl; lia).
    rewrite Hpow in He, Hp.
    destruct (lookup_lt_is_Some_2 R p) as [m Hm]; [lia|].
    cbn [follow]. rewrite (Hget _ _ Hm). cbn [mbind option_bind].
    rewrite (Hnext _ _ Hm), decide_True by lia. cbn [mbind option_bind].
    apply IH; [lia|].
    assert (n - 2 * 2 ^ e ≤ p / 2)%nat.
    { apply Nat.div_le_lower_bound; lia. }
    assert (p / 2 < n - 2 ^ e)%nat.
    { apply Nat.Div0.div_lt_upper_bound; lia. }
    lia.
Qed.

(** X2.  For [N ≥ 2] competitors, following the next-match links from any
    created first-round match arrives, after exactly [ceil(log2 N) - 1]
    hops, at the match created last, which has no next match: one final,
    reached from every leaf by a path of the same length. *)
Theorem first_round_reaches_final (rnd : nat → nat) (div_id : Z) (d : DB) :
  let cs := competitors_of div_id (competitors d) in
  let n := (2 ^ Nat.log2_up (length cs) / 2)%nat in
  let f := fresh_id (matches d) in
  (2 ≤ length cs)%nat →
  ∃ d' final,
    generate_bracket rnd div_id d
      = Some (Ok200 (HtmlBracketGenerated (length cs) div_id), d')
    ∧ last (created d d') = Some final
    ∧ next_match_id final = None
    ∧ ∀ p, (p < n)%nat →
        follow (matches d') (Nat.log2_up (length cs) - 1) (f + Z.of_nat p)
        = Some (id final).
Proof.
  intros cs n f HN.
  destruct (generate_bracket_rows rnd div_id d HN) as (d' & Hgen & Hlen & Hrows).
  fold cs n f in Hgen, Hlen, Hrows.
  destruct (first_round_size _ HN) as (Hn0 & _ & _ & _ & Hn). fold cs n in Hn0, Hn.
  destruct (lookup_lt_is_Some_2 (created d d') (2 * n - 2)) as [final Hfin]; [lia|].
  exists d', final.
  destruct (Hrows _ _ Hfin) as (Hid & _ & Hnx).
  rewrite decide_False in Hnx by lia.
  split_and!; try done.
  - rewrite last_lookup, Hlen. by replace (pred (2 * n - 1)) with (2 * n - 2)%nat by lia.
  - intros p Hp. rewrite Hid.
    apply (follow_to_final n f (matches d') (created d d')); try done.
    + intros q m Hq. by apply Hrows.
    + intros q m Hq. by apply Hrows.
    + lia.
    + rewrite <- Hn. lia.
Qed.

Lemma first_round_reaches_final_witness :
  ∃ d', generate_bracket (λ i, i) 1 (roster [alice; bob; cara; dee; eve])
        = Some (Ok200 (HtmlBracketGenerated 5 1), d')
      ∧ follow (matches d') 2 1 = Some 7%Z
      ∧ follow (matches d') 2 4 = Some 7%Z.
Proof.
  destruct (first_round_reaches_final (λ i, i) 1
              (roster [alice; bob; cara; dee; eve]))
    as (d' & final & Hgen & Hlast & _ & Hpath).
  - vm_compute. lia.
  - exists d'. split; [exact Hgen|].
    assert (id final = 7%Z) as Hid.
    { vm_compute in Hgen. injection Hgen as <-. vm_compute in Hlast.
      by injection Hlast as <-. }
    rewrite <- Hid. split.
    + apply (Hpath 0%nat). vm_compute. lia.
    + apply (Hpath 3%nat). vm_compute. lia.
Defined.

(** X3.  For [N ≥ 2] competitors every created match of a later round is
    the next match of exactly two created matches: the match created as
    number [q ≥ n] is fed by numbers [2 q - 2 n] and [2 q - 2 n + 1] and by
    no other. *)
Theorem exactly_two_feeders (rnd : nat → nat) (div_id : Z) (d : DB) :
  let cs := competitors_of div_id (competitors d) in
  let n := (2 ^ Nat.log2_up (length cs) / 2)%nat in
  let f := fresh_id (matches d) in
  (2 ≤ length cs)%nat →
  ∃ d', generate_bracket rnd div_id d
        = Some (Ok200 (HtmlBracketGenerated (length cs) div_id), d')
      ∧ ∀ q p m, (n ≤ q < 2 * n - 1)%nat → created d d' !! p = Some m →
          (next_match_id m = Some (f + Z.of_nat q)%Z
           ↔ p = (2 * q - 2 * n)%nat ∨ p = (2 * q - 2 * n + 1)%nat).
Proof.
  intros cs n f HN.
  destruct (generate_bracket_rows rnd div_id d HN) as (d' & Hgen & Hlen & Hrows).
  fold cs n f in Hgen, Hlen, Hrows. exists d'. split; [done|].
  intros q p m Hq Hp. destruct (Hrows _ _ Hp) as (_ & _ & ->).
  pose proof (Nat.div_mod_eq p 2) as Hdiv.
  pose proof (Nat.mod_upper_bound p 2 ltac:(lia)) as Hmod.
  case_decide as Hlt.
  - split.
    + intros Heq. apply (inj Some) in Heq. lia.
    + intros Hpq. do 2 f_equal. lia.
  - apply lookup_lt_Some in Hp. split; [done|]. lia.
Qed.

Lemma exactly_two_feeders_witness :
  ∃ d', generate_bracket (λ i, i) 1 (roster [alice; bob; cara; dee; eve])
        = Some (Ok200 (HtmlBracketGenerated 5 1), d')
      ∧ map id (filter (λ m, next_match_id m = Some 6%Z)
                  (created (roster [alice; bob; cara; dee; eve]) d'))
        = [3; 4]%Z.
Proof.
  destruct (exactly_two_feeders (λ i, i) 1 (roster [alice; bob; cara; dee; eve]))
    as (d' & Hgen & _).
  - vm_compute. lia.
  - exists d'. split; [exact Hgen|].
    vm_compute in Hgen. injection Hgen as <-. reflexivity.
Defined.

(** X4.  For [N ≥ 2] competitors a created match of a later round starts
    pending and without a winner; its slot 1 holds the winner its first
    feeder already has (a bye, with a non-zero competitor id) and is empty
    otherwise, and likewise slot 2 for its second feeder; from the third
    round on both slots start empty. *)
Theorem later_rounds_start_with_bye_winners (rnd : nat → nat) (div_id : Z) (d : DB) :
  let cs := competitors_of div_id (competitors d) in
  let n := (2 ^ Nat.log2_up (length cs) / 2)%nat in
  (2 ≤ length cs)%nat →
  ∃ d', generate_bracket rnd div_id d
        = Some (Ok200 (HtmlBracketGenerated (length cs) div_id), d')
      ∧ ∀ p m, (n ≤ p)%nat → created d d' !! p = Some m →
          status m = Some "Pending" ∧ winner_id m = None
          ∧ competitor1_id m
            = pushed (created d d' !! (2 * p - 2 * n)%nat ≫= winner_id)
          ∧ competitor2_id m
            = pushed (created d d' !! (2 * p - 2 * n + 1)%nat ≫= winner_id)
          ∧ (n + n / 2 ≤ p →
             competitor1_id m = None ∧ competitor2_id m = None)%nat.
Proof.
  intros cs n HN.
  destruct (generate_bracket_closed rnd div_id d HN) as [Hgen Hc].
  eexists. split; [exact Hgen|]. rewrite Hc.
  destruct (created_rows_spec div_id (fresh_id (matches d)) (shuffle rnd cs))
    as (Hlen & _ & _ & Hslots); [by rewrite shuffle_length|].
  destruct (rounds_spec div_id (fresh_id (matches d))
              (Nat.log2_up (length (shuffle rnd cs)) - 1) 2
              (round1_rows div_id (fresh_id (matches d))
                 (dealt (2 ^ Nat.log2_up (length (shuffle rnd cs)) / 2)
                    (shuffle rnd cs))) 0)
    as (_ & _ & _ & Hnew).
  { rewrite round1_rows_length, dealt_length.
    by destruct (first_round_size (length (shuffle rnd cs)))
      as (_ & _ & _ & _ & ->); [rewrite shuffle_length|]. }
  { by exists 0%nat. }
  rewrite shuffle_length in Hlen, Hslots, Hnew. fold cs n in Hlen, Hslots, Hnew.
  set (R := rounds _ _ _ _ _ _) in *.
  destruct (first_round_size _ HN) as (Hn0 & _ & _ & _ & Hn). fold cs n in Hn0, Hn.
  rewrite <- Hn in Hnew.
  intros p m Hge Hp. pose proof (lookup_lt_Some _ _ _ Hp) as Hlt.
  destruct (Hslots p m Hge Hp) as (H1 & H2 & Hw).
  assert (status m = Some "Pending") as Hs.
  { destruct (Hnew p) as [name Hrow]; [simpl; lia|].
    rewrite Hp in Hrow. by injection Hrow as ->. }
  split_and!; try done.
  intros Hp3. pose proof (Nat.div_mod_eq n 2) as Hdiv.
  pose proof (Nat.mod_upper_bound n 2 ltac:(lia)) as Hmod.
  assert (∀ c, (n ≤ c < 2 * n - 1)%nat → R !! c ≫= winner_id = None) as Hnone.
  { intros c Hcr. destruct (lookup_lt_is_Some_2 R c) as [mc Hmc]; [lia|].
    rewrite Hmc. simpl. by destruct (Hslots c mc) as (_ & _ & ?); [lia| |]. }
  assert (n = 2 * (n / 2))%nat as Heven.
  { destruct (Nat.log2_up (length cs) - 1)%nat as [|j]; [simpl in Hn; lia|].
    rewrite Hn. rewrite Nat.pow_succ_r', half_double. lia. }
  rewrite H1, H2, !Hnone by lia. done.
Qed.

Lemma later_rounds_start_with_bye_winners_witness :
  ∃ d', generate_bracket (λ i, i) 1 (roster [alice; bob; cara; dee; eve])
        = Some (Ok200 (HtmlBracketGenerated 5 1), d')
      ∧ map (λ m, (competitor1_id m, competitor2_id m))
          (drop 4 (created (roster [alice; bob; cara; dee; eve]) d'))
        = [(None, Some 2); (Some 3, Some 4); (None, None)]%Z.
Proof.
  destruct (later_rounds_start_with_bye_winners (λ i, i) 1
              (roster [alice; bob; cara; dee; eve])) as (d' & Hgen & _).
  - vm_compute. lia.
  - exists d'. split; [exact Hgen|].
    vm_compute in Hgen. injection Hgen as <-. reflexivity.
Defined.

(** ** Bracket builder: seating *)

Lemma bind_related {A B C} (R : A → B → Prop) (g : A → list C) (h : B → list C) l k :
  Forall2 R l k → (∀ a b, R a b → g a = h b) → l ≫= g = k ≫= h.
Proof.
  intros HF Hgh. induction HF as [|a b l k Hab _ IH]; [done|].
  by rewrite !bind_cons, IH, (Hgh a b).
Qed.

Lemma bind_seq_shift {C} (g : nat → list C) k :
  seq 1 k ≫= g = seq 0 k ≫= (λ j, g (S j)).
Proof.
  rewrite <- fmap_S_seq. generalize (seq 0 k). intros l.
  induction l as [|a l IH]; [done|]. by rewrite fmap_cons, !bind_cons, IH.
Qed.

(** Dealing two lists side by side loses and repeats nothing. *)
Lemma weave_Permutation (A B : list Z) :
  (length B ≤ length A)%nat →
  seq 0 (length A) ≫= (λ j, option_list (A !! j) ++ option_list (B !! j))
  ≡ₚ A ++ B.
Proof.
  revert B. induction A as [|a A IH]; intros B HB.
  - destruct B; [done|simpl in HB; lia].
  - cbn [length seq]. rewrite bind_cons, bind_seq_shift.
    destruct B as [|b B]; simpl.
    + specialize (IH [] ltac:(simpl; lia)). rewrite app_nil_r in IH.
      rewrite app_nil_r. by rewrite IH.
    + rewrite (IH B) by (simpl in HB; lia).
      by rewrite (Permutation_middle A B b).
Qed.

Lemma seating_Permutation n (x : list Z) :
  (n ≤ length x ≤ 2 * n)%nat →
  seq 0 n ≫= (λ j, option_list (x !! j) ++ option_list (x !! (n + j)%nat)) ≡ₚ x.
Proof.
  intros Hn. trans (take n x ++ drop n x); [|by rewrite take_drop].
  rewrite <- (weave_Permutation (take n x) (drop n x))
    by (rewrite length_take, length_drop; lia).
  rewrite length_take, Nat.min_l by lia.
  assert (∀ l k : list Z, l = k → l ≡ₚ k) as Heq by (by intros ?? ->).
  apply Heq.
  apply (bind_related (λ j j', j = j' ∧ (j < n)%nat)).
  - apply Forall_Forall2_diag, Forall_forall. intros j Hj%elem_of_seq. lia.
  - intros j ? [<- Hj]. by rewrite lookup_drop, lookup_take_lt.
Qed.

(** X5.  For [N ≥ 2] competitors the slots of the created first-round
    matches hold every competitor of the division exactly once: read row by
    row, they are a rearrangement of the division's competitor ids. *)
Theorem every_competitor_seated_once (rnd : nat → nat) (div_id : Z) (d : DB) :
  let cs := competitors_of div_id (competitors d) in
  (2 ≤ length cs)%nat →
  ∃ d', generate_bracket rnd div_id d
        = Some (Ok200 (HtmlBracketGenerated (length cs) div_id), d')
      ∧ seated (filter (λ m, round_name m = Some "Round 1") (created d d'))
        ≡ₚ map competitor_pk cs.
Proof.
  intros cs HN.
  destruct (generate_bracket_shape rnd div_id d HN) as (tbl' & Hgen & Hshape).
  fold cs in Hgen. exists (with_matches tbl' d). split; [done|].
  destruct (created_shape _ _ _ _ Hshape) as (rows & later & -> & Hrows & Hlater & _).
  fold cs in Hrows. set (x := shuffle rnd cs) in *.
  assert (length x = length cs) as Hx by apply shuffle_length.
  rewrite Hx in Hrows.
  destruct (first_round_size _ HN) as (Hn0 & HnN & HN2 & _).
  set (n := (2 ^ Nat.log2_up (length cs) / 2)%nat) in *.
  assert (∀ i m j, rows !! i = Some m → seq 0 n !! i = Some j →
            (j < n)%nat ∧ round_name m = Some "Round 1"
            ∧ competitor1_id m = competitor_pk <$> x !! j
            ∧ competitor2_id m = competitor_pk <$> x !! (n + j)%nat) as Hrow.
  { intros i m j Hm Hj. pose proof (Forall2_lookup_lr _ _ _ _ _ _ Hrows Hj Hm) as Hr.
    apply lookup_seq in Hj as [-> Hi]. simpl in *.
    destruct (dealt_slots n x i) as [[c Hc] _]; [lia..|].
    destruct (round1_row_fields _ _ _ _ _ _ Hr Hc) as (H0 & _ & H1 & H2 & _).
    by rewrite Hc. }
  rewrite filter_app, (filter_none_of _ later), app_nil_r, filter_all_of.
  - unfold seated.
    rewrite (bind_related
      (λ m j, (j < n)%nat ∧ competitor1_id m = competitor_pk <$> x !! j
              ∧ competitor2_id m = competitor_pk <$> x !! (n + j)%nat)
      _ (λ j, option_list (map competitor_pk x !! j)
              ++ option_list (map competitor_pk x !! (n + j)%nat)) rows (seq 0 n)).
    + rewrite seating_Permutation by (rewrite length_map; lia).
      unfold x. by rewrite shuffle_Permutation.
    + apply Forall2_same_length_lookup_2.
      * symmetry. by apply Forall2_length in Hrows.
      * intros i m j Hm Hj. by destruct (Hrow i m j Hm Hj) as (? & _ & ? & ?).
    + intros m j (_ & -> & ->). by rewrite !list_lookup_fmap.
  - apply Forall_forall. intros m Hm. apply list_elem_of_lookup in Hm as [i Hi].
    destruct (lookup_lt_is_Some_2 (seq 0 n) i) as [j Hj].
    { rewrite (Forall2_length _ _ _ Hrows). by eapply lookup_lt_Some. }
    by destruct (Hrow i m j Hi Hj) as (_ & ? & _).
  - eapply Forall_impl; [exact Hlater|]. intros m Hm Hr.
    by apply later_round_row_not_round1 in Hm as [Hm _].
Qed.

Lemma every_competitor_seated_once_witness :
  ∃ d', generate_bracket (λ i, i) 1 (roster [alice; bob; cara; dee; eve])
        = Some (Ok200 (HtmlBracketGenerated 5 1), d')
      ∧ seated (filter (λ m, round_name m = Some "Round 1")
                  (created (roster [alice; bob; cara; dee; eve]) d'))
        ≡ₚ [1; 2; 3; 4; 5]%Z.
Proof.
  destruct (every_competitor_seated_once (λ i, i) 1
              (roster [alice; bob; cara; dee; eve])) as (d' & Hgen & Hseat).
  - vm_compute. lia.
  - exists d'. split; [exact Hgen|exact Hseat].
Defined.

(** ** Bracket builder: answers and frame *)

(** X6.  For a division id in SQLite's integer range the builder answers
    with 200 or with 400 and never fails: with fewer than two competitors
    in the division (also when the division does not exist) it answers 400
    and stores nothing, otherwise it answers 200; the dealing and pairing
    loops never raise and the [while] loop ends. *)
Theorem builder_answers_200_or_400 (rnd : nat → nat) (div_id : Z) (d : DB) :
  sqlite_int div_id →
  let N := length (competitors_of div_id (competitors d)) in
  ((N < 2)%nat
   ∧ generate_bracket rnd div_id d
     = Some (BadRequest400
               (JsonError "Need at least 2 competitors to generate a bracket."), d))
  ∨ ((2 ≤ N)%nat
     ∧ ∃ d', generate_bracket rnd div_id d
             = Some (Ok200 (HtmlBracketGenerated N div_id), d')).
Proof.
  intros _ N. destruct (decide (2 ≤ N)%nat) as [HN|HN].
  - right. split; [done|].
    destruct (generate_bracket_shape rnd div_id d HN) as (tbl' & Hgen & _).
    by eexists.
  - left. split; [lia|]. apply generate_bracket_too_few. fold N. lia.
Qed.

Lemma builder_answers_200_or_400_witness :
  (∃ d', generate_bracket (λ i, i) 1 (roster [alice; bob; cara; dee])
         = Some (Ok200 (HtmlBracketGenerated 4 1), d'))
  ∧ generate_bracket (λ i, i) 2 (roster [alice; bob; cara; dee])
    = Some (BadRequest400
              (JsonError "Need at least 2 competitors to generate a bracket."),
            roster [alice; bob; cara; dee]).
Proof.
  split.
  - destruct (builder_answers_200_or_400 (λ i, i) 1 (roster [alice; bob; cara; dee]))
      as [[HN _]|[_ H]]; [by vm_compute|vm_compute in HN; lia|exact H].
  - destruct (builder_answers_200_or_400 (λ i, i) 2 (roster [alice; bob; cara; dee]))
      as [[_ H]|[HN _]]; [by vm_compute|exact H|vm_compute in HN; lia].
Defined.

(** X7.  Whatever it answers, the builder leaves every match that was
    stored before exactly as it was, in front of the rows it appends, and
    does not touch rings, divisions or competitors. *)
Theorem builder_keeps_existing_rows (rnd : nat → nat) (div_id : Z) (d : DB) :
  ∃ r d', generate_bracket rnd div_id d = Some (r, d')
        ∧ matches d' = matches d ++ created d d'
        ∧ rings d' = rings d ∧ divisions d' = divisions d
        ∧ competitors d' = competitors d.
Proof.
  destruct (generate_bracket_total rnd div_id d) as [[r d'] Hgen].
  exists r, d'. split; [done|]. by eapply generate_bracket_keeps_old.
Qed.

Lemma generated_rows_length (rnd : nat → nat) div_id f (cs : list Competitor) :
  (2 ≤ length cs)%nat →
  length (rounds div_id f (Nat.log2_up (length cs) - 1) 2
            (round1_rows div_id f
               (dealt (2 ^ Nat.log2_up (length cs) / 2) (shuffle rnd cs))) 0)
  = (2 ^ Nat.log2_up (length cs) - 1)%nat.
Proof.
  intros HN.
  destruct (created_rows_spec div_id f (shuffle rnd cs)) as (Hlen & _);
    [by rewrite shuffle_length|].
  rewrite shuffle_length in Hlen. rewrite Hlen.
  destruct (first_round_size _ HN) as (? & _ & _ & Hpow & _).
  set (n := (2 ^ Nat.log2_up (length cs) / 2)%nat) in *. lia.
Qed.

(** X8.  The builder does not check for an existing bracket: run twice on
    the same division it succeeds twice and the second run adds a second,
    equally large set of matches beside the first. *)
Theorem regenerating_adds_a_second_bracket
    (rnd rnd' : nat → nat) (div_id : Z) (d : DB) :
  let N := length (competitors_of div_id (competitors d)) in
  (2 ≤ N)%nat →
  ∃ d1 d2,
    generate_bracket rnd div_id d = Some (Ok200 (HtmlBracketGenerated N div_id), d1)
    ∧ generate_bracket rnd' div_id d1 = Some (Ok200 (HtmlBracketGenerated N div_id), d2)
    ∧ matches d2 = matches d ++ created d d1 ++ created d1 d2
    ∧ length (created d d1) = (2 ^ Nat.log2_up N - 1)%nat
    ∧ length (created d1 d2) = (2 ^ Nat.log2_up N - 1)%nat.
Proof.
  intros N HN.
  destruct (generate_bracket_closed rnd div_id d HN) as [Hgen1 Hc1].
  set (d1 := with_matches _ d) in *.
  assert (competitors d1 = competitors d) as Hcs by done.
  assert (2 ≤ length (competitors_of div_id (competitors d1)))%nat as HN1
    by by rewrite Hcs.
  destruct (generate_bracket_closed rnd' div_id d1 HN1) as [Hgen2 Hc2].
  rewrite Hcs in Hgen2, Hc2. fold N in Hgen1, Hgen2, Hc1, Hc2.
  eexists d1, _. split_and!; [exact Hgen1|exact Hgen2|..].
  - rewrite Hc2, Hc1. cbn [matches with_matches]. unfold d1 at 1.
    cbn [matches with_matches]. by rewrite <- app_assoc.
  - rewrite Hc1. by apply generated_rows_length.
  - rewrite Hc2. by apply generated_rows_length.
Qed.

Lemma regenerating_adds_a_second_bracket_witness :
  ∃ d1 d2,
    generate_bracket (λ i, i) 1 (roster [alice; bob; cara])
      = Some (Ok200 (HtmlBracketGenerated 3 1), d1)
    ∧ generate_bracket (λ _, 0%nat) 1 d1 = Some (Ok200 (HtmlBracketGenerated 3 1), d2)
    ∧ length (matches d2) = 6%nat.
Proof.
  destruct (regenerating_adds_a_second_bracket (λ i, i) (λ _, 0%nat) 1
              (roster [alice; bob; cara]))
    as (d1 & d2 & H1 & H2 & Hm & Hl1 & Hl2).
  - vm_compute. lia.
  - exists d1, d2. split_and!; [exact H1|exact H2|].
    rewrite Hm, !length_app, Hl1, Hl2. reflexivity.
Defined.

(** ** Advancement engine: answers, frame and order *)

Lemma fixed_columns_update i f tbl :
  (∀ m, fixed_columns (f m) = fixed_columns m) →
  map fixed_columns (update_match i f tbl) = map fixed_columns tbl.
Proof.
  intros Hf. unfold update_match. rewrite <- list_fmap_compose.
  apply list_fmap_ext. intros _ m _. simpl. by destruct (id m =? i)%Z.
Qed.

Lemma txn_frame_begin d : txn_frame d (begin d).
Proof. by repeat split. Qed.

Lemma txn_frame_commit d t : txn_frame d t → txn_frame d (commit t).
Proof. by intros [_ ?]. Qed.

Lemma txn_frame_update d t i f :
  (∀ m, fixed_columns (f m) = fixed_columns m) →
  txn_frame d t → txn_frame d (on_matches (update_match i f) t).
Proof.
  intros Hf [Hs (H1 & H2 & H3 & H4)]. split; [done|].
  unfold same_frame. cbn. split_and!; try done.
  by rewrite fixed_columns_update.
Qed.

Lemma txn_frame_advance d m w t t' :
  advance_winner m w t = inr t' → txn_frame d t → txn_frame d t'.
Proof.
  unfold advance_winner. intros H Ht.
  repeat case_match; simplify_eq; try done; by apply txn_frame_update.
Qed.

Lemma record_result_view_frame d i s w t :
  txn_frame d t → txn_frame d (record_result_view i s w t).2.
Proof.
  intros Ht. unfold record_result_view.
  destruct (get_match i _); [|done].
  assert (txn_frame d (on_matches (update_match i (set_status s)) t)) as Ht1
    by by apply txn_frame_update.
  destruct (is_decided_status s); [|done].
  destruct (truthy w); cbn [negb]; [|done].
  assert (txn_frame d (on_matches (update_match i (set_winner_id w))
            (on_matches (update_match i (set_status s)) t))) as Ht2
    by by apply txn_frame_update.
  destruct (advance_winner _ _ _) eqn:Hadv; [done|].
  cbn [snd]. apply txn_frame_commit. by eapply txn_frame_advance.
Qed.

Lemma ui_record_result_view_frame d i s wf t :
  txn_frame d t → txn_frame d (ui_record_result_view i s wf t).2.
Proof.
  intros Ht. unfold ui_record_result_view.
  destruct (get_match i _); [|done].
  assert (txn_frame d (on_matches (update_match i (set_status s)) t)) as Ht1
    by by apply txn_frame_update.
  case_bool_decide; [by apply txn_frame_commit|].
  destruct (is_decided_status s); [|done].
  destruct wf as [| | |z]; try done.
  assert (txn_frame d (on_matches (update_match i (set_winner_id (Some z)))
            (on_matches (update_match i (set_status s)) t))) as Ht2
    by by apply txn_frame_update.
  destruct (advance_winner _ _ _) eqn:Hadv; [done|].
  cbn zeta.
  assert (txn_frame d (commit t0)) by (apply txn_frame_commit; by eapply txn_frame_advance).
  by destruct (get_competitor _ _).
Qed.

Lemma request_frame (view : Txn → response * Txn) d :
  (∀ t, txn_frame d t → txn_frame d (view t).2) →
  same_frame d (request view d).2.
Proof.
  intros H. unfold request. specialize (H _ (txn_frame_begin d)).
  destruct (view (begin d)). by destruct H.
Qed.

(** X9.  Recording a result never adds or removes a match, never touches
    rings, divisions or competitors, and never changes a match's key,
    division, ring, next-match link, match number or round name: on both
    routes only status, winner and slots can differ afterwards. *)
Theorem result_requests_write_result_columns_only
    (d : DB) (i : Z) (s : option string) (w : option Z) (wf : form_int) :
  same_frame d (record_result i s w d).2
  ∧ same_frame d (ui_record_result i s wf d).2.
Proof.
  split; apply request_frame; intros t Ht.
  - by apply record_result_view_frame.
  - by apply ui_record_result_view_frame.
Qed.

(** X10.  For a winner id in SQLite's integer range, the JSON route
    answers 200 exactly when the match exists, the status is Completed or
    Disqualification, the winner id is neither null nor zero, and a non-zero
    next-match link names an existing match; with any other answer (404, 400
    or 500) the database is left as it was. *)
Theorem record_result_commits_iff_accepted
    (d : DB) (i : Z) (s : option string) (w : option Z) :
  sqlite_opt w →
  ((record_result i s w d).1
     = Ok200 (JsonMessage "Result recorded and bracket updated.")
   ↔ result_accepted i s w d)
  ∧ ((record_result i s w d).1
       ≠ Ok200 (JsonMessage "Result recorded and bracket updated.")
     → (record_result i s w d).2 = d).
Proof.
  intros _.
  unfold result_accepted, record_result, request, record_result_view.
  cbn [begin pending].
  destruct (get_match i (matches d)) as [m|] eqn:Hm.
  2:{ split; [|done]. split; [done|]. by intros (? & [=] & _). }
  destruct (is_decided_status s) eqn:Hs.
  2:{ split; [|done]. split; [done|]. by intros (? & _ & [=] & _). }
  destruct (truthy w) eqn:Hw; cbn [negb].
  2:{ split; [|done]. split; [done|]. by intros (? & _ & _ & [=] & _). }
  destruct (advance_winner _ _ _) as [e|t'] eqn:Hadv; cbn [fst snd].
  - split; [|done]. split; [done|].
    intros (m' & [= <-] & _ & _ & Hnext). exfalso.
    unfold advance_winner in Hadv.
    destruct (truthy (next_match_id m)); [|done].
    destruct (Hnext eq_refl) as [x Hx].
    destruct (next_match_id m) as [n|]; [|done]. cbn [mbind option_bind] in *.
    cbn [on_matches pending matches with_matches begin] in Hadv.
    rewrite !get_match_update_match, Hx in Hadv by done.
    repeat case_match; simplify_eq.
  - split; [|congruence]. split; [|done]. intros _. exists m. split_and!; try done.
    intros Hn. unfold advance_winner in Hadv. rewrite Hn in Hadv.
    destruct (next_match_id m) as [n|]; [|done]. cbn [mbind option_bind] in *.
    cbn [on_matches pending matches with_matches begin] in Hadv.
    rewrite !get_match_update_match in Hadv by done.
    destruct (get_match n (matches d)); [by eexists|].
    repeat case_match; simplify_eq.
Qed.

Lemma record_result_commits_iff_accepted_witness :
  result_accepted 1 (Some "Completed") (Some 1%Z) bracket_four
  ∧ (record_result 1 (Some "Completed") (Some 1%Z) bracket_four).1
    = Ok200 (JsonMessage "Result recorded and bracket updated.")
  ∧ ¬ result_accepted 1 (Some "Completed") (Some 0%Z) bracket_four
  ∧ (record_result 1 (Some "Completed") (Some 0%Z) bracket_four).2 = bracket_four.
Proof.
  destruct (record_result_commits_iff_accepted bracket_four 1 (Some "Completed")
              (Some 1%Z)) as [H1 _]; [by vm_compute|].
  destruct (record_result_commits_iff_accepted bracket_four 1 (Some "Completed")
              (Some 0%Z)) as [H0 H0']; [by vm_compute|].
  split_and!.
  - by apply H1.
  - reflexivity.
  - intros H. apply H0 in H. discriminate H.
  - apply H0'. discriminate.
Defined.

(** X11.  A result for a match id in SQLite's integer range that names no
    match is answered 404 by both routes and nothing is stored. *)
Theorem unknown_match_is_not_found
    (d : DB) (i : Z) (s : option string) (w : option Z) (wf : form_int) :
  sqlite_int i →
  get_match i (matches d) = None →
  record_result i s w d = (NotFound404 None, d)
  ∧ ui_record_result i s wf d = (NotFound404 None, d).
Proof.
  intros _ Hm. unfold record_result, ui_record_result, request,
    record_result_view, ui_record_result_view. cbn [begin pending].
  by rewrite Hm.
Qed.

Lemma unknown_match_is_not_found_witness :
  record_result 9 (Some "Completed") (Some 1%Z) bracket_four
    = (NotFound404 None, bracket_four)
  ∧ ui_record_result 9 (Some "Completed") (FieldInt 1) bracket_four
    = (NotFound404 None, bracket_four).
Proof.
  apply (unknown_match_is_not_found bracket_four 9 (Some "Completed") (Some 1%Z)
           (FieldInt 1)).
  - by vm_compute.
  - reflexivity.
Defined.

Lemma get_match_fixed_columns j (t t' : list Match) :
  map fixed_columns t' = map fixed_columns t →
  fixed_columns <$> get_match j t' = fixed_columns <$> get_match j t.
Proof.
  revert t'. induction t as [|m t IH]; intros [|m' t'] H; try done.
  rewrite !fmap_cons in H. apply (inj2 cons) in H as [Hm Ht]. simpl.
  assert (id m' = id m) as -> by (unfold fixed_columns in Hm; congruence).
  destruct (id m =? j)%Z; [simpl; by f_equal|]. by apply IH.
Qed.

(** An accepted JSON result whose match has a next match: answer and effect. *)
Lemma record_result_advances (d : DB) (i n w : Z) (m next : Match) (s : option string) :
  get_match i (matches d) = Some m → is_decided_status s = true → w ≠ 0%Z →
  next_match_id m = Some n → n ≠ 0%Z → get_match n (matches d) = Some next →
  ∃ d', record_result i s (Some w) d
          = (Ok200 (JsonMessage "Result recorded and bracket updated."), d')
        ∧ advanced_into w next d d'.
Proof.
  intros Hm Hs Hw Hn Hn0 Hnext.
  destruct (advance_winner_spec m next i n w s d Hn Hn0 Hnext)
    as (t' & Hadv & Hst & Hcs & Hres).
  exists (pending t'). split; [|done].
  apply (request_pair _ _ _ (commit t')).
  unfold record_result_view. cbn [begin pending].
  rewrite Hm, Hs, truthy_Some by done. cbn [negb].
  cbn zeta in Hadv. by rewrite Hadv.
Qed.

(** X12.  Which slot of the next match a winner takes depends on the order
    in which results are recorded, not on which feeder they come from: with
    both slots of the next match empty, the first accepted result fills
    slot 1 and the second fills slot 2.  The two results may come from two
    feeders or from the same match recorded twice, and nothing compares the
    second winner with the first.  Winner ids are in SQLite's integer
    range. *)
Theorem slots_filled_in_recording_order
    (d : DB) (a b n w1 w2 : Z) (ma mb nm : Match) (s1 s2 : option string) :
  get_match a (matches d) = Some ma → next_match_id ma = Some n →
  get_match b (matches d) = Some mb → next_match_id mb = Some n →
  n ≠ 0%Z → get_match n (matches d) = Some nm →
  truthy (competitor1_id nm) = false → truthy (competitor2_id nm) = false →
  is_decided_status s1 = true → is_decided_status s2 = true →
  w1 ≠ 0%Z → w2 ≠ 0%Z → sqlite_int w1 → sqlite_int w2 →
  ∃ d1 d2,
    record_result a s1 (Some w1) d
      = (Ok200 (JsonMessage "Result recorded and bracket updated."), d1)
    ∧ record_result b s2 (Some w2) d1
      = (Ok200 (JsonMessage "Result recorded and bracket updated."), d2)
    ∧ slots_at n d1 = Some (Some w1, competitor2_id nm)
    ∧ slots_at n d2 = Some (Some w1, Some w2).
Proof.
  intros Ha Hna Hb Hnb Hn0 Hnm Hc1 Hc2 Hs1 Hs2 Hw1 Hw2 _ _.
  destruct (record_result_advances d a n w1 ma nm s1) as (d1 & Hr1 & Hadv1 & _);
    try done.
  pose proof (get_match_id _ _ _ Hnm) as Hid. rewrite Hid in Hadv1.
  specialize (Hadv1 Hc1).
  assert (same_frame d d1) as (_ & _ & _ & Hfix).
  { pose proof (request_frame (record_result_view a s1 (Some w1)) d
                  (record_result_view_frame d a s1 (Some w1))) as H.
    change (request _ d) with (record_result a s1 (Some w1) d) in H.
    by rewrite Hr1 in H. }
  pose proof (get_match_fixed_columns b _ _ Hfix) as Hb1. rewrite Hb in Hb1.
  destruct (get_match b (matches d1)) as [mb1|] eqn:Hmb1; [|done].
  assert (next_match_id mb1 = Some n) as Hnb1.
  { apply (inj Some) in Hb1. unfold fixed_columns in Hb1. congruence. }
  unfold slots_at in Hadv1.
  destruct (get_match n (matches d1)) as [nm1|] eqn:Hnm1; [|done].
  apply (inj Some) in Hadv1. injection Hadv1 as Hs1' Hs2'.
  destruct (record_result_advances d1 b n w2 mb1 nm1 s2) as (d2 & Hr2 & _ & Hadv2 & _);
    try done.
  exists d1, d2. split_and!; try done.
  - unfold slots_at. rewrite Hnm1. simpl. by rewrite Hs1', Hs2'.
  - rewrite (get_match_id _ _ _ Hnm1), Hs1' in Hadv2. apply Hadv2.
    + by apply truthy_Some.
    + by rewrite Hs2'.
Qed.

Lemma slots_filled_in_recording_order_witness :
  ∃ d1 d2,
    record_result 2 (Some "Completed") (Some 3%Z) bracket_four
      = (Ok200 (JsonMessage "Result recorded and bracket updated."), d1)
    ∧ record_result 1 (Some "Completed") (Some 1%Z) d1
      = (Ok200 (JsonMessage "Result recorded and bracket updated."), d2)
    ∧ slots_at 3 d1 = Some (Some 3%Z, None)
    ∧ slots_at 3 d2 = Some (Some 3%Z, Some 1%Z).
Proof.
  apply (slots_filled_in_recording_order bracket_four 2 1 3 3 1
    (mkMatch 2 1 None (Some 2%Z) (Some 4%Z) None (Some 3%Z) None (Some "Pending")
       (Some "Round 1"))
    (mkMatch 1 1 None (Some 1%Z) (Some 3%Z) None (Some 3%Z) None (Some "Pending")
       (Some "Round 1"))
    (mkMatch 3 1 None None None None None None (Some "Pending") (Some "Final"))
    (Some "Completed") (Some "Completed"));
    try reflexivity; try done; by vm_compute.
Defined.

(** X13.  The UI route commits before it looks up the winner's name: when
    the submitted winner id (in SQLite's integer range) names no competitor,
    the request fails with [AttributeError] (a 500 answer) although status
    and winner id have been stored, whereas the JSON route never stores
    anything with a failure. *)
Theorem ui_unknown_winner_stored_then_fails
    (d : DB) (i w : Z) (m : Match) (s : option string) :
  get_match i (matches d) = Some m → is_decided_status s = true →
  sqlite_int w →
  get_competitor w (competitors d) = None →
  (truthy (next_match_id m) = true →
   is_Some (next_match_id m ≫= λ n, get_match n (matches d))) →
  (ui_record_result i s (FieldInt w) d).1 = ServerError500 AttributeError
  ∧ result_at i (ui_record_result i s (FieldInt w) d).2 = Some (Some w, s).
Proof.
  intros Hm Hs _ Hc Hnext.
  unfold ui_record_result, request, ui_record_result_view. cbn [begin pending].
  rewrite Hm, decided_not_in_progress, Hs by done.
  destruct (advance_winner _ _ _) as [e|t'] eqn:Hadv.
  - exfalso. unfold advance_winner in Hadv.
    destruct (truthy (next_match_id m)); [|done].
    destruct (Hnext eq_refl) as [x Hx].
    destruct (next_match_id m) as [n|]; [|done]. cbn [mbind option_bind] in *.
    cbn [on_matches pending matches with_matches begin] in Hadv.
    rewrite !get_match_update_match, Hx in Hadv by done.
    repeat case_match; simplify_eq.
  - pose proof (advance_winner_result_at _ _ _ _ Hadv) as [_ Hres].
    pose proof (txn_frame_advance d _ _ _ _ Hadv) as Hfr.
    destruct Hfr as [_ (_ & _ & Hcs & _)].
    { by repeat apply txn_frame_update. }
    cbn zeta. cbn [commit pending]. rewrite Hcs, Hc. cbn [fst snd stored].
    split; [done|]. rewrite Hres. cbn [on_matches pending stored begin matches with_matches].
    rewrite (result_at_recorded i i s (Some w) (matches d) _ m Hm).
    by rewrite Z.eqb_refl.
Qed.

Lemma ui_unknown_winner_stored_then_fails_witness :
  (ui_record_result 1 (Some "Completed") (FieldInt 77) bracket_four).1
    = ServerError500 AttributeError
  ∧ result_at 1 (ui_record_result 1 (Some "Completed") (FieldInt 77) bracket_four).2
    = Some (Some 77%Z, Some "Completed").
Proof.
  apply (ui_unknown_winner_stored_then_fails bracket_four 1 77
           (mkMatch 1 1 None (Some 1%Z) (Some 3%Z) None (Some 3%Z) None (Some "Pending")
              (Some "Round 1")));
    try reflexivity; [by vm_compute|].
  intros _. by eexists.
Defined.

(** ** Division deletion: both routes *)

Lemma filter_other_key {A} (f : A → Z) (a e : Z) (tbl : list A) :
  e ≠ a →
  filter (λ m, f m = e) (filter (λ m, f m ≠ a) tbl) = filter (λ m, f m = e) tbl.
Proof.
  intros He. induction tbl as [|m tbl IH]; [done|].
  rewrite (filter_cons (λ m, f m ≠ a) m tbl), (filter_cons (λ m, f m = e) m tbl).
  destruct (decide (f m ≠ a)) as [H1|H1]; destruct (decide (f m = e)) as [H2|H2].
  - by rewrite filter_cons, decide_True, IH.
  - by rewrite filter_cons, decide_False, IH.
  - apply dec_stable in H1. congruence.
  - done.
Qed.

Lemma matches_of_delete_other div_id e tbl :
  e ≠ div_id → matches_of e (delete_matches_of div_id tbl) = matches_of e tbl.
Proof. apply (filter_other_key division_id). Qed.

Lemma competitors_of_delete_other div_id e tbl :
  e ≠ div_id →
  competitors_of e (delete_competitors_of div_id tbl) = competitors_of e tbl.
Proof. apply (filter_other_key competitor_division_id). Qed.

Lemma get_division_delete_other div_id e tbl :
  e ≠ div_id → get_division e (delete_division_row div_id tbl) = get_division e tbl.
Proof.
  intros He. unfold delete_division_row.
  induction tbl as [|x tbl IH]; [done|].
  rewrite filter_cons. case_decide as Hx; simpl.
  - by rewrite IH.
  - rewrite IH.
    by assert ((division_pk x =? e)%Z = false) as -> by lia.
Qed.

(** X14.  [DELETE /ui/divisions/<id>], for an id in SQLite's integer range:
    on an existing division it removes the division with all its matches
    and competitors and nothing else: rings are kept, and every other
    division keeps its row, its competitors and its matches, unchanged and
    in order.  On a missing division it answers 404 and deletes nothing,
    also when rows that carry this division id are stored. *)
Theorem ui_delete_division_spares_the_rest (d : DB) (div_id : Z) :
  sqlite_int div_id →
  match get_division div_id (divisions d) with
  | Some _ =>
    ∃ d', ui_delete_division div_id d = (Ok200 HtmlEmpty, d')
      ∧ matches_of div_id (matches d') = []
      ∧ competitors_of div_id (competitors d') = []
      ∧ get_division div_id (divisions d') = None
      ∧ rings d' = rings d
      ∧ ∀ e, e ≠ div_id →
          get_division e (divisions d') = get_division e (divisions d)
          ∧ matches_of e (matches d') = matches_of e (matches d)
          ∧ competitors_of e (competitors d') = competitors_of e (competitors d)
  | None => ui_delete_division div_id d = (NotFound404 None, d)
  end.
Proof.
  intros _. unfold ui_delete_division, request, ui_delete_division_view.
  cbn [begin pending]. destruct (get_division div_id (divisions d)); [|done].
  unfold session_delete_division. cbn [competitors matches].
  rewrite competitors_of_deleted, matches_of_deleted.
  eexists. split; [done|].
  cbn [stored commit pending matches competitors divisions rings].
  split_and!; auto using competitors_of_deleted, matches_of_deleted,
    get_division_deleted.
  intros e He. split_and!; auto using get_division_delete_other,
    matches_of_delete_other, competitors_of_delete_other.
Qed.

Lemma ui_delete_division_spares_the_rest_witness :
  (∃ d', ui_delete_division 1 two_divisions = (Ok200 HtmlEmpty, d')
     ∧ matches_of 1 (matches d') = []
     ∧ competitors_of 1 (competitors d') = []
     ∧ get_division 1 (divisions d') = None
     ∧ rings d' = rings two_divisions
     ∧ ∀ e, e ≠ 1%Z →
         get_division e (divisions d') = get_division e (divisions two_divisions)
         ∧ matches_of e (matches d') = matches_of e (matches two_divisions)
         ∧ competitors_of e (competitors d')
           = competitors_of e (competitors two_divisions))
  ∧ length (matches_of 2 (matches two_divisions)) = 1%nat
  ∧ ui_delete_division 3 two_divisions = (NotFound404 None, two_divisions).
Proof.
  split_and!.
  - exact (ui_delete_division_spares_the_rest two_divisions 1 ltac:(by vm_compute)).
  - reflexivity.
  - exact (ui_delete_division_spares_the_rest two_divisions 3 ltac:(by vm_compute)).
Defined.

(** X15.  [DELETE /divisions/<id>] answers 200 exactly when the division
    exists and has neither competitors nor matches; then the division row
    alone is removed.  With any other answer (404, or the failed flush when
    a competitor or a match is still attached) nothing is deleted. *)
Theorem edit_division_delete_iff_childless (d : DB) (div_id : Z) :
  let r := edit_division_delete div_id d in
  (r.1 = Ok200 (JsonMessage "Division deleted")
   ↔ is_Some (get_division div_id (divisions d))
     ∧ competitors_of div_id (competitors d) = []
     ∧ matches_of div_id (matches d) = [])
  ∧ (r.1 = Ok200 (JsonMessage "Division deleted") →
     r.2 = mkDB (rings d) (delete_division_row div_id (divisions d))
                (competitors d) (matches d))
  ∧ (r.1 ≠ Ok200 (JsonMessage "Division deleted") → r.2 = d).
Proof.
  unfold edit_division_delete, request, edit_division_delete_view.
  cbn [begin pending].
  destruct (get_division div_id (divisions d)) as [dv|].
  2:{ cbn. split_and!; try done. split; [done|]. by intros [[? [=]] _]. }
  unfold session_delete_division.
  destruct (competitors_of _ _) as [|c cs], (matches_of _ _) as [|m ms]; cbn;
    (split_and!; [split; [try done|]|try done|try done]);
    try (by intros (_ & ? & ?)).
Qed.

(** ** Reading a bracket that was just generated *)

Lemma matches_of_app div_id t1 t2 :
  matches_of div_id (t1 ++ t2) = matches_of div_id t1 ++ matches_of div_id t2.
Proof. unfold matches_of. apply filter_app. Qed.

Lemma matches_of_all div_id t :
  Forall (λ m, division_id m = div_id) t → matches_of div_id t = t.
Proof.
  unfold matches_of. induction 1 as [|m t Hm _ IH]; [done|].
  by rewrite filter_cons, decide_True, IH.
Qed.

Lemma round1_match_unscheduled div_id pr i :
  let m := insert_defaults (round1_match div_id pr i) in
  division_id m = div_id ∧ ring_id m = None ∧ match_number m = None.
Proof. by destruct pr as [[c1|] [c2|]]. Qed.

(** The rows a successful run creates all belong to the division. *)
Lemma created_in_division rnd div_id d :
  let cs := competitors_of div_id (competitors d) in
  (2 ≤ length cs)%nat →
  ∃ d', generate_bracket rnd div_id d
        = Some (Ok200 (HtmlBracketGenerated (length cs) div_id), d')
      ∧ matches d' = matches d ++ created d d'
      ∧ competitors d' = competitors d
      ∧ length (created d d') = (2 ^ Nat.log2_up (length cs) - 1)%nat
      ∧ Forall (λ m, division_id m = div_id) (created d d').
Proof.
  intros cs HN.
  destruct (generate_bracket_shape rnd div_id d HN) as (tbl' & Hgen & Hshape).
  destruct (generate_bracket_keeps_old _ _ _ _ _ Hgen) as (Hold & _ & _ & Hcs).
  exists (with_matches tbl' d). split_and!; try done.
  - destruct (generate_bracket_closed rnd div_id d HN) as [Hgen' Hc].
    fold cs in Hgen'. rewrite Hgen in Hgen'.
    assert (tbl' = matches d ++ rounds div_id (fresh_id (matches d))
              (Nat.log2_up (length cs) - 1) 2
              (round1_rows div_id (fresh_id (matches d))
                 (dealt (2 ^ Nat.log2_up (length cs) / 2) (shuffle rnd cs))) 0)
      as -> by (unfold with_matches in Hgen'; congruence).
    fold cs in Hc. rewrite Hc. by apply generated_rows_length.
  - destruct (created_shape _ _ _ _ Hshape) as (rows & later & -> & Hrows & Hlater & _).
    apply Forall_app. split.
    + apply Forall_forall. intros m Hm.
      apply list_elem_of_lookup in Hm as [j Hm].
      destruct (Forall2_lookup_r _ _ _ _ _ Hrows Hm) as (k & _ & Hrow).
      unfold round1_row in Hrow. apply same_but_next_fields in Hrow as (_ & -> & _).
      apply round1_match_unscheduled.
    + eapply Forall_impl; [exact Hlater|]. by intros m [? _].
Qed.

(** X16.  After a successful [generate_bracket], [GET .../bracket] for the
    same division answers 200 with one entry per match of the division: the
    entries it had before, followed by one for each of the
    [2 ^ ceil(log2 N) - 1] matches just created, in creation order. *)
Theorem bracket_readable_after_generation (rnd : nat → nat) (div_id : Z) (d : DB) :
  let cs := competitors_of div_id (competitors d) in
  (2 ≤ length cs)%nat →
  ∃ d', generate_bracket rnd div_id d
        = Some (Ok200 (HtmlBracketGenerated (length cs) div_id), d')
      ∧ get_bracket div_id d'
        = Ok200 (JsonValue (JArr
            (map (bracket_entry (competitors d))
               (matches_of div_id (matches d) ++ created d d'))))
      ∧ length (created d d') = (2 ^ Nat.log2_up (length cs) - 1)%nat.
Proof.
  intros cs HN.
  destruct (created_in_division rnd div_id d HN)
    as (d' & Hgen & Hm & Hcs & Hlen & Hdiv).
  exists d'. split_and!; try done.
  unfold get_bracket. rewrite Hcs.
  assert (matches_of div_id (matches d')
          = matches_of div_id (matches d) ++ created d d') as ->
    by (by rewrite Hm, matches_of_app, (matches_of_all _ (created d d'))).
  assert (created d d' ≠ []) as Hne.
  { intros E. rewrite E in Hlen. simpl in Hlen.
    destruct (first_round_size _ HN) as (? & _ & _ & Hpow & _).
    fold cs in Hlen. set (n := (2 ^ Nat.log2_up (length cs) / 2)%nat) in *. lia. }
  destruct (matches_of div_id (matches d) ++ created d d') eqn:E; [|done].
  by apply app_eq_nil in E as [_ ?].
Qed.

Lemma bracket_readable_after_generation_witness :
  ∃ d', generate_bracket (λ _, 0%nat) 1 (roster [alice; bob; cara; dee])
        = Some (Ok200 (HtmlBracketGenerated 4 1), d')
      ∧ get_bracket 1 d'
        = Ok200 (JsonValue (JArr
            (map (bracket_entry [alice; bob; cara; dee])
               ([] ++ created (roster [alice; bob; cara; dee]) d'))))
      ∧ length (created (roster [alice; bob; cara; dee]) d') = 3%nat.
Proof.
  apply (bracket_readable_after_generation (λ _, 0%nat) 1
           (roster [alice; bob; cara; dee])).
  vm_compute. lia.
Defined.

(** ** Scheduling *)

Lemma get_ring_pk i tbl r : get_ring i tbl = Some r → ring_pk r = i.
Proof.
  induction tbl as [|x tbl IH]; [done|]. simpl.
  destruct (ring_pk x =? i)%Z eqn:E; [|done]. intros [= <-]. lia.
Qed.

Lemma request_as_pair {A} (view : Txn → reply A * Txn) d r t :
  view (begin d) = (r, t) → request_as view d = (r, stored t).
Proof. unfold request_as. by intros ->. Qed.

(** X17.  Scheduling an existing match with an integer ring and an integer
    sequence, where the ring and the number [ring * 100 + sequence] are in
    SQLite's integer range, answers 200 and stores ring and number on that
    match alone; every other match and the other tables stay as they were.
    The ring need not exist.  The card shows the number, or "Unassigned"
    when the number is 0; for a sequence from 0 to 99 the number gives back
    ring and sequence. *)
Theorem schedule_stores_ring_and_number (d : DB) (i r q : Z) (m : Match) :
  get_match i (matches d) = Some m →
  sqlite_int r → sqlite_int (r * 100 + q) →
  ∃ card d',
    schedule_match_htmx i (FieldInt r) (FieldInt q) d = (Reply 200 card, d')
    ∧ get_match i (matches d') = Some (scheduled_as r q m)
    ∧ (∀ j, j ≠ i → get_match j (matches d') = get_match j (matches d))
    ∧ rings d' = rings d ∧ divisions d' = divisions d
    ∧ competitors d' = competitors d
    ∧ card_scheduled card
      = (if decide (r * 100 + q = 0)%Z then None else Some (r * 100 + q)%Z)
    ∧ card_sequence card = q
    ∧ ((0 ≤ q < 100)%Z →
       ((r * 100 + q) / 100 = r ∧ (r * 100 + q) mod 100 = q)%Z).
Proof.
  intros Hm _ _. eexists _, _. split.
  { apply request_as_pair. unfold schedule_match_htmx_view.
    cbn [begin pending]. rewrite Hm. cbn. done. }
  cbn [stored commit on_matches pending begin matches with_matches rings
       divisions competitors card_scheduled card_sequence].
  split_and!; try done.
  - rewrite !get_match_update_match, Hm, Z.eqb_refl by done. done.
  - intros j Hj. rewrite !get_match_update_match by done.
    by assert ((j =? i)%Z = false) as -> by lia.
  - cbn. case_decide as Hn.
    + by assert ((r * 100 + q =? 0)%Z = true) as -> by lia.
    + by assert ((r * 100 + q =? 0)%Z = false) as -> by lia.
  - intros Hq. split.
    + symmetry. apply (Z.div_unique_pos _ _ _ q); lia.
    + symmetry. apply (Z.mod_unique_pos _ _ r); lia.
Qed.

Lemma schedule_stores_ring_and_number_witness :
  ∃ card d',
    schedule_match_htmx 1 (FieldInt 5) (FieldInt 25) bracket_four = (Reply 200 card, d')
    ∧ get_match 1 (matches d')
      = Some (scheduled_as 5 25
                (mkMatch 1 1 None (Some 1%Z) (Some 3%Z) None (Some 3%Z) None
                   (Some "Pending") (Some "Round 1")))
    ∧ (∀ j, j ≠ 1%Z → get_match j (matches d') = get_match j (matches bracket_four))
    ∧ rings d' = rings bracket_four ∧ divisions d' = divisions bracket_four
    ∧ competitors d' = competitors bracket_four
    ∧ card_scheduled card
      = (if decide (5 * 100 + 25 = 0)%Z then None else Some (5 * 100 + 25)%Z)
    ∧ card_sequence card = 25%Z
    ∧ ((0 ≤ 25 < 100)%Z →
       ((5 * 100 + 25) / 100 = 5 ∧ (5 * 100 + 25) mod 100 = 25)%Z).
Proof.
  apply (schedule_stores_ring_and_number bracket_four 1 5 25);
    [reflexivity|by vm_compute|by vm_compute].
Defined.

(** X18.  Scheduling stores something only when ring and sequence are both
    integers.  Whenever the sequence field is not an integer the request
    fails and stores nothing, whatever the ring field is: the answer echoes
    [int(ring_sequence)] also when there is nothing to schedule
    ([TypeError] for a missing field, [ValueError] otherwise).  A match id
    in SQLite's integer range that names no match is answered 404. *)
Theorem schedule_needs_two_integers (d : DB) (i : Z) (ring seq : form_int) :
  ((schedule_match_htmx i ring seq d).2 = d
   ∨ ∃ r q, ring = FieldInt r ∧ seq = FieldInt q)
  ∧ (∀ e, is_Some (get_match i (matches d)) → int_of seq = inl e →
          schedule_match_htmx i ring seq d = (Fails e, d))
  ∧ (sqlite_int i → get_match i (matches d) = None →
     schedule_match_htmx i ring seq d = (Abort404, d)).
Proof.
  unfold schedule_match_htmx, request_as, schedule_match_htmx_view.
  cbn [begin pending].
  destruct (get_match i (matches d)) as [m|]; [|by split_and!; [left|intros ? []|]].
  split_and!; [|intros e _ He|done].
  - destruct ring as [| | |r], seq as [| | |q]; cbn; eauto.
  - destruct ring as [| | |r], seq as [| | |q]; cbn in *; by simplify_eq.
Qed.

(** ** Score keeping *)

#[local] Instance by_match_number_total : Total by_match_number.
Proof.
  intros m1 m2. unfold by_match_number.
  destruct (match_number m1), (match_number m2); simpl; auto. lia.
Qed.

Lemma scorekeeper_matches_filter r tbl :
  scorekeeper_matches r tbl = merge_sort by_match_number (filter (ready_on r) tbl).
Proof. done. Qed.

Lemma elem_of_scorekeeper_matches r tbl m :
  m ∈ scorekeeper_matches r tbl ↔ m ∈ tbl ∧ ready_on r m.
Proof.
  rewrite scorekeeper_matches_filter, merge_sort_Permutation, list_elem_of_filter.
  tauto.
Qed.

Lemma get_match_elem_of i tbl m : get_match i tbl = Some m → m ∈ tbl.
Proof.
  induction tbl as [|x tbl IH]; [done|]. simpl.
  destruct (id x =? i)%Z.
  - intros [= ->]. left.
  - intros H. right. by apply IH.
Qed.

(** X19.  The score keeper of a ring id in SQLite's integer range that names
    no ring is answered 404; for a ring that exists the page gets exactly
    the stored matches that are on this ring, pending or in progress, with
    both competitors known (byes, decided matches, matches waiting for a
    feeder and unscheduled matches are left out), each as often as it is
    stored, in ascending order of match number with unnumbered matches
    first. *)
Theorem scorekeeper_lists_ready_matches (d : DB) (r : Z) :
  sqlite_int r →
  match get_ring r (rings d) with
  | None => ring_scorekeeper r d = Abort404
  | Some rg =>
    ∃ ms, ring_scorekeeper r d = Reply 200 (rg, ms)
        ∧ (∀ m, m ∈ ms ↔ m ∈ matches d ∧ ready_on r m)
        ∧ ms ≡ₚ filter (ready_on r) (matches d)
        ∧ Sorted by_match_number ms
  end.
Proof.
  intros _. unfold ring_scorekeeper.
  destruct (get_ring r (rings d)) as [rg|] eqn:Hr; [|done].
  rewrite (get_ring_pk _ _ _ Hr). eexists. split; [done|]. split_and!.
  - intros m. apply elem_of_scorekeeper_matches.
  - rewrite scorekeeper_matches_filter. apply merge_sort_Permutation.
  - apply (Sorted_merge_sort _).
Qed.

Lemma scorekeeper_lists_ready_matches_witness :
  (∃ ms, ring_scorekeeper 5 two_divisions = Reply 200 (mkRing 5 "Ring 5", ms)
       ∧ (∀ m, m ∈ ms ↔ m ∈ matches two_divisions ∧ ready_on 5 m)
       ∧ ms ≡ₚ filter (ready_on 5) (matches two_divisions)
       ∧ Sorted by_match_number ms)
  ∧ map id (filter (ready_on 5) (matches two_divisions)) = [1%Z; 4%Z]
  ∧ ring_scorekeeper 7 two_divisions = Abort404.
Proof.
  split_and!.
  - exact (scorekeeper_lists_ready_matches two_divisions 5 ltac:(by vm_compute)).
  - reflexivity.
  - exact (scorekeeper_lists_ready_matches two_divisions 7 ltac:(by vm_compute)).
Defined.

Lemma status_of_key_set i s tbl :
  status_of_key i s (update_match i (set_status s) tbl).
Proof.
  unfold status_of_key, update_match. apply Forall_fmap, Forall_forall.
  intros m _. simpl. destruct (id m =? i)%Z eqn:E; [done|]. lia.
Qed.

Lemma status_of_key_update i s j f tbl :
  (∀ m, id (f m) = id m ∧ status (f m) = status m) →
  status_of_key i s tbl → status_of_key i s (update_match j f tbl).
Proof.
  unfold status_of_key, update_match. intros Hf H.
  apply Forall_fmap. eapply Forall_impl; [exact H|].
  intros m Hm. simpl. destruct (id m =? j)%Z; [|done].
  destruct (Hf m) as [-> ->]. done.
Qed.

Lemma status_of_key_advance i s m w t t' :
  advance_winner m w t = inr t' →
  status_of_key i s (matches (pending t)) →
  status_of_key i s (matches (pending t')).
Proof.
  unfold advance_winner. intros H Ht.
  repeat case_match; simplify_eq; try done; cbn;
    by apply status_of_key_update.
Qed.

Lemma status_of_key_not_ready i s tbl r m :
  status_of_key i s tbl → is_decided_status s = true →
  m ∈ scorekeeper_matches r tbl → id m ≠ i.
Proof.
  intros Hk Hs Hm Hi.
  apply elem_of_scorekeeper_matches in Hm as [Hin (_ & Hup & _)].
  rewrite (proj1 (Forall_forall _ _) Hk m Hin Hi) in Hup.
  destruct s as [s|]; [|done]. simpl in *.
  repeat case_bool_decide; simplify_eq; done.
Qed.

(** X20.  Once a result is recorded for a match (either route answers 200
    to a Completed or Disqualification result), no score keeper's page
    lists that match any more, whatever ring it is on. *)
Theorem recorded_match_leaves_scorekeeper
    (d d' : DB) (i : Z) (s : option string) (w : option Z) (wf : form_int) (b : body) :
  record_result i s w d = (Ok200 b, d')
  ∨ (ui_record_result i s wf d = (Ok200 b, d') ∧ is_decided_status s = true) →
  ∀ r m, m ∈ scorekeeper_matches r (matches d') → id m ≠ i.
Proof.
  intros H r m. 
  assert (status_of_key i s (matches d') ∧ is_decided_status s = true) as [Hk Hs];
    [|by apply (status_of_key_not_ready i s)].
  destruct H as [H|[H Hs]].
  - unfold record_result, request, record_result_view in H. cbn [begin pending] in H.
    destruct (get_match i (matches d)); [|done].
    destruct (is_decided_status s); [|done].
    destruct (truthy w); cbn [negb] in H; [|done].
    destruct (advance_winner _ _ _) as [e|t'] eqn:Hadv; [done|].
    injection H as _ <-. split; [|done]. cbn.
    apply (status_of_key_advance _ _ _ _ _ _ Hadv). cbn.
    apply status_of_key_update; [done|]. apply status_of_key_set.
  - split; [|done].
    unfold ui_record_result, request, ui_record_result_view in H.
    cbn [begin pending] in H.
    destruct (get_match i (matches d)); [|done].
    rewrite decided_not_in_progress, Hs in H by done.
    destruct wf as [| | |z]; try done.
    destruct (advance_winner _ _ _) as [e|t'] eqn:Hadv; [done|].
    cbn zeta in H. destruct (get_competitor _ _); [|done].
    injection H as _ <-. cbn.
    apply (status_of_key_advance _ _ _ _ _ _ Hadv). cbn.
    apply status_of_key_update; [done|]. apply status_of_key_set.
Qed.

Lemma recorded_match_leaves_scorekeeper_witness :
  map id (filter (ready_on 5) (matches two_divisions)) = [1%Z; 4%Z]
  ∧ record_result 4 (Some "Completed") (Some 5%Z) two_divisions
    = (Ok200 (JsonMessage "Result recorded and bracket updated."),
       (record_result 4 (Some "Completed") (Some 5%Z) two_divisions).2)
  ∧ map id (filter (ready_on 5)
              (matches (record_result 4 (Some "Completed") (Some 5%Z)
                          two_divisions).2)) = [1%Z]
  ∧ ∀ r m, m ∈ scorekeeper_matches r
                 (matches (record_result 4 (Some "Completed") (Some 5%Z)
                             two_divisions).2) →
           id m ≠ 4%Z.
Proof.
  split_and!; [reflexivity|reflexivity|reflexivity|].
  apply (recorded_match_leaves_scorekeeper two_divisions _ 4 (Some "Completed")
           (Some 5%Z) FieldMissing
           (JsonMessage "Result recorded and bracket updated.")).
  left. reflexivity.
Defined.

(** X21.  A pending or running match with both competitors known, once it
    is scheduled on a ring that exists (with a match number in SQLite's
    integer range), is on that ring's score keeper page and on no other
    ring's. *)
Theorem scheduled_match_is_listed (d : DB) (i r q : Z) (m : Match) (rg : Ring) :
  get_match i (matches d) = Some m → get_ring r (rings d) = Some rg →
  is_upcoming_status (status m) = true →
  competitor1_id m ≠ None → competitor2_id m ≠ None →
  sqlite_int (r * 100 + q) →
  ∃ card d' ms,
    schedule_match_htmx i (FieldInt r) (FieldInt q) d = (Reply 200 card, d')
    ∧ ring_scorekeeper r d' = Reply 200 (rg, ms)
    ∧ scheduled_as r q m ∈ ms
    ∧ ∀ r' m', r' ≠ r → m' ∈ scorekeeper_matches r' (matches d') → id m' ≠ i.
Proof.
  intros Hm Hr Hup Hc1 Hc2 _. eexists _, _, _. split.
  { apply request_as_pair. unfold schedule_match_htmx_view.
    cbn [begin pending]. rewrite Hm. cbn. done. }
  cbn [stored commit on_matches pending begin matches with_matches rings].
  unfold ring_scorekeeper. cbn [rings matches with_matches].
  rewrite Hr, (get_ring_pk _ _ _ Hr).
  split; [done|]. split.
  - apply elem_of_scorekeeper_matches. split; [|done].
    apply (get_match_elem_of i).
    rewrite !get_match_update_match, Hm, Z.eqb_refl by done. done.
  - intros r' m' Hr' Hin Hi.
    apply elem_of_scorekeeper_matches in Hin as [Hin (Hring & _)].
    unfold update_match in Hin. rewrite <- list_fmap_compose in Hin.
    apply list_elem_of_fmap in Hin as (x & -> & _). simpl in *.
    destruct (id x =? i)%Z eqn:E; simpl in *; rewrite ?E in *; simpl in *.
    + congruence.
    + lia.
Qed.

Lemma scheduled_match_is_listed_witness :
  ∃ card d' ms,
    schedule_match_htmx 1 (FieldInt 5) (FieldInt 25)
      (with_rings [mkRing 5 "Ring 5"] bracket_four) = (Reply 200 card, d')
    ∧ ring_scorekeeper 5 d' = Reply 200 (mkRing 5 "Ring 5", ms)
    ∧ scheduled_as 5 25
        (mkMatch 1 1 None (Some 1%Z) (Some 3%Z) None (Some 3%Z) None
           (Some "Pending") (Some "Round 1")) ∈ ms
    ∧ ∀ r' m', r' ≠ 5%Z → m' ∈ scorekeeper_matches r' (matches d') → id m' ≠ 1%Z.
Proof.
  apply (scheduled_match_is_listed (with_rings [mkRing 5 "Ring 5"] bracket_four)
           1 5 25); try reflexivity; try done; by vm_compute.
Defined.

(** *** New matches are on no ring *)

Lemma grow_Forall (P : Match → Prop) div_id name f C a r :
  (∀ n m, P m → P (set_next_match_id n m)) →
  (∀ i w1 w2, P (later_row div_id name i w1 w2)) →
  Forall P C → Forall P (grow div_id name f C a r).
Proof.
  intros Hset Hnew. revert C a. induction r as [|r IH]; intros C a HC; [done|].
  simpl. apply IH. unfold link_step. apply Forall_app. split.
  - apply Forall_alter; [apply Forall_alter; [done|]|]; intros; by apply Hset.
  - by constructor.
Qed.

Lemma rounds_Forall (P : Match → Prop) div_id f j rn C s :
  (∀ n m, P m → P (set_next_match_id n m)) →
  (∀ name i w1 w2, P (later_row div_id name i w1 w2)) →
  Forall P C → Forall P (rounds div_id f j rn C s).
Proof.
  intros Hset Hnew. revert rn C s. induction j as [|j IH]; intros rn C s HC; [done|].
  simpl. apply IH. by apply grow_Forall.
Qed.

Lemma round1_rows_unscheduled div_id f ps :
  Forall unscheduled (round1_rows div_id f ps).
Proof.
  apply Forall_lookup. intros j m Hm. unfold round1_rows in Hm.
  rewrite list_lookup_imap in Hm.
  destruct (ps !! j) as [pr|]; [|done]. injection Hm as <-.
  split; apply round1_match_unscheduled.
Qed.

Lemma filter_none {A} (P : A → Prop) `{∀ x, Decision (P x)} (l : list A) :
  Forall (λ x, ¬ P x) l → filter P l = [].
Proof.
  induction 1 as [|x l Hx _ IH]; [done|]. by rewrite filter_cons, decide_False.
Qed.

(** X22.  Generating a bracket changes no score keeper's page: the matches
    it creates have neither a ring nor a match number, so they are listed
    nowhere until they are scheduled. *)
Theorem new_bracket_is_unscheduled (rnd : nat → nat) (div_id : Z) (d : DB) :
  ∃ r d', generate_bracket rnd div_id d = Some (r, d')
        ∧ Forall unscheduled (created d d')
        ∧ ∀ ring, ring_scorekeeper ring d' = ring_scorekeeper ring d.
Proof.
  destruct (decide (2 ≤ length (competitors_of div_id (competitors d)))%nat)
    as [HN|HN].
  - destruct (generate_bracket_closed rnd div_id d HN) as [Hgen Hc].
    eexists _, _. split; [exact Hgen|]. rewrite Hc.
    assert (Forall unscheduled
              (rounds div_id (fresh_id (matches d))
                 (Nat.log2_up (length (competitors_of div_id (competitors d))) - 1) 2
                 (round1_rows div_id (fresh_id (matches d))
                    (dealt (2 ^ Nat.log2_up
                              (length (competitors_of div_id (competitors d))) / 2)
                       (shuffle rnd (competitors_of div_id (competitors d))))) 0))
      as HR.
    { apply rounds_Forall; [by intros ?? [? ?]|done|apply round1_rows_unscheduled]. }
    split; [done|]. intros ring. unfold ring_scorekeeper.
    cbn [rings matches with_matches].
    destruct (get_ring ring (rings d)); [|done]. do 2 f_equal.
    rewrite !scorekeeper_matches_filter, filter_app.
    rewrite (filter_none _ (rounds _ _ _ _ _ _)), app_nil_r; [done|].
    eapply Forall_impl; [exact HR|]. intros m [Hring _] (Hr & _). congruence.
  - rewrite generate_bracket_too_few by lia. eexists _, _. split; [done|].
    unfold created. by rewrite drop_all.
Qed.

(** ** Deleting a ring *)

Lemma get_ring_delete_other r e tbl :
  e ≠ r → get_ring e (filter (λ x, ring_pk x ≠ r) tbl) = get_ring e tbl.
Proof.
  intros He. induction tbl as [|x tbl IH]; [done|].
  rewrite filter_cons. case_decide as Hx; simpl.
  - by rewrite IH.
  - rewrite IH. by assert ((ring_pk x =? e)%Z = false) as -> by lia.
Qed.

Lemma get_ring_deleted r tbl :
  get_ring r (filter (λ x, ring_pk x ≠ r) tbl) = None.
Proof.
  induction tbl as [|x tbl IH]; [done|].
  rewrite filter_cons. case_decide as Hx; [|done]. simpl.
  by assert ((ring_pk x =? r)%Z = false) as -> by lia.
Qed.

Lemma filter_fmap_same {A} (P : A → Prop) `{∀ x, Decision (P x)} (g : A → A)
    (l : list A) :
  (∀ x, g x = x ∨ (¬ P x ∧ ¬ P (g x))) → filter P (g <$> l) = filter P l.
Proof.
  intros Hg. induction l as [|x l IH]; [done|].
  rewrite fmap_cons, !filter_cons, IH.
  destruct (Hg x) as [->|[H1 H2]]; [done|]. by rewrite !decide_False.
Qed.

(** X23.  Deleting a ring keeps its matches: they lose their ring but keep
    their match numbers, so the ring's score keeper page is gone (404)
    while the numbers that were derived from the ring stay in use.  The
    pages of the other rings, the divisions and the competitors are not
    affected. *)
Theorem deleted_ring_releases_its_matches (d : DB) (r : Z) (rg : Ring) :
  get_ring r (rings d) = Some rg →
  ∃ d', ui_delete_ring r d = (Reply 200 (), d')
      ∧ ring_scorekeeper r d' = Abort404
      ∧ Forall (λ m, ring_id m ≠ Some r) (matches d')
      ∧ map (λ m, (id m, match_number m)) (matches d')
        = map (λ m, (id m, match_number m)) (matches d)
      ∧ (∀ r', r' ≠ r → ring_scorekeeper r' d' = ring_scorekeeper r' d)
      ∧ divisions d' = divisions d ∧ competitors d' = competitors d.
Proof.
  intros Hr. eexists. split.
  { apply request_as_pair. unfold ui_delete_ring_view. cbn [begin pending].
    by rewrite Hr. }
  unfold session_delete_ring.
  cbn [stored commit on_pending pending begin matches rings divisions competitors].
  split_and!; try done.
  - unfold ring_scorekeeper. cbn [rings]. by rewrite get_ring_deleted.
  - apply Forall_fmap, Forall_forall. intros m _. simpl.
    case_bool_decide; [done|]. done.
  - rewrite <- list_fmap_compose. apply list_fmap_ext. intros _ m _. simpl.
    by case_bool_decide.
  - intros r' Hr'. unfold ring_scorekeeper. cbn [rings matches].
    rewrite get_ring_delete_other by done.
    destruct (get_ring r' (rings d)) as [rg'|] eqn:Hrg'; [|done].
    do 2 f_equal. rewrite !scorekeeper_matches_filter. f_equal.
    apply filter_fmap_same. intros m. case_bool_decide as Hm; [|by left].
    right. rewrite (get_ring_pk _ _ _ Hrg'). split; intros (Hring & _).
    + congruence.
    + done.
Qed.

Lemma deleted_ring_releases_its_matches_witness :
  map (λ m, (id m, ring_id m, match_number m)) (matches two_divisions)
  = [(1, Some 5, Some 525); (2, Some 6, Some 601); (3, None, None);
     (4, Some 5, Some 502)]%Z
  ∧ map (λ m, (id m, ring_id m, match_number m))
        (matches (ui_delete_ring 5 two_divisions).2)
    = [(1, None, Some 525); (2, Some 6, Some 601); (3, None, None);
       (4, None, Some 502)]%Z
  ∧ ∃ d', ui_delete_ring 5 two_divisions = (Reply 200 (), d')
      ∧ ring_scorekeeper 5 d' = Abort404
      ∧ Forall (λ m, ring_id m ≠ Some 5%Z) (matches d')
      ∧ map (λ m, (id m, match_number m)) (matches d')
        = map (λ m, (id m, match_number m)) (matches two_divisions)
      ∧ (∀ r', r' ≠ 5%Z → ring_scorekeeper r' d' = ring_scorekeeper r' two_divisions)
      ∧ divisions d' = divisions two_divisions
      ∧ competitors d' = competitors two_divisions.
Proof.
  split_and!; [reflexivity|reflexivity|].
  apply (deleted_ring_releases_its_matches two_divisions 5 (mkRing 5 "Ring 5")).
  reflexivity.
Defined.

(** ** Adding competitors *)

Lemma fresh_key_above ks : Forall (λ k, (k < fresh_key ks)%Z) ks.
Proof.
  unfold fresh_key. induction ks as [|k ks IH]; [done|]. simpl.
  constructor; [lia|]. eapply Forall_impl; [exact IH|]. simpl. lia.
Qed.

Lemma fresh_key_snoc ks : (fresh_key ks < fresh_key (ks ++ [fresh_key ks]))%Z.
Proof.
  pose proof (fresh_key_above (ks ++ [fresh_key ks])) as H.
  apply Forall_app in H as [_ H]. by inversion H.
Qed.

Lemma add_competitors_spec div_id names tbl :
  ∃ new, add_competitors div_id names tbl = tbl ++ new
       ∧ map competitor_name new = names
       ∧ Forall (λ c, competitor_division_id c = div_id) new
       ∧ Forall (λ c, (fresh_key (map competitor_pk tbl) ≤ competitor_pk c)%Z) new
       ∧ NoDup (map competitor_pk new).
Proof.
  revert tbl. induction names as [|name names IH]; intros tbl.
  { exists []. rewrite app_nil_r. split_and!; try done. constructor. }
  simpl.
  destruct (IH (tbl ++ [mkCompetitor (fresh_key (map competitor_pk tbl)) name div_id]))
    as (new & -> & Hn & Hd & Hk & Hnd).
  exists (mkCompetitor (fresh_key (map competitor_pk tbl)) name div_id :: new).
  rewrite <- app_assoc. split; [done|].
  rewrite map_app in Hk. simpl in Hk.
  pose proof (fresh_key_snoc (map competitor_pk tbl)) as Hlt.
  split_and!.
  - simpl. by f_equal.
  - by constructor.
  - constructor; [simpl; lia|]. eapply Forall_impl; [exact Hk|].
    intros c Hc. simpl in *. lia.
  - simpl. constructor; [|done]. intros Hin.
    apply list_elem_of_fmap in Hin as (c & Hc & Hin).
    pose proof (proj1 (Forall_forall _ _) Hk c Hin) as Hle. simpl in Hle. lia.
Qed.

Lemma competitors_of_app div_id t1 t2 :
  competitors_of div_id (t1 ++ t2)
  = competitors_of div_id t1 ++ competitors_of div_id t2.
Proof. unfold competitors_of. apply filter_app. Qed.

Lemma competitors_of_all div_id t :
  Forall (λ c, competitor_division_id c = div_id) t → competitors_of div_id t = t.
Proof.
  unfold competitors_of. induction 1 as [|c t Hc _ IH]; [done|].
  by rewrite filter_cons, decide_True, IH.
Qed.

Lemma split_on_no_sep sep s : Forall (λ p, sep ∉ p) (split_on sep s).
Proof.
  induction s as [|a s IH]; simpl.
  - constructor; [|done]. by intros ?%elem_of_nil.
  - case_decide as Ha.
    + constructor; [|done]. by intros ?%elem_of_nil.
    + destruct (split_on sep s) as [|cur rest].
      * constructor; [|done]. intros ?%list_elem_of_singleton. congruence.
      * apply Forall_cons in IH as [Hcur Hrest]. constructor; [|done].
        intros [?|?]%elem_of_cons; [congruence|done].
Qed.

Lemma lstrip_suffix s : lstrip s `suffix_of` s.
Proof.
  induction s as [|a s IH]; [done|]. simpl.
  destruct (is_space a); [by apply suffix_cons_r|done].
Qed.

Lemma lstrip_head s a : head (lstrip s) = Some a → is_space a = false.
Proof.
  induction s as [|b s IH]; [done|]. simpl.
  destruct (is_space b) eqn:E; [done|]. simpl. by intros [= <-].
Qed.

Lemma suffix_last {A} (v u : list A) a :
  v `suffix_of` u → last v = Some a → last u = Some a.
Proof. intros [k ->] Hv. rewrite last_app, Hv. done. Qed.

Lemma strip_clean s :
  (∀ a, a ∈ strip s → a ∈ s)
  ∧ (∀ a, head (strip s) = Some a → is_space a = false)
  ∧ (∀ a, last (strip s) = Some a → is_space a = false).
Proof.
  unfold strip. split_and!.
  - intros a Ha. rewrite elem_of_reverse in Ha.
    destruct (lstrip_suffix (reverse (lstrip s))) as [k Hk].
    assert (a ∈ reverse (lstrip s)) as Hin
      by (rewrite Hk; apply elem_of_app; by right).
    rewrite elem_of_reverse in Hin.
    destruct (lstrip_suffix s) as [k' Hk']. rewrite Hk'.
    apply elem_of_app. by right.
  - intros a Ha. rewrite head_reverse in Ha.
    apply (suffix_last _ _ _ (lstrip_suffix _)) in Ha.
    rewrite last_reverse in Ha. by apply lstrip_head in Ha.
  - intros a Ha. rewrite last_reverse in Ha. by apply lstrip_head in Ha.
Qed.

Lemma name_list_clean text : Forall clean_name (name_list text).
Proof.
  unfold name_list.
  pose proof (split_on_no_sep newline (String.list_ascii_of_string text)) as Hs.
  induction Hs as [|p ps Hp _ IH]; [done|]. simpl.
  destruct (strip p) as [|a s] eqn:E; [done|]. simpl. constructor; [|done].
  change (String.String a (String.string_of_list_ascii s))
    with (String.string_of_list_ascii (a :: s)).
  unfold clean_name. rewrite String.list_ascii_of_string_of_list_ascii.
  destruct (strip_clean p) as (Hin & Hh & Hl). rewrite E in Hin, Hh, Hl.
  split_and!; try done. intros Hn. by apply Hp, Hin.
Qed.

Lemma name_list_clean_submitted names_text :
  Forall clean_name (submitted_names names_text).
Proof. destruct names_text; [apply name_list_clean|done]. Qed.

(** What the view stores and answers. *)
Lemma ui_add_competitors_stored (d : DB) (div_id : Z) (names_text : option string) :
  ∃ new,
    ui_add_competitors div_id names_text d
    = (Reply 200 (map competitor_name (competitors_of div_id (competitors d))
                  ++ submitted_names names_text),
       with_competitors (competitors d ++ new) d)
    ∧ map competitor_name new = submitted_names names_text
    ∧ Forall (λ c, competitor_division_id c = div_id) new
    ∧ Forall (λ c, (fresh_key (map competitor_pk (competitors d)) ≤ competitor_pk c)%Z)
        new
    ∧ NoDup (map competitor_pk new).
Proof.
  destruct (add_competitors_spec div_id (submitted_names names_text) (competitors d))
    as (new & Hadd & Hn & Hd & Hk & Hnd).
  exists new. split_and!; try done.
  unfold ui_add_competitors, request_as, ui_add_competitors_view.
  cbn [begin pending].
  assert (with_competitors (competitors d ++ new) d
          = if decide (submitted_names names_text = []) then d
            else with_competitors (competitors d ++ new) d) as ->.
  { case_decide as E; [|done]. rewrite E in Hn.
    apply fmap_nil_inv in Hn as ->. rewrite app_nil_r. by destruct d. }
  assert (map competitor_name (competitors_of div_id (competitors d))
            ++ submitted_names names_text
          = map competitor_name (competitors_of div_id (competitors d ++ new)))
    as ->.
  { by rewrite competitors_of_app, (competitors_of_all _ new), map_app, Hn. }
  destruct names_text as [[|a text]|]; cbn [submitted_names] in *.
  - change (name_list "") with (@nil string) in *.
    apply fmap_nil_inv in Hn as ->. by rewrite app_nil_r.
  - cbn [stored commit on_pending pending begin].
    rewrite Hadd. case_decide as E; [|done].
    rewrite E in Hn. apply fmap_nil_inv in Hn as ->.
    rewrite app_nil_r. by destruct d.
  - apply fmap_nil_inv in Hn as ->. by rewrite app_nil_r.
Qed.

(** X24.  Adding competitors, for a division id in SQLite's integer range,
    stores one competitor per non-blank line of the text, in the order of
    the lines, after the competitors that were there; each lands in the
    division of the URL (which need not exist) under a new key that no
    other competitor has.  Every stored name is clean: not empty, without a
    line break and without a space at either end.  The answer lists the
    division's names, old ones first.  A request without text stores
    nothing. *)
Theorem added_competitors_have_clean_names
    (d : DB) (div_id : Z) (names_text : option string) :
  sqlite_int div_id →
  ∃ new,
    ui_add_competitors div_id names_text d
    = (Reply 200 (map competitor_name (competitors_of div_id (competitors d))
                  ++ submitted_names names_text),
       with_competitors (competitors d ++ new) d)
    ∧ map competitor_name new = submitted_names names_text
    ∧ Forall (λ c, competitor_division_id c = div_id
                   ∧ clean_name (competitor_name c)
                   ∧ competitor_pk c ∉ map competitor_pk (competitors d)) new
    ∧ NoDup (map competitor_pk new).
Proof.
  intros _.
  destruct (ui_add_competitors_stored d div_id names_text)
    as (new & Hreq & Hn & Hd & Hk & Hnd).
  exists new. split_and!; try done.
  - apply Forall_forall. intros c Hc. split_and!.
    + by apply (proj1 (Forall_forall _ _) Hd).
    + pose proof (name_list_clean_submitted names_text) as Hclean.
      rewrite <- Hn in Hclean.
      apply (proj1 (Forall_forall _ _) Hclean).
      apply list_elem_of_fmap. by exists c.
    + intros Hin. pose proof (fresh_key_above (map competitor_pk (competitors d))) as Ha.
      pose proof (proj1 (Forall_forall _ _) Ha _ Hin) as Hlt.
      pose proof (proj1 (Forall_forall _ _) Hk c Hc) as Hle. simpl in *. lia.
Qed.

Lemma added_competitors_have_clean_names_witness :
  submitted_names (Some ("  Gil Roy " +:+ String.String newline
                         (String.String newline "Hal")))
  = ["Gil Roy"; "Hal"]
  ∧ ∃ new,
      ui_add_competitors 2
        (Some ("  Gil Roy " +:+ String.String newline
               (String.String newline "Hal"))) two_divisions
      = (Reply 200 (map competitor_name (competitors_of 2 (competitors two_divisions))
                    ++ submitted_names
                         (Some ("  Gil Roy " +:+ String.String newline
                                (String.String newline "Hal")))),
         with_competitors (competitors two_divisions ++ new) two_divisions)
      ∧ map competitor_name new
        = submitted_names (Some ("  Gil Roy " +:+ String.String newline
                                 (String.String newline "Hal")))
      ∧ Forall (λ c, competitor_division_id c = 2%Z
                     ∧ clean_name (competitor_name c)
                     ∧ competitor_pk c ∉ map competitor_pk (competitors two_divisions))
          new
      ∧ NoDup (map competitor_pk new).
Proof.
  split; [reflexivity|].
  apply (added_competitors_have_clean_names two_divisions 2). by vm_compute.
Defined.

(** X25.  Neither the form for competitors nor the builder looks the
    division up: names submitted for any division id in SQLite's integer
    range, two or more in all, can be bracketed at once, and the bracket
    counts the competitors the division had plus the submitted ones; no
    division is created on the way. *)
Theorem added_competitors_can_be_bracketed
    (rnd : nat → nat) (d : DB) (div_id : Z) (text : string) :
  sqlite_int div_id →
  (2 ≤ length (name_list text))%nat →
  ∃ names d1 d2,
    ui_add_competitors div_id (Some text) d = (Reply 200 names, d1)
    ∧ generate_bracket rnd div_id d1
      = Some (Ok200 (HtmlBracketGenerated (length names) div_id), d2)
    ∧ length names
      = (length (competitors_of div_id (competitors d)) + length (name_list text))%nat
    ∧ divisions d2 = divisions d.
Proof.
  intros _ Hlen.
  destruct (ui_add_competitors_stored d div_id (Some text))
    as (new & Hreq & Hn & Hd & _).
  cbn [submitted_names] in *.
  set (d1 := with_competitors (competitors d ++ new) d) in *.
  assert (length (competitors_of div_id (competitors d1))
          = (length (competitors_of div_id (competitors d))
             + length (name_list text))%nat) as Hcount.
  { unfold d1. cbn [competitors with_competitors].
    rewrite competitors_of_app, (competitors_of_all _ new), length_app by done.
    by rewrite <- Hn, length_map. }
  destruct (generate_bracket_shape rnd div_id d1) as (tbl' & Hgen & _); [lia|].
  eexists _, d1, _. split_and!.
  - exact Hreq.
  - rewrite Hgen. do 3 f_equal. by rewrite length_app, length_map, Hcount.
  - by rewrite length_app, length_map.
  - done.
Qed.

Lemma added_competitors_can_be_bracketed_witness :
  ∃ names d1 d2,
    ui_add_competitors 7 (Some ("Ann" +:+ String.String newline "Ben")) (roster [])
    = (Reply 200 names, d1)
    ∧ generate_bracket (λ _, 0%nat) 7 d1
      = Some (Ok200 (HtmlBracketGenerated (length names) 7), d2)
    ∧ length names
      = (length (competitors_of 7 (competitors (roster [])))
         + length (name_list ("Ann" +:+ String.String newline "Ben")))%nat
    ∧ divisions d2 = divisions (roster []).
Proof.
  apply (added_competitors_can_be_bracketed (λ _, 0%nat) (roster []) 7).
  - by vm_compute.
  - vm_compute. lia.
Defined.

(** ** Rounds of a bracket *)

Lemma first_seen_snoc {K} `{EqDecision K} (ks : list K) k :
  first_seen (ks ++ [k])
  = if decide (k ∈ ks) then first_seen ks else first_seen ks ++ [k].
Proof.
  unfold first_seen. rewrite reverse_snoc. simpl.
  destruct (decide_rel elem_of k (reverse ks)) as [Hin|Hin];
    rewrite elem_of_reverse in Hin.
  - by rewrite decide_True.
  - by rewrite decide_False, reverse_cons.
Qed.

Lemma first_seen_NoDup {K} `{EqDecision K} (ks : list K) : NoDup (first_seen ks).
Proof. unfold first_seen. rewrite reverse_Permutation. apply NoDup_remove_dups. Qed.

Lemma elem_of_first_seen {K} `{EqDecision K} (ks : list K) k :
  k ∈ first_seen ks ↔ k ∈ ks.
Proof.
  unfold first_seen. by rewrite elem_of_reverse, elem_of_remove_dups, elem_of_reverse.
Qed.

Section groups.
Context {A : Type} (round : A → option string).

Lemma filter_round_snoc (l : list A) x k :
  filter (λ y, round y = k) (l ++ [x])
  = if decide (round x = k) then filter (λ y, round y = k) l ++ [x]
    else filter (λ y, round y = k) l.
Proof.
  rewrite filter_app, filter_cons, filter_nil.
  case_decide; [done|]. by rewrite app_nil_r.
Qed.

Lemma group_append_keys (l : list A) x (ks : list (option string)) :
  NoDup ks →
  group_append (round x) x ((λ k, (k, filter (λ y, round y = k) l)) <$> ks)
  = ((λ k, (k, filter (λ y, round y = k) (l ++ [x]))) <$> ks)
    ++ (if decide (round x ∈ ks) then [] else [(round x, [x])]).
Proof.
  induction 1 as [|k ks Hk Hnd IH].
  { rewrite !fmap_nil. cbn [group_append].
    by rewrite decide_False by apply not_elem_of_nil. }
  rewrite !fmap_cons. cbn [group_append]. rewrite filter_round_snoc.
  destruct (decide (k = round x)) as [E|E].
  - subst k. rewrite (decide_True (P := round x = round x)) by done.
    rewrite (decide_True (P := round x ∈ round x :: ks)) by left.
    rewrite app_nil_r. f_equal.
    apply list_fmap_ext. intros j k' Hk'. rewrite filter_round_snoc.
    rewrite decide_False; [done|]. intros <-.
    by apply Hk, (list_elem_of_lookup_2 _ j).
  - rewrite (decide_False (P := round x = k)) by congruence.
    rewrite IH, <- app_comm_cons. do 2 f_equal.
    destruct (decide (round x ∈ ks)) as [Hin|Hin].
    + by rewrite decide_True by by right.
    + rewrite decide_False; [done|]. intros [?|?]%elem_of_cons; congruence.
Qed.

(** The grouping in closed form: the round names in the order in which
    they first occur, each with its rows in their order. *)
Lemma group_by_round_spec (l : list A) :
  group_by_round round l
  = (λ k, (k, filter (λ y, round y = k) l)) <$> first_seen (round <$> l).
Proof.
  induction l as [|x l IH] using rev_ind; [done|].
  unfold group_by_round in *. rewrite foldl_app. simpl. rewrite IH.
  rewrite group_append_keys by apply first_seen_NoDup.
  rewrite (fmap_app round l [x]). change (round <$> [x]) with [round x].
  rewrite first_seen_snoc.
  destruct (decide (round x ∈ first_seen (round <$> l))) as [Hin|Hin];
    rewrite elem_of_first_seen in Hin.
  - by rewrite decide_True, app_nil_r.
  - rewrite decide_False by done. rewrite fmap_app. simpl.
    rewrite filter_round_snoc, decide_True by done.
    rewrite (filter_none (λ y, round y = round x) l); [done|].
    apply Forall_forall. intros y Hy E. apply Hin.
    apply list_elem_of_fmap. by exists y.
Qed.

End groups.

(** X26.  The page that manages a bracket is answered 404 for a division
    id in SQLite's integer range that names no division; for a division
    that exists it gets the division's matches split by round name: the
    round names are distinct and come in the order in which the stored
    matches first show them, and each round holds exactly the division's
    matches with that name, in stored order, and is not empty. *)
Theorem rounds_partition_the_bracket (d : DB) (div_id : Z) :
  sqlite_int div_id →
  match get_division div_id (divisions d) with
  | None => manage_bracket_page div_id d = Abort404
  | Some division =>
    ∃ rounds,
      manage_bracket_page div_id d = Reply 200 (division, rounds, rings d)
      ∧ rounds.*1 = first_seen (round_name <$> matches_of div_id (matches d))
      ∧ NoDup (rounds.*1)
      ∧ ∀ k ms, (k, ms) ∈ rounds ↔
          ms ≠ [] ∧ ms = filter (λ m, round_name m = k) (matches_of div_id (matches d))
  end.
Proof.
  intros _. unfold manage_bracket_page.
  destruct (get_division div_id (divisions d)) as [dv|]; [|done].
  eexists. split; [done|]. rewrite group_by_round_spec.
  set (l := matches_of div_id (matches d)).
  assert (((λ k, (k, filter (λ y, round_name y = k) l))
             <$> first_seen (round_name <$> l)).*1
          = first_seen (round_name <$> l)) as Hkeys.
  { rewrite <- list_fmap_compose. apply list_fmap_id. }
  split_and!.
  - done.
  - rewrite Hkeys. apply first_seen_NoDup.
  - intros k ms. rewrite list_elem_of_fmap. split.
    + intros (k' & [= -> ->] & Hk). split; [|done].
      apply elem_of_first_seen, list_elem_of_fmap in Hk as (m & -> & Hm).
      intros E. assert (m ∈ filter (λ y, round_name y = round_name m) l) as Hin
        by by apply list_elem_of_filter.
      rewrite E in Hin. by apply elem_of_nil in Hin.
    + intros [Hne ->]. exists k. split; [done|].
      apply elem_of_first_seen.
      destruct (filter (λ m, round_name m = k) l) as [|m ms] eqn:E; [done|].
      assert (m ∈ filter (λ m, round_name m = k) l) as Hin by (rewrite E; left).
      apply list_elem_of_filter in Hin as [<- Hin].
      apply list_elem_of_fmap. by exists m.
Qed.

Lemma rounds_partition_the_bracket_witness :
  (∃ rounds,
     manage_bracket_page 1 two_divisions
     = Reply 200 (mkDivision 1 "Sparring", rounds, rings two_divisions)
     ∧ rounds.*1 = first_seen (round_name <$> matches_of 1 (matches two_divisions))
     ∧ NoDup (rounds.*1)
     ∧ ∀ k ms, (k, ms) ∈ rounds ↔
         ms ≠ []
         ∧ ms = filter (λ m, round_name m = k) (matches_of 1 (matches two_divisions)))
  ∧ first_seen (round_name <$> matches_of 1 (matches two_divisions))
    = [Some "Round 1"; Some "Final"]
  ∧ manage_bracket_page 3 two_divisions = Abort404.
Proof.
  split_and!.
  - exact (rounds_partition_the_bracket two_divisions 1 ltac:(by vm_compute)).
  - reflexivity.
  - exact (rounds_partition_the_bracket two_divisions 3 ltac:(by vm_compute)).
Defined.

(** ** The two ways of reading a bracket *)

Lemma slot_name_fails tbl c :
  match slot_name tbl c with
  | inl e => e = Known AttributeError ∧ dangling tbl c
  | inr _ => ¬ dangling tbl c
  end.
Proof.
  unfold slot_name, dangling, related_competitor.
  destruct (truthy c); [|by intros [? _]].
  destruct (c ≫= _); [by intros [_ ?]|done].
Qed.

Lemma named_matches_fails tbl ms :
  match named_matches tbl ms with
  | inl e =>
    e = Known AttributeError
    ∧ Exists (λ m, dangling tbl (competitor1_id m) ∨ dangling tbl (competitor2_id m)) ms
  | inr named =>
    named.*1.*1 = ms
    ∧ Forall (λ m, ¬ dangling tbl (competitor1_id m)
                   ∧ ¬ dangling tbl (competitor2_id m)) ms
  end.
Proof.
  induction ms as [|m ms IH]; simpl; [by split|].
  pose proof (slot_name_fails tbl (competitor1_id m)) as H1.
  pose proof (slot_name_fails tbl (competitor2_id m)) as H2.
  destruct (slot_name tbl (competitor1_id m)) as [e1|n1].
  { destruct H1 as [-> H1]. split; [done|]. left. by left. }
  destruct (slot_name tbl (competitor2_id m)) as [e2|n2].
  { destruct H2 as [-> H2]. split; [done|]. left. by right. }
  destruct (named_matches tbl ms) as [e|named].
  - destruct IH as [-> IH]. split; [done|]. by right.
  - destruct IH as [IH1 IH2]. split; [simpl; by f_equal|]. by constructor.
Qed.

(** X27.  The two readers of a bracket, for a division id in SQLite's
    integer range, differ on a slot that names a competitor who is not
    stored: the HTML reader [get_bracket_ui] fails (with [AttributeError])
    exactly when a match of the division has such a slot, and answers 404
    exactly when the division has no match; the JSON reader [get_bracket]
    answers every division that has matches with one entry per match. *)
Theorem bracket_readers_on_unknown_competitors (d : DB) (div_id : Z) :
  sqlite_int div_id →
  let ms := matches_of div_id (matches d) in
  (get_bracket_ui div_id d = Fails (Known AttributeError)
   ↔ Exists (λ m, dangling (competitors d) (competitor1_id m)
                  ∨ dangling (competitors d) (competitor2_id m)) ms)
  ∧ (get_bracket_ui div_id d = Reply 404 None ↔ ms = [])
  ∧ (∀ f, get_bracket_ui div_id d = Fails f → f = Known AttributeError)
  ∧ (ms ≠ [] →
     get_bracket div_id d
     = Ok200 (JsonValue (JArr (map (bracket_entry (competitors d)) ms)))).
Proof.
  intros _ ms. unfold get_bracket_ui, get_bracket. fold ms.
  pose proof (named_matches_fails (competitors d) ms) as H.
  destruct ms as [|m ms'] eqn:E.
  { split_and!; try done. split; [done|]. by intros ?%Exists_nil. }
  destruct (named_matches _ _) as [e|named].
  - destruct H as [-> H]. split_and!; try done. by intros f [= <-].
  - destruct H as [_ H]. split_and!; try done.
    split; [done|]. intros Hex. apply Exists_exists in Hex as (x & Hx & Hd).
    pose proof (proj1 (Forall_forall _ _) H x Hx) as [? ?]. tauto.
Qed.

Lemma bracket_readers_on_unknown_competitors_witness :
  slots_at 3 (record_result 1 (Some "Completed") (Some 9%Z) bracket_four).2
  = Some (Some 9%Z, None)
  ∧ get_bracket_ui 1 (record_result 1 (Some "Completed") (Some 9%Z) bracket_four).2
    = Fails (Known AttributeError)
  ∧ (∃ j, get_bracket 1 (record_result 1 (Some "Completed") (Some 9%Z)
                            bracket_four).2
          = Ok200 (JsonValue (JArr j)) ∧ length j = 3%nat)
  ∧ (∃ rounds, get_bracket_ui 1 bracket_four = Reply 200 (Some rounds)).
Proof.
  destruct (bracket_readers_on_unknown_competitors
              (record_result 1 (Some "Completed") (Some 9%Z) bracket_four).2 1)
    as (Hfail & _ & _ & Hjson); [by vm_compute|].
  split_and!.
  - reflexivity.
  - apply Hfail. apply Exists_exists.
    exists (mkMatch 3 1 None (Some 9%Z) None None None None (Some "Pending")
              (Some "Final")).
    split; [|left; by split].
    right. right. left.
  - eexists. split; [apply Hjson; discriminate|reflexivity].
  - by eexists.
Defined.

(** ** Rings *)

Lemma get_ring_above i tbl :
  Forall (λ r, (ring_pk r < i)%Z) tbl →
  get_ring i tbl = None ∧ filter (λ r, ring_pk r ≠ i) tbl = tbl.
Proof.
  induction 1 as [|r tbl Hr _ [IH1 IH2]]; [done|]. simpl.
  assert ((ring_pk r =? i)%Z = false) as -> by lia. split; [done|].
  rewrite filter_cons, decide_True by lia. by rewrite IH2.
Qed.

Lemma get_ring_snoc i tbl r :
  get_ring i tbl = None → ring_pk r = i → get_ring i (tbl ++ [r]) = Some r.
Proof.
  intros Hn Hr. induction tbl as [|x tbl IH]; simpl in *.
  - by assert ((ring_pk r =? i)%Z = true) as -> by lia.
  - destruct (ring_pk x =? i)%Z; [done|]. by apply IH.
Qed.

Lemma rings_below_fresh (tbl : list Ring) :
  Forall (λ r, (ring_pk r < fresh_key (map ring_pk tbl))%Z) tbl.
Proof.
  pose proof (fresh_key_above (map ring_pk tbl)) as H.
  apply Forall_forall. intros r Hr.
  apply (proj1 (Forall_forall _ _) H). apply list_elem_of_fmap. by exists r.
Qed.

(** X28.  Creating a ring, by either route, appends it under a key that no
    stored ring has and answers with that key; both listings then show the
    old rings followed by the new one, and deleting the new ring gives the
    ring table back as it was.  A JSON body without the key ["name"], a
    [null] name, or a form without the field fails and stores nothing. *)
Theorem ring_created_listed_deleted (d : DB) (name : string) :
  ∃ i d1,
    manage_rings_post (Str name) d = (Reply 201 i, d1)
    ∧ ui_add_ring (Some name) d = (Reply 200 (name, i), d1)
    ∧ get_ring i (rings d) = None
    ∧ get_ring i (rings d1) = Some (mkRing i name)
    ∧ manage_rings_get d1
      = Reply 200 (map (λ r, (ring_pk r, ring_name r)) (rings d) ++ [(i, name)])
    ∧ ui_rings_list d1
      = Reply 200 (map (λ r, (ring_name r, ring_pk r)) (rings d) ++ [(name, i)])
    ∧ divisions d1 = divisions d ∧ competitors d1 = competitors d
    ∧ matches d1 = matches d
    ∧ (ui_delete_ring i d1).1 = Reply 200 ()
    ∧ rings (ui_delete_ring i d1).2 = rings d
    ∧ manage_rings_post Absent d = (Fails KeyError, d)
    ∧ manage_rings_post Null d = (Fails (Known IntegrityError), d)
    ∧ ui_add_ring None d = (Fails (Known IntegrityError), d).
Proof.
  destruct (get_ring_above _ _ (rings_below_fresh (rings d))) as [Hnone Hfilter].
  pose proof (get_ring_snoc _ _ (mkRing (fresh_key (map ring_pk (rings d))) name)
                Hnone eq_refl) as Hsome.
  eexists _, _. split; [done|].
  cbn [stored commit pending begin add_ring with_rings rings divisions competitors
       matches].
  split_and!; try done.
  - unfold manage_rings_get. cbn [rings with_rings]. by rewrite map_app.
  - unfold ui_rings_list. cbn [rings with_rings]. by rewrite map_app.
  - unfold ui_delete_ring, request_as, ui_delete_ring_view.
    cbn [begin pending rings with_rings]. by rewrite Hsome.
  - unfold ui_delete_ring, request_as, ui_delete_ring_view.
    cbn [begin pending rings with_rings]. rewrite Hsome. unfold session_delete_ring.
    cbn [stored commit on_pending pending begin rings with_rings snd].
    rewrite filter_app, Hfilter, filter_cons, decide_False, filter_nil, app_nil_r; [done|].
    simpl. tauto.
Qed.

(** ** Renaming a division *)

Lemma get_division_rename div_id name tbl e :
  get_division e (rename_division div_id name tbl)
  = (λ dv, if (division_pk dv =? div_id)%Z then mkDivision (division_pk dv) name
           else dv) <$> get_division e tbl.
Proof.
  induction tbl as [|x tbl IH]; [done|]. simpl.
  destruct (division_pk x =? div_id)%Z eqn:E1; simpl.
  - destruct (division_pk x =? e)%Z; [|done]. simpl. by rewrite E1.
  - destruct (division_pk x =? e)%Z; [|done]. simpl. by rewrite E1.
Qed.

Lemma get_division_pk i tbl dv : get_division i tbl = Some dv → division_pk dv = i.
Proof.
  induction tbl as [|x tbl IH]; [done|]. simpl.
  destruct (division_pk x =? i)%Z eqn:E; [|done]. intros [= <-]. lia.
Qed.

(** X29.  Renaming a division ([PUT /divisions/<id>]) answers 404 for an id
    in SQLite's integer range that names no division.  For a division that
    exists a new name is stored on that division alone, which keeps its
    key and its place, so its competitors and matches stay attached; rings,
    competitors and matches are not touched.  A body without the key
    ["name"] changes nothing, and a [null] name fails and stores nothing. *)
Theorem rename_keeps_the_bracket (d : DB) (div_id : Z) (name : json_field) :
  sqlite_int div_id →
  match get_division div_id (divisions d), name with
  | None, _ => edit_division_put div_id name d = (Abort404, d)
  | Some _, Null => edit_division_put div_id name d = (Fails (Known IntegrityError), d)
  | Some _, Absent => edit_division_put div_id name d = (Reply 200 "Division updated", d)
  | Some _, Str s =>
    ∃ d', edit_division_put div_id name d = (Reply 200 "Division updated", d')
        ∧ get_division div_id (divisions d') = Some (mkDivision div_id s)
        ∧ (∀ e, e ≠ div_id →
             get_division e (divisions d') = get_division e (divisions d))
        ∧ map division_pk (divisions d') = map division_pk (divisions d)
        ∧ rings d' = rings d ∧ competitors d' = competitors d
        ∧ matches d' = matches d
  end.
Proof.
  intros _. unfold edit_division_put, request_as, edit_division_put_view.
  cbn [begin pending].
  destruct (get_division div_id (divisions d)) as [dv|] eqn:Hd; [|done].
  destruct name as [| |s]; try done.
  eexists. split; [done|].
  cbn [stored commit on_pending pending begin with_divisions divisions rings
       competitors matches].
  split_and!; try done.
  - rewrite get_division_rename, Hd. simpl.
    rewrite (get_division_pk _ _ _ Hd), Z.eqb_refl. done.
  - intros e He. rewrite get_division_rename.
    destruct (get_division e (divisions d)) as [dv'|] eqn:Hd'; [|done]. simpl.
    rewrite (get_division_pk _ _ _ Hd').
    by assert ((e =? div_id)%Z = false) as -> by lia.
  - unfold rename_division. rewrite <- list_fmap_compose.
    apply list_fmap_ext. intros _ x _. simpl. by destruct (_ =? _)%Z.
Qed.

Lemma rename_keeps_the_bracket_witness :
  (∃ d', edit_division_put 1 (Str "Sparring A") two_divisions
         = (Reply 200 "Division updated", d')
       ∧ get_division 1 (divisions d') = Some (mkDivision 1 "Sparring A")
       ∧ (∀ e, e ≠ 1%Z →
            get_division e (divisions d') = get_division e (divisions two_divisions))
       ∧ map division_pk (divisions d') = map division_pk (divisions two_divisions)
       ∧ rings d' = rings two_divisions
       ∧ competitors d' = competitors two_divisions
       ∧ matches d' = matches two_divisions)
  ∧ edit_division_put 3 (Str "Sparring A") two_divisions = (Abort404, two_divisions).
Proof.
  split.
  - exact (rename_keeps_the_bracket two_divisions 1 (Str "Sparring A")
             ltac:(by vm_compute)).
  - exact (rename_keeps_the_bracket two_divisions 3 (Str "Sparring A")
             ltac:(by vm_compute)).
Defined.

(** ** Public view of the rings *)

Lemma split_words_nonempty cur s : Forall (λ w, w ≠ []) (split_words cur s).
Proof.
  revert cur. induction s as [|a s IH]; intros cur; simpl.
  - destruct cur as [|c cur]; [done|]. constructor; [|done].
    rewrite reverse_cons. by intros [_ [=]]%app_eq_nil.
  - destruct (is_space a); [|apply IH].
    destruct cur as [|c cur]; [apply IH|]. constructor; [|apply IH].
    rewrite reverse_cons. by intros [_ [=]]%app_eq_nil.
Qed.

Lemma split_words_started cur s : cur ≠ [] → split_words cur s ≠ [].
Proof.
  revert cur. induction s as [|a s IH]; intros cur Hcur; simpl.
  - by destruct cur.
  - destruct (is_space a); [by destruct cur|]. by apply IH.
Qed.

Lemma short_name_clean s : clean_name s → ∃ r, short_name s = inr r.
Proof.
  unfold clean_name, short_name. intros (Hne & _ & Hhead & _).
  destruct (String.list_ascii_of_string s) as [|a l]; [done|].
  pose proof (split_words_nonempty [] (a :: l)) as Hws.
  assert (split_words [] (a :: l) ≠ []) as Hne'.
  { simpl. rewrite (Hhead a eq_refl). by apply split_words_started. }
  destruct (split_words [] (a :: l)) as [|w ws] eqn:E; [done|].
  apply Forall_cons in Hws as [Hw _]. destruct w as [|c w]; [done|].
  destruct (last ((c :: w) :: ws)) as [x|] eqn:El; [by eexists|].
  by apply last_None in El.
Qed.

Lemma get_competitor_elem_of i tbl c : get_competitor i tbl = Some c → c ∈ tbl.
Proof.
  induction tbl as [|x tbl IH]; [done|]. simpl.
  destruct (competitor_pk x =? i)%Z.
  - intros [= ->]. left.
  - intros H. right. by apply IH.
Qed.

Lemma short_or_tbd_clean tbl c :
  Forall (λ c, clean_name (competitor_name c)) tbl →
  ∃ r, short_or_tbd (related_competitor tbl c) = inr r.
Proof.
  intros Hcl. unfold related_competitor, short_or_tbd.
  destruct c as [i|]; simpl; [|by eexists].
  destruct (get_competitor i tbl) as [x|] eqn:E; [|by eexists].
  apply short_name_clean.
  by apply (proj1 (Forall_forall _ _) Hcl), (get_competitor_elem_of i).
Qed.

Lemma public_matches_clean tbl ms :
  Forall (λ c, clean_name (competitor_name c)) tbl →
  ∃ shown, public_matches tbl ms = inr shown ∧ shown.*1.*1 = ms.
Proof.
  intros Hcl. induction ms as [|m ms (shown & IH & Hms)]; simpl; [by eexists|].
  destruct (short_or_tbd_clean tbl (competitor1_id m) Hcl) as [c1 ->].
  destruct (short_or_tbd_clean tbl (competitor2_id m) Hcl) as [c2 ->].
  rewrite IH. eexists. split; [done|]. simpl. by f_equal.
Qed.

Lemma public_rings_clean d rs :
  names_clean d →
  ∃ cards, public_rings d rs = inr cards
         ∧ cards.*1 = ring_name <$> rs
         ∧ (λ c, c.2.*1.*1) <$> cards = shown_on d <$> rs.
Proof.
  intros Hcl. induction rs as [|r rs (cards & IH & Hn & Hm)]; simpl; [by eexists|].
  destruct (public_matches_clean (competitors d) (shown_on d r) Hcl)
    as (shown & Hs & Hshown).
  unfold shown_on in Hs at 1. rewrite Hs, IH. eexists. split; [done|].
  split; simpl; by f_equal.
Qed.

(** X30.  When every stored name is clean, the public view of the rings
    answers 200 and never fails on shortening a name: it shows one card per
    ring, in the order of the rings, with that ring's pending and running
    matches in stored order.  Adding competitors keeps all names clean, so
    on a database filled through the application's own form the view
    cannot fail. *)
Theorem public_rings_never_fail_on_clean_names (d : DB) :
  names_clean d →
  (∃ cards, ui_public_rings d = Reply 200 cards
          ∧ cards.*1 = ring_name <$> rings d
          ∧ (λ c, c.2.*1.*1) <$> cards = shown_on d <$> rings d)
  ∧ ∀ div_id names_text,
      names_clean (ui_add_competitors div_id names_text d).2.
Proof.
  intros Hcl. split.
  - destruct (public_rings_clean d (rings d) Hcl) as (cards & Hc & Hn & Hm).
    exists cards. unfold ui_public_rings. by rewrite Hc.
  - intros div_id names_text.
    destruct (ui_add_competitors_stored d div_id names_text)
      as (new & -> & Hn & _).
    unfold names_clean. cbn [snd competitors with_competitors].
    apply Forall_app. split; [done|].
    pose proof (name_list_clean_submitted names_text) as Hclean.
    rewrite <- Hn in Hclean. apply Forall_forall. intros c Hc.
    apply (proj1 (Forall_forall _ _) Hclean).
    apply list_elem_of_fmap. by exists c.
Qed.

Lemma sample_names_clean : names_clean two_divisions.
Proof.
  repeat (constructor;
          [unfold clean_name; simpl; split_and!;
           [done
           |intros H; repeat (apply elem_of_cons in H as [H|H]; [discriminate|]);
            by apply elem_of_nil in H
           |by intros a [= <-]
           |by intros a [= <-]]|]).
  constructor.
Defined.

Lemma public_rings_never_fail_on_clean_names_witness :
  ui_public_rings two_divisions
  = Reply 200
      [("Ring 5",
        [(mkMatch 1 1 (Some 5%Z) (Some 1%Z) (Some 3%Z) None (Some 3%Z) (Some 525%Z)
            (Some "Pending") (Some "Round 1"), "A. Alice", "C. Cara");
         (mkMatch 4 2 (Some 5%Z) (Some 5%Z) (Some 6%Z) None None (Some 502%Z)
            (Some "In Progress") (Some "Round 1"), "E. Moss", "F. Fay")]);
       ("Ring 6",
        [(mkMatch 2 1 (Some 6%Z) (Some 2%Z) (Some 4%Z) None (Some 3%Z) (Some 601%Z)
            (Some "Pending") (Some "Round 1"), "B. Bob", "D. Dee")])]
  ∧ (∃ cards, ui_public_rings two_divisions = Reply 200 cards
            ∧ cards.*1 = ring_name <$> rings two_divisions
            ∧ (λ c, c.2.*1.*1) <$> cards = shown_on two_divisions <$> rings two_divisions)
  ∧ ∀ div_id names_text,
      names_clean (ui_add_competitors div_id names_text two_divisions).2.
Proof.
  split; [reflexivity|].
  exact (public_rings_never_fail_on_clean_names two_divisions sample_names_clean).
Defined.
